(** * Switchboard: the exclusive-timer engine and its persistent store

    A shallow embedding of [src/lib/useLocalStorage.ts] and of the timer core
    of [src/app/page.tsx] (both versions of the component), followed by the
    properties of the specification that concern them.

    Conventions of the embedding.
    - A JavaScript string is a [string] whose characters are code units
      below 256; [trim], [toLowerCase] and the regular expressions are the
      ECMAScript ones restricted to that range.
    - The numbers the timer manipulates are integer millisecond counts; they
      are modelled by [Z], which is exact for doubles of magnitude below
      2^53.  Where the source leaves the integers (the percentage of the
      daily summary) the double-precision operations are those of
      [SpecFloat] at precision 53.  The sums themselves are also given on
      doubles ([Doubles]); they are the integer sums below 2^53
      ([DoubleProps]), and the statements that assert an exact sum carry
      that bound.
    - [Date.now()] and [Math.random()] are inputs of the operations that
      call them.
    - An event handler is the list of state-setter calls it issues; React
      applies the whole batch, renders once and re-runs the timer effect
      when [activeTaskId] changed.  State that only drives the display (the
      text field, the two modals, the accent) takes no part in the timer
      and is left out of the original component's state.

    After the timer core come the clock text [formatTime], the quick-switch
    buttons, the write path of the hook and the settings handlers of the
    revised component, with their properties at the end. *)

From Stdlib Require Import ZArith String Ascii List Sorting.Sorted Sorting.Permutation.
From Stdlib Require Import SpecFloat ssreflect.
From stdpp Require Import base decidable option list sorting strings gmap.

Local Open Scope string_scope.
Local Open Scope list_scope.
Local Open Scope Z_scope.

(** ** JavaScript primitives used by the sources *)

Module JS.

(** ECMAScript [WhiteSpace] and [LineTerminator] code units below 256:
    TAB, LF, VT, FF, CR, SP and NBSP. *)
Definition isWhiteSpace (c : ascii) : bool :=
  let n := nat_of_ascii c in
  ((9 <=? n)%nat && (n <=? 13)%nat) || (n =? 32)%nat || (n =? 160)%nat.

Fixpoint trimStart (s : string) : string :=
  match s with
  | String c r => if isWhiteSpace c then trimStart r else s
  | EmptyString => EmptyString
  end.

Fixpoint trimEnd (s : string) : string :=
  match s with
  | String c r =>
      match trimEnd r with
      | EmptyString => if isWhiteSpace c then EmptyString else String c EmptyString
      | r' => String c r'
      end
  | EmptyString => EmptyString
  end.

(** [String.prototype.trim] *)
Definition trim (s : string) : string := trimEnd (trimStart s).

(** Lower-case mapping of one code unit: A-Z, and the Latin-1 capitals
    U+00C0..U+00DE except the multiplication sign U+00D7. *)
Definition lowerChar (c : ascii) : ascii :=
  let n := nat_of_ascii c in
  if ((65 <=? n)%nat && (n <=? 90)%nat)
     || ((192 <=? n)%nat && (n <=? 222)%nat && negb (n =? 215)%nat)
  then ascii_of_nat (n + 32) else c.

(** [String.prototype.toLowerCase] *)
Fixpoint toLowerCase (s : string) : string :=
  match s with
  | String c r => String (lowerChar c) (toLowerCase r)
  | EmptyString => EmptyString
  end.

(** [s] is not empty and its last code unit is not white space. *)
Fixpoint endsBlack (s : string) : bool :=
  match s with
  | EmptyString => false
  | String c EmptyString => negb (isWhiteSpace c)
  | String _ r => endsBlack r
  end.

Fixpoint allWhite (s : string) : bool :=
  match s with
  | EmptyString => true
  | String c r => isWhiteSpace c && allWhite r
  end.

(** [s] is not empty and its first code unit is not white space. *)
Definition startsBlack (s : string) : bool :=
  match s with
  | EmptyString => false
  | String c _ => negb (isWhiteSpace c)
  end.

(** ToBoolean on a string: only the empty string is falsy. *)
Definition truthy (s : string) : bool :=
  match s with EmptyString => false | _ => true end.

(** ToBoolean on [string | null]. *)
Definition truthyOpt (o : option string) : bool :=
  match o with Some s => truthy s | None => false end.

(** The class [\d]. *)
Definition isDigit (c : ascii) : bool :=
  let n := nat_of_ascii c in (48 <=? n)%nat && (n <=? 57)%nat.

Fixpoint allDigits (s : string) : bool :=
  match s with
  | String c r => isDigit c && allDigits r
  | EmptyString => true
  end.

(** [\d+$] against the whole remaining input. *)
Definition digits1 (s : string) : bool := truthy s && allDigits s.

(** [/^#?\d+$/.test(s)] *)
Definition test_workItem (s : string) : bool :=
  match s with
  | String "#" r => digits1 r || digits1 s
  | _ => digits1 s
  end.

(** [s.replace(/^#/, "")] *)
Definition replace_leadingHash (s : string) : string :=
  match s with
  | String "#" r => r
  | _ => s
  end.

(** One digit of radix 36. *)
Definition digit36 (d : Z) : ascii :=
  if d <? 10 then ascii_of_nat (Z.to_nat d + 48)
  else ascii_of_nat (Z.to_nat d + 87).

Fixpoint toString36_pos (fuel : nat) (n : Z) (acc : string) : string :=
  match fuel with
  | O => acc
  | S fuel' =>
      let acc' := String (digit36 (n mod 36)) acc in
      if n <? 36 then acc' else toString36_pos fuel' (n / 36) acc'
  end.

(** [Number.prototype.toString(36)] on an integer. *)
Definition toString36 (n : Z) : string :=
  match n with
  | Z0 => "0"
  | Zpos _ => toString36_pos (S (Z.to_nat (Z.log2 n))) n ""
  | Zneg _ => String "-" (toString36_pos (S (Z.to_nat (Z.log2 (- n)))) (- n) "")
  end.

(** [s.slice(2, 7)] *)
Definition slice_2_7 (s : string) : string := substring 2 5 s.

(** *** Numbers: IEEE 754 binary64 *)

Definition prec : Z := 53.
Definition emax : Z := 1024.

(** The double nearest to an integer (the integer itself below 2^53). *)
Definition ofZ (z : Z) : spec_float := binary_normalize prec emax z 0 false.

(** [x / y] and [x * y] on doubles. *)
Definition fdiv (x y : spec_float) : spec_float := SFdiv prec emax x y.
Definition fmul (x y : spec_float) : spec_float := SFmul prec emax x y.

(** [Math.round]: the integer nearest to the argument, a tie going to the
    larger one, that is [floor (x + 1/2)] computed exactly on the value
    [m * 2^e] of the double.  [None] stands for NaN and the infinities,
    which [Math.round] returns as they are. *)
Definition Math_round (x : spec_float) : option Z :=
  match x with
  | S754_zero _ => Some 0
  | S754_finite sgn m e =>
      let v := if sgn then Z.neg m else Z.pos m in
      Some (if 0 <=? e then v * 2 ^ e
            else (2 * v + 2 ^ (- e)) / 2 ^ (1 - e))
  | S754_infinity _ | S754_nan => None
  end.

(** The location of [A / B] between the integers around it, from the
    remainder [rho = A mod B]. *)
Definition locationOf (rho B : Z) : location :=
  if rho =? 0 then loc_Exact else loc_Inexact (2 * rho ?= B).

(** The record holds the integer part of [A / B] and the location of the
    rest. *)
Definition represents (mrs : shr_record) (A B : Z) : Prop :=
  0 ≤ A ∧ 0 < B ∧ shr_m mrs = A / B
  ∧ loc_of_shr_record mrs = locationOf (A mod B) B.

End JS.

(** ** The timer core of [src/app/page.tsx] *)

Module Switchboard.

Record Task := mkTask {
  id : string;
  name : string;
  elapsed : Z; (* milliseconds *)
  isDevOps : bool
}.

(** [Date.now().toString(36) + Math.random().toString(36).slice(2, 7)];
    [now] is the clock reading and [random36] the radix-36 rendering of
    the random draw. *)
Definition generateId (now : Z) (random36 : string) : string :=
  JS.toString36 now +:+ JS.slice_2_7 random36.

(** What the component holds between two events: the two persisted values
    as rendered, the [activeStartRef] reference cell, and the repeating
    timer, if one is alive, with the [activeTaskId] its callback closed
    over. *)
Record EngineState := mkState {
  tasks : list Task;
  activeTaskId : option string;
  activeStartRef : option Z;
  interval : option string
}.

(** A call of one of the two setters returned by [useLocalStorage]. *)
Inductive update :=
| SetActiveTaskId (v : option string)
| SetTasks (f : list Task → list Task).

Definition applyUpdate (s : EngineState) (u : update) : EngineState :=
  match u with
  | SetActiveTaskId v => mkState (tasks s) v (activeStartRef s) (interval s)
  | SetTasks f => mkState (f (tasks s)) (activeTaskId s) (activeStartRef s) (interval s)
  end.

(** The timer effect, dependencies [activeTaskId, setTasks]: the cleanup
    of the previous run clears its interval, then the body runs. *)
Definition timerEffect (now : Z) (s : EngineState) : EngineState :=
  if negb (JS.truthyOpt (activeTaskId s))
  then mkState (tasks s) (activeTaskId s) None None
  else mkState (tasks s) (activeTaskId s) (Some now) (activeTaskId s).

(** A render following state [s0]: the effect re-runs only when its
    dependency changed. *)
Definition rerender (now : Z) (s0 s : EngineState) : EngineState :=
  if bool_decide (activeTaskId s = activeTaskId s0) then s else timerEffect now s.


(** React applies the batch of one event, renders, and runs the effects. *)
Definition commit (now : Z) (batch : list update) (s : EngineState) : EngineState :=
  rerender now s (foldl applyUpdate s batch).

(** *** Task actions *)

(** The callbacks close over the values of the render they were created in:
    that render's state is their first argument [s] where they read it. *)

Definition startTask (taskId : string) : list update :=
  (* Exclusive timer: starting one pauses any other *)
  [SetActiveTaskId (Some taskId)].

Definition pauseTask : list update :=
  [SetActiveTaskId None].

Definition toggleTask (s : EngineState) (taskId : string) : list update :=
  if bool_decide (activeTaskId s = Some taskId)
  then pauseTask
  else startTask taskId.

Definition addTask (s : EngineState) (now : Z) (random36 : string)
    (name0 : string) (isDevOps0 : bool) : list update :=
  let trimmed := JS.trim name0 in
  if negb (JS.truthy trimmed) then []
  else
    (* Don't add duplicates *)
    let exists_ :=
      existsb (λ t, String.eqb (JS.toLowerCase (name t)) (JS.toLowerCase trimmed))
              (tasks s) in
    if exists_ then []
    else
      let task := mkTask (generateId now random36) trimmed 0 isDevOps0 in
      [SetTasks (λ prev, prev ++ [task])].

Definition removeTask (s : EngineState) (taskId : string) : list update :=
  (if bool_decide (activeTaskId s = Some taskId) then [SetActiveTaskId None] else [])
  ++ [SetTasks (filter (λ t, id t ≠ taskId))].

Definition handleAddCustomTask (s : EngineState) (now : Z) (random36 : string)
    (newTaskName : string) : list update :=
  if JS.truthy (JS.trim newTaskName) then
    (* Detect if it looks like a DevOps work item (numeric or #-prefixed) *)
    let isDevOps0 := JS.test_workItem (JS.trim newTaskName) in
    addTask s now random36
      (if isDevOps0
       then "WI #" +:+ JS.replace_leadingHash (JS.trim newTaskName)
       else newTaskName)
      isDevOps0
  else [].

(** The confirmed branch of the "Clear All Tasks" button. *)
Definition clearAll : list update :=
  [SetTasks (λ _, []); SetActiveTaskId None].

(** *** The interval callback *)

(** [t.id === activeTaskId ? { ...t, elapsed: t.elapsed + delta } : t], on
    integers; the sum as the code computes it on doubles is
    [Doubles.creditDouble], the same below 2^53. *)
Definition credit (activeId : string) (delta : Z) (t : Task) : Task :=
  if bool_decide (id t = activeId)
  then mkTask (id t) (name t) (elapsed t + delta) (isDevOps t)
  else t.

(** One firing of the repeating timer at clock reading [now]; nothing
    fires when no interval is alive. *)
Definition tick (now : Z) (s : EngineState) : EngineState :=
  match interval s with
  | None => s
  | Some activeId =>
      let delta := now - default now (activeStartRef s) in
      commit now [SetTasks (fmap (credit activeId delta))]
             (mkState (tasks s) (activeTaskId s) (Some now) (interval s))
  end.

(** *** Events *)

Inductive command :=
| StartTask (taskId : string)
| PauseTask
| ToggleTask (taskId : string)
| AddTask (name0 : string) (isDevOps0 : bool) (random36 : string)
| RemoveTask (taskId : string)
| AddCustomTask (newTaskName : string) (random36 : string)
| ClearAll
| Tick.

(** The setter calls of a user command, issued against the rendered state. *)
Definition handler (s : EngineState) (now : Z) (c : command) : list update :=
  match c with
  | StartTask taskId => startTask taskId
  | PauseTask => pauseTask
  | ToggleTask taskId => toggleTask s taskId
  | AddTask name0 isDevOps0 random36 => addTask s now random36 name0 isDevOps0
  | RemoveTask taskId => removeTask s taskId
  | AddCustomTask newTaskName random36 => handleAddCustomTask s now random36 newTaskName
  | ClearAll => clearAll
  | Tick => []
  end.

(** One event at clock reading [now]. *)
Definition step (s : EngineState) (ev : Z * command) : EngineState :=
  match ev.2 with
  | Tick => tick ev.1 s
  | c => commit ev.1 (handler s ev.1 c) s
  end.

Definition run (evs : list (Z * command)) (s : EngineState) : EngineState :=
  foldl step s evs.

(** Every state of a run, the initial one first. *)
Fixpoint trace (evs : list (Z * command)) (s : EngineState) : list EngineState :=
  match evs with
  | [] => [s]
  | ev :: evs' => s :: trace evs' (step s ev)
  end.

(** The interval firing at each of the readings [nows], in order. *)
Definition ticks (nows : list Z) (s : EngineState) : EngineState :=
  foldl (λ s' now, tick now s') s nows.

(** *** Startup *)

(** Until the hydration signal both hooks render their initial value. *)
Definition firstRender : EngineState := mkState [] None None None.

(** The render after the signal shows the two stored values, each read on
    its own from the store. *)
Definition startup (now : Z) (storedTasks : list Task) (storedActive : option string)
    : EngineState :=
  rerender now firstRender (mkState storedTasks storedActive None None).

(** *** Derived data *)

Definition activeTask (s : EngineState) : option Task :=
  find (λ t, bool_decide (Some (id t) = activeTaskId s)) (tasks s).

(** The [reduce] on integers; on doubles it is [Doubles.totalTimeDouble],
    the same while the running sums stay below 2^53. *)
Definition totalTime (ts : list Task) : Z :=
  foldl (λ sum t, sum + elapsed t) 0 ts.

(** [isActive] of the task list: [task.id === activeTaskId]. *)
Definition isActive (s : EngineState) (taskId : string) : bool :=
  bool_decide (Some taskId = activeTaskId s).

(** *** Predicates on states *)


(** The live interval is the one the timer effect creates for the
    rendered [activeTaskId]. *)
Definition coherent (s : EngineState) : Prop :=
  interval s = (if JS.truthyOpt (activeTaskId s) then activeTaskId s else None).

Definition ids (ts : list Task) : list string := id <$> ts.

(** The active id, if any, is the id of a task of the collection. *)
Definition validActive (s : EngineState) : Prop :=
  ∀ x, activeTaskId s = Some x → x ∈ ids (tasks s).

Definition uniqueIds (ts : list Task) : Prop := NoDup (ids ts).

Definition lowerNames (ts : list Task) : list string :=
  (λ t, JS.toLowerCase (name t)) <$> ts.

(** No two tasks have names equal up to case. *)
Definition uniqueNames (ts : list Task) : Prop := NoDup (lowerNames ts).

(** Some task already has name [n] up to case. *)
Definition nameTaken (ts : list Task) (n : string) : Prop :=
  ∃ t, t ∈ ts ∧ JS.toLowerCase (name t) = JS.toLowerCase n.

(** The command names a task of the collection, as the buttons rendered
    for [s] do. *)
Definition addressesExisting (s : EngineState) (c : command) : Prop :=
  match c with
  | StartTask taskId | ToggleTask taskId => taskId ∈ ids (tasks s)
  | _ => True
  end.

Fixpoint runAddressesExisting (evs : list (Z * command)) (s : EngineState) : Prop :=
  match evs with
  | [] => True
  | ev :: evs' => addressesExisting s ev.2 ∧ runAddressesExisting evs' (step s ev)
  end.

(** *** Daily summary *)

(** The comparator [(a, b) => b.elapsed - a.elapsed]. *)
Definition compareElapsed (a b : Task) : Z := elapsed b - elapsed a.

(** [Array.prototype.sort] is stable: [a] goes before the first element it
    does not have to follow. *)
Fixpoint insertSorted (a : Task) (l : list Task) : list Task :=
  match l with
  | [] => [a]
  | b :: l' => if 0 <? compareElapsed a b then b :: insertSorted a l' else a :: l
  end.

Definition sort (l : list Task) : list Task := foldr insertSorted [] l.

(** [tasks.filter((t) => t.elapsed > 0).sort(...)]; [filter] returns a new
    array, so sorting it in place leaves [tasks] alone. *)
Definition summaryRows (ts : list Task) : list Task :=
  sort (filter (λ t, 0 < elapsed t) ts).

(** [totalTime > 0 ? Math.round((task.elapsed / totalTime) * 100) : 0] *)
Definition pct (totalTime0 : Z) (task : Task) : option Z :=
  if 0 <? totalTime0
  then JS.Math_round
         (JS.fmul (JS.fdiv (JS.ofZ (elapsed task)) (JS.ofZ totalTime0)) (JS.ofZ 100))
  else Some 0.

(** The total in the words of the specification: the sum of the [elapsed]
    of all tasks. *)
Fixpoint sumElapsed (ts : list Task) : Z :=
  match ts with
  | [] => 0
  | t :: ts' => elapsed t + sumElapsed ts'
  end.

(** [a] may come before [b] in descending order of [elapsed]. *)
Definition descending (a b : Task) : Prop := elapsed b ≤ elapsed a.

(** The percentage in the words of the specification,
    [round(100 * elapsed / total)] on the exact quotient, a tie rounded up
    as [Math.round] does. *)
Definition pct_spec (totalTime0 : Z) (task : Task) : Z :=
  if 0 <? totalTime0
  then (200 * elapsed task + totalTime0) / (2 * totalTime0)
  else 0.

(** The same with a tie rounded to the even neighbour. *)
Definition pct_spec_even (totalTime0 : Z) (task : Task) : Z :=
  if 0 <? totalTime0 then
    let q := (100 * elapsed task) / totalTime0 in
    let r := (100 * elapsed task) mod totalTime0 in
    if 2 * r <? totalTime0 then q
    else if totalTime0 <? 2 * r then q + 1
    else if Z.even q then q else q + 1
  else 0.

End Switchboard.

(** ** The hook of [src/lib/useLocalStorage.ts] *)

Module PersistentStore.

(** The values [JSON.parse] produces. *)
#[local] Unset Elimination Schemes.
Inductive json :=
| JNull
| JBool (b : bool)
| JNum (n : Z)
| JStr (s : string)
| JArr (items : list json)
| JObj (fields : list (string * json)).
#[local] Set Elimination Schemes.

(** [window.localStorage]: either every access raises (storage disabled),
    or it holds a text per key. *)
Inductive localStorage :=
| Blocked
| Items (m : gmap string string).

(** Where a render runs: on the server there is no [window]. *)
Inductive environment :=
| Server
| Browser (ls : localStorage).

(** [localStorage.getItem(key)]: [None] when the access raises, otherwise
    the text or [null]. *)
Definition getItem (ls : localStorage) (key : string) : option (option string) :=
  match ls with
  | Blocked => None
  | Items m => Some (m !! key)
  end.

Section Hook.

(** [JSON.parse]; [None] when it raises a [SyntaxError]. *)
Variable JSON_parse : string → option json.

Definition readFromStorage (env : environment) (key : string) (initialValue : json)
    : json :=
  match env with
  | Server => initialValue
  | Browser ls =>
      match getItem ls key with
      | None => initialValue (* catch *)
      | Some None => initialValue
      | Some (Some item) =>
          if JS.truthy item
          then match JSON_parse item with
               | Some v => v (* as T *)
               | None => initialValue (* catch *)
               end
          else initialValue
      end
  end.

(** The state cell of one [useLocalStorage] call, initialised once. *)
Record hook := mkHook { storedValue : json }.

Definition mount (env : environment) (key : string) (initialValue : json) : hook :=
  mkHook (readFromStorage env key initialValue).

(** The value a render returns; [hydrated] is [useHydrated()]. *)
Definition useLocalStorage (hydrated : bool) (h : hook) (initialValue : json) : json :=
  if hydrated then storedValue h else initialValue.

(** What a component observes for [key] in a session that started in
    [env]. *)
Definition observed (env : environment) (hydrated : bool) (key : string)
    (initialValue : json) : json :=
  useLocalStorage hydrated (mount env key initialValue) initialValue.

End Hook.

(** [JSON.parse] on the three keyword literals, the only texts the
    examples below store. *)
Definition JSON_parse_keyword (text : string) : option json :=
  if String.eqb text "null" then Some JNull
  else if String.eqb text "true" then Some (JBool true)
  else if String.eqb text "false" then Some (JBool false)
  else None.

(** The shape of the value kept under "switchboard-tasks". *)
Definition isArray (v : json) : bool :=
  match v with JArr _ => true | _ => false end.

End PersistentStore.

(** ** The timer core of the revised component (oklch accents, OLED mode,
    editable quick tasks) *)

Module SwitchboardOled.

Record Task := mkTask {
  id : string;
  name : string;
  elapsed : Z; (* milliseconds *)
  isDevOps : bool
}.

Record AccentState := mkAccentState {
  presetIndex : Z;
  customColor : option string (* oklch string for custom color *)
}.

Definition DEFAULT_QUICK_TASKS : list string := ["Meeting"; "Admin"; "Email"].

Definition generateId (now : Z) (random36 : string) : string :=
  JS.toString36 now +:+ JS.slice_2_7 random36.

(** The persisted values as rendered, the reference cell and the live
    interval. *)
Record EngineState := mkState {
  tasks : list Task;
  accentState : AccentState;
  activeTaskId : option string;
  oledMode : bool;
  quickTasks : list string;
  activeStartRef : option Z;
  interval : option string
}.

(** The setter calls the timer core issues. *)
Inductive update :=
| SetActiveTaskId (v : option string)
| SetTasks (f : list Task → list Task).

Definition applyUpdate (s : EngineState) (u : update) : EngineState :=
  match u with
  | SetActiveTaskId v =>
      mkState (tasks s) (accentState s) v (oledMode s) (quickTasks s)
              (activeStartRef s) (interval s)
  | SetTasks f =>
      mkState (f (tasks s)) (accentState s) (activeTaskId s) (oledMode s) (quickTasks s)
              (activeStartRef s) (interval s)
  end.

Definition timerEffect (now : Z) (s : EngineState) : EngineState :=
  if negb (JS.truthyOpt (activeTaskId s))
  then mkState (tasks s) (accentState s) (activeTaskId s) (oledMode s) (quickTasks s)
               None None
  else mkState (tasks s) (accentState s) (activeTaskId s) (oledMode s) (quickTasks s)
               (Some now) (activeTaskId s).

Definition rerender (now : Z) (s0 s : EngineState) : EngineState :=
  if bool_decide (activeTaskId s = activeTaskId s0) then s else timerEffect now s.

Definition commit (now : Z) (batch : list update) (s : EngineState) : EngineState :=
  rerender now s (foldl applyUpdate s batch).

Definition startTask (taskId : string) : list update :=
  [SetActiveTaskId (Some taskId)].

Definition pauseTask : list update :=
  [SetActiveTaskId None].

Definition toggleTask (s : EngineState) (taskId : string) : list update :=
  if bool_decide (activeTaskId s = Some taskId)
  then pauseTask
  else startTask taskId.

Definition addTask (s : EngineState) (now : Z) (random36 : string)
    (name0 : string) (isDevOps0 : bool) : list update :=
  let trimmed := JS.trim name0 in
  if negb (JS.truthy trimmed) then []
  else
    let exists_ :=
      existsb (λ t, String.eqb (JS.toLowerCase (name t)) (JS.toLowerCase trimmed))
              (tasks s) in
    if exists_ then []
    else
      let task := mkTask (generateId now random36) trimmed 0 isDevOps0 in
      [SetTasks (λ prev, prev ++ [task])].

Definition removeTask (s : EngineState) (taskId : string) : list update :=
  (if bool_decide (activeTaskId s = Some taskId) then [SetActiveTaskId None] else [])
  ++ [SetTasks (filter (λ t, id t ≠ taskId))].

Definition handleAddCustomTask (s : EngineState) (now : Z) (random36 : string)
    (newTaskName : string) : list update :=
  if JS.truthy (JS.trim newTaskName) then
    let isDevOps0 := JS.test_workItem (JS.trim newTaskName) in
    addTask s now random36
      (if isDevOps0
       then "WI #" +:+ JS.replace_leadingHash (JS.trim newTaskName)
       else newTaskName)
      isDevOps0
  else [].

Definition credit (activeId : string) (delta : Z) (t : Task) : Task :=
  if bool_decide (id t = activeId)
  then mkTask (id t) (name t) (elapsed t + delta) (isDevOps t)
  else t.

Definition tick (now : Z) (s : EngineState) : EngineState :=
  match interval s with
  | None => s
  | Some activeId =>
      let delta := now - default now (activeStartRef s) in
      commit now [SetTasks (fmap (credit activeId delta))]
             (mkState (tasks s) (accentState s) (activeTaskId s) (oledMode s)
                      (quickTasks s) (Some now) (interval s))
  end.

End SwitchboardOled.

(** ** The two components side by side *)

Module Versions.

(** The shared part of a command: which core operation, with which
    arguments. *)
Inductive operation :=
| OpStart (taskId : string)
| OpPause
| OpToggle (taskId : string)
| OpAdd (name0 : string) (isDevOps0 : bool) (random36 : string)
| OpRemove (taskId : string)
| OpAddCustom (newTaskName : string) (random36 : string)
| OpTick.

Definition stepOriginal (now : Z) (op : operation) (s : Switchboard.EngineState)
    : Switchboard.EngineState :=
  match op with
  | OpStart taskId => Switchboard.commit now (Switchboard.startTask taskId) s
  | OpPause => Switchboard.commit now Switchboard.pauseTask s
  | OpToggle taskId => Switchboard.commit now (Switchboard.toggleTask s taskId) s
  | OpAdd name0 isDevOps0 random36 =>
      Switchboard.commit now (Switchboard.addTask s now random36 name0 isDevOps0) s
  | OpRemove taskId => Switchboard.commit now (Switchboard.removeTask s taskId) s
  | OpAddCustom newTaskName random36 =>
      Switchboard.commit now (Switchboard.handleAddCustomTask s now random36 newTaskName) s
  | OpTick => Switchboard.tick now s
  end.

Definition stepRevised (now : Z) (op : operation) (s : SwitchboardOled.EngineState)
    : SwitchboardOled.EngineState :=
  match op with
  | OpStart taskId => SwitchboardOled.commit now (SwitchboardOled.startTask taskId) s
  | OpPause => SwitchboardOled.commit now SwitchboardOled.pauseTask s
  | OpToggle taskId => SwitchboardOled.commit now (SwitchboardOled.toggleTask s taskId) s
  | OpAdd name0 isDevOps0 random36 =>
      SwitchboardOled.commit now
        (SwitchboardOled.addTask s now random36 name0 isDevOps0) s
  | OpRemove taskId => SwitchboardOled.commit now (SwitchboardOled.removeTask s taskId) s
  | OpAddCustom newTaskName random36 =>
      SwitchboardOled.commit now
        (SwitchboardOled.handleAddCustomTask s now random36 newTaskName) s
  | OpTick => SwitchboardOled.tick now s
  end.

(** A task of the revised component read as a task of the original one. *)
Definition taskView (t : SwitchboardOled.Task) : Switchboard.Task :=
  Switchboard.mkTask (SwitchboardOled.id t) (SwitchboardOled.name t)
                     (SwitchboardOled.elapsed t) (SwitchboardOled.isDevOps t).

(** The timer part of a state of the revised component. *)
Definition view (s : SwitchboardOled.EngineState) : Switchboard.EngineState :=
  Switchboard.mkState (taskView <$> SwitchboardOled.tasks s)
                      (SwitchboardOled.activeTaskId s)
                      (SwitchboardOled.activeStartRef s)
                      (SwitchboardOled.interval s).

(** A setter call of the revised component does what the corresponding call
    of the original one does. *)
Inductive sameUpdate : SwitchboardOled.update → Switchboard.update → Prop :=
| same_active v :
    sameUpdate (SwitchboardOled.SetActiveTaskId v) (Switchboard.SetActiveTaskId v)
| same_tasks f g :
    (∀ l, taskView <$> f l = g (taskView <$> l)) →
    sameUpdate (SwitchboardOled.SetTasks f) (Switchboard.SetTasks g).

(** The settings of the revised component. *)
Definition settings (s : SwitchboardOled.EngineState)
    : SwitchboardOled.AccentState * bool * list string :=
  (SwitchboardOled.accentState s, SwitchboardOled.oledMode s,
   SwitchboardOled.quickTasks s).

End Versions.

(** ** Scenarios used to run the model *)

Module Scenarios.
Import Switchboard.

(** Three tasks; A is started, then B, a tick fires, then C is started. *)
Definition threeTasks : list Task :=
  [mkTask "a" "A" 0 false; mkTask "b" "B" 0 false; mkTask "c" "C" 0 false].

Definition abc_events : list (Z * command) :=
  [(1000, StartTask "a"); (2000, StartTask "b"); (3000, Tick); (4000, StartTask "c")].

(** Ticks at 1000, 2500 and 3000 ms after a start at 0. *)
Definition irregular_ticks : list (Z * command) :=
  [(1000, Tick); (2500, Tick); (3000, Tick)].

(** Two tasks added at the same clock reading, with random draws that agree
    on their first five radix-36 digits. *)
Definition same_millisecond_adds : list (Z * command) :=
  [(1772150400000, AddTask "Standup" false "0.abcde1z");
   (1772150400000, AddTask "Review" false "0.abcde2k")].

(** A stored active id that names no stored task. *)
Definition ghostState : EngineState := startup 5000 [] (Some "ghost").

(** Tasks that ran for 100, 200 and 700 ms. *)
Definition hundreds : list Task :=
  [mkTask "a" "A" 100 false; mkTask "b" "B" 200 false; mkTask "c" "C" 700 false].

(** Two tasks that ran for 115 and 85 s: 57.5% and 42.5% of the total. *)
Definition halfPercents : list Task :=
  [mkTask "a" "A" 115000 false; mkTask "b" "B" 85000 false].

(** Equal times, and a task that never ran. *)
Definition ties : list Task :=
  [mkTask "a" "A" 300 false; mkTask "b" "B" 0 false; mkTask "c" "C" 500 false;
   mkTask "d" "D" 300 true; mkTask "e" "E" 500 false].

End Scenarios.

(** ** The clock text of [src/app/page.tsx] *)

Module Display.

(** [Math.floor]: the largest integer not above the value [m * 2^e] of the
    double.  [None] stands for NaN and the infinities, which [Math.floor]
    returns as they are. *)
Definition Math_floor (x : spec_float) : option Z :=
  match x with
  | S754_zero _ => Some 0
  | S754_finite sgn m e =>
      let v := if sgn then Z.neg m else Z.pos m in
      Some (if 0 <=? e then v * 2 ^ e else v / 2 ^ (- e))
  | S754_infinity _ | S754_nan => None
  end.

(** One decimal digit. *)
Definition digit10 (d : Z) : ascii := ascii_of_nat (Z.to_nat d + 48).

Fixpoint toString10_pos (fuel : nat) (n : Z) (acc : string) : string :=
  match fuel with
  | O => acc
  | S fuel' =>
      let acc' := String (digit10 (n mod 10)) acc in
      if n <? 10 then acc' else toString10_pos fuel' (n / 10) acc'
  end.

(** [String(n)] on an integer (of magnitude below 10^21, where the
    rendering has no exponent). *)
Definition String_ofInt (n : Z) : string :=
  match n with
  | Z0 => "0"
  | Zpos _ => toString10_pos (S (Z.to_nat (Z.log2 n))) n ""
  | Zneg _ => String "-" (toString10_pos (S (Z.to_nat (Z.log2 (- n)))) (- n) "")
  end.

Fixpoint zeros (n : nat) : string :=
  match n with
  | O => ""
  | S n' => String "0" (zeros n')
  end.

(** [s.padStart(targetLength, "0")] *)
Definition padStart0 (targetLength : nat) (s : string) : string :=
  zeros (targetLength - String.length s) +:+ s.

(** [formatTime]; the remainder [%] of two integers is [Z.rem], exact on
    doubles.  [None] when [Math.floor] meets NaN or an infinity. *)
Definition formatTime (ms : Z) : option string :=
  totalSeconds ← Math_floor (JS.fdiv (JS.ofZ ms) (JS.ofZ 1000));
  hours ← Math_floor (JS.fdiv (JS.ofZ totalSeconds) (JS.ofZ 3600));
  minutes ← Math_floor (JS.fdiv (JS.ofZ (Z.rem totalSeconds 3600)) (JS.ofZ 60));
  let seconds := Z.rem totalSeconds 60 in
  Some (padStart0 2 (String_ofInt hours) +:+ ":"
        +:+ padStart0 2 (String_ofInt minutes) +:+ ":"
        +:+ padStart0 2 (String_ofInt seconds)).

(** The value of a decimal digit. *)
Definition digitValue (c : ascii) : Z := Z.of_nat (nat_of_ascii c) - 48.

(** Reading a clock text back (no function of the source: it serves to
    state what the text determines): the fields are numbers in radix 10
    and each colon multiplies what came before by 60. *)
Fixpoint readClock (total field : Z) (s : string) : Z :=
  match s with
  | EmptyString => total + field
  | String c r =>
      if Ascii.eqb c ":" then readClock ((total + field) * 60) 0 r
      else readClock total (field * 10 + digitValue c) r
  end.

End Display.

(** ** Buttons of [src/app/page.tsx] outside the task list *)

Module Controls.
Import Switchboard.

Definition QUICK_TASKS : list string := ["Meeting"; "Admin"; "Email"].

(** [tasks.find((t) => t.name.toLowerCase() === name.toLowerCase())] of a
    quick-switch button. *)
Definition existing (s : EngineState) (name0 : string) : option Task :=
  find (λ t, String.eqb (JS.toLowerCase (name t)) (JS.toLowerCase name0)) (tasks s).

(** [existing?.id === activeTaskId && !!activeTaskId] *)
Definition quickIsActive (s : EngineState) (name0 : string) : bool :=
  match existing s name0 with
  | Some t => bool_decide (Some (id t) = activeTaskId s) && JS.truthyOpt (activeTaskId s)
  | None => false
  end.

(** The click handler of a quick-switch button; [addTask(name)] leaves
    [isDevOps] at its default. *)
Definition quickSwitch (s : EngineState) (now : Z) (random36 : string)
    (name0 : string) : list update :=
  match existing s name0 with
  | Some t => toggleTask s (id t)
  | None => addTask s now random36 name0 false
  end.

(** The reference cell is empty exactly when no interval is alive, and the
    interval is the one of the rendered [activeTaskId]: the state the timer
    effect leaves behind. *)
Definition settled (s : EngineState) : Prop :=
  coherent s ∧ (activeStartRef s = None ↔ interval s = None).

(** Every name is non-empty and trimmed, and no two are equal up to
    case. *)
Definition wellNamed (ts : list Task) : Prop :=
  uniqueNames ts ∧ Forall (λ t, name t ≠ "" ∧ JS.trim (name t) = name t) ts.

(** How many tasks carry the id [x]. *)
Definition countId (x : string) (ts : list Task) : Z :=
  Z.of_nat (length (filter (λ t, id t = x) ts)).

End Controls.

(** ** Writing through the hook of [src/lib/useLocalStorage.ts] *)

Module PersistentWrite.
Import PersistentStore.

Section Write.

(** [JSON.stringify] on the values the hook holds. *)
Variable JSON_stringify : json → string.

(** Whether the storage takes [text] under [key]; when it does not
    (quota), [setItem] raises. *)
Variable accepts : gmap string string → string → string → bool.

(** [localStorage.setItem(key, text)]: [None] when the call raises. *)
Definition setItem (ls : localStorage) (key text : string) : option localStorage :=
  match ls with
  | Blocked => None
  | Items m => if accepts m key text then Some (Items (<[key := text]> m)) else None
  end.

(** The argument of the setter: a value, or a function of the previous
    value. *)
Inductive action :=
| Value (v : json)
| Updater (f : json → json).

Record written := mkWritten {
  cell : hook;
  env_after : environment;
  warned : bool (* [console.warn] was called *)
}.

(** [setValue]: the state cell always takes the next value; the write to
    the storage is attempted and a failure is only logged. *)
Definition setValue (env : environment) (key : string) (value : action) (h : hook)
    : written :=
  let nextValue :=
    match value with
    | Updater f => f (storedValue h)
    | Value v => v
    end in
  match env with
  | Server => mkWritten (mkHook nextValue) env true
  | Browser ls =>
      match setItem ls key (JSON_stringify nextValue) with
      | Some ls' => mkWritten (mkHook nextValue) (Browser ls') false
      | None => mkWritten (mkHook nextValue) env true (* catch *)
      end
  end.

End Write.

(** [JSON.stringify] on the three keyword values, the only ones the
    examples write. *)
Definition JSON_stringify_keyword (v : json) : string :=
  match v with
  | JBool true => "true"
  | JBool false => "false"
  | _ => "null"
  end.

End PersistentWrite.

(** ** Settings of the revised component *)

Module OledSettings.
Import SwitchboardOled.










(** The quick-task editor: the persisted list and the text fields. *)
Record Editor := mkEditor {
  quickTasks : list string;
  quickTaskInputs : list string;
  editingQuickTasks : bool
}.

Definition handleStartEditingQuickTasks (e : Editor) : Editor :=
  mkEditor (quickTasks e) (quickTasks e) true.

(** [quickTaskInputs.map(trim).filter(nonempty).slice(0, 6)] *)
Definition validTasks (inputs : list string) : list string :=
  take 6 (filter (λ t, (0 < String.length t)%nat) (JS.trim <$> inputs)).

(** A name as the editor saves it: non-empty and trimmed. *)
Definition validName (n : string) : Prop := n ≠ "" ∧ JS.trim n = n.

Definition handleSaveQuickTasks (e : Editor) : Editor :=
  mkEditor (if bool_decide (0 < length (validTasks (quickTaskInputs e)))%nat
            then validTasks (quickTaskInputs e)
            else DEFAULT_QUICK_TASKS)
           (quickTaskInputs e) false.

Definition handleCancelEditingQuickTasks (e : Editor) : Editor :=
  mkEditor (quickTasks e) (quickTasks e) false.

Definition handleAddQuickTaskInput (e : Editor) : Editor :=
  if bool_decide (length (quickTaskInputs e) < 6)%nat
  then mkEditor (quickTasks e) (quickTaskInputs e ++ [""]) (editingQuickTasks e)
  else e.

(** [prev.filter((_, i) => i !== index)], the positions counted from
    [i]. *)
Fixpoint filterIndex (i index : nat) (prev : list string) : list string :=
  match prev with
  | [] => []
  | x :: prev' =>
      if bool_decide (i ≠ index) then x :: filterIndex (S i) index prev'
      else filterIndex (S i) index prev'
  end.

Definition handleRemoveQuickTaskInput (index : nat) (e : Editor) : Editor :=
  mkEditor (quickTasks e) (filterIndex 0 index (quickTaskInputs e)) (editingQuickTasks e).

Inductive edit :=
| AddInput
| RemoveInput (index : nat).

Definition applyEdit (e : Editor) (ed : edit) : Editor :=
  match ed with
  | AddInput => handleAddQuickTaskInput e
  | RemoveInput index => handleRemoveQuickTaskInput index e
  end.

End OledSettings.

(** ** The component on top of its two hooks *)

Module PersistedSession.
Import Switchboard PersistentStore PersistentWrite.

(** A task as the value [JSON.stringify] sees, and a value of that shape
    read as a task. *)
Definition taskJson (t : Task) : json :=
  JObj [("id", JStr (id t)); ("name", JStr (name t));
        ("elapsed", JNum (elapsed t)); ("isDevOps", JBool (isDevOps t))].

Definition jsonTask (j : json) : option Task :=
  match j with
  | JObj [(k1, JStr id0); (k2, JStr name0); (k3, JNum elapsed0); (k4, JBool isDevOps0)] =>
      if String.eqb k1 "id" && String.eqb k2 "name" && String.eqb k3 "elapsed"
         && String.eqb k4 "isDevOps"
      then Some (mkTask id0 name0 elapsed0 isDevOps0)
      else None
  | _ => None
  end.

Definition tasksJson (ts : list Task) : json := JArr (taskJson <$> ts).

(** [None]: the value is not of the shape [Task[]]. *)
Definition jsonTasks (j : json) : option (list Task) :=
  match j with
  | JArr items => mapM jsonTask items
  | _ => None
  end.

Definition activeJson (a : option string) : json :=
  match a with
  | Some x => JStr x
  | None => JNull
  end.

(** [None]: the value is not of the shape [string | null]. *)
Definition jsonActive (j : json) : option (option string) :=
  match j with
  | JStr x => Some (Some x)
  | JNull => Some None
  | _ => None
  end.

Section Session.

Variable JSON_parse : string → option json.
Variable JSON_stringify : json → string.
Variable accepts : gmap string string → string → string → bool.

(** One setter call, as the call of [setValue] of the hook it belongs to:
    [setTasks] and [setActiveTaskId] are the setters of the hooks on
    "switchboard-tasks" and "switchboard-active", whose cells hold the
    values the component renders.  An updater applied to a value that is
    not of the shape [Task[]] raises in the source; the cell of a session
    holds task lists only, and the branch that returns [prev] stands for
    that case. *)
Definition write (env : environment) (s : EngineState) (u : update) : written :=
  match u with
  | SetActiveTaskId v =>
      setValue JSON_stringify accepts env "switchboard-active"
               (Value (activeJson v)) (mkHook (activeJson (activeTaskId s)))
  | SetTasks f =>
      setValue JSON_stringify accepts env "switchboard-tasks"
               (Updater (λ prev, match jsonTasks prev with
                                 | Some ts => tasksJson (f ts)
                                 | None => prev
                                 end))
               (mkHook (tasksJson (tasks s)))
  end.

(** The store after the setter calls of a batch, issued from [s]. *)
Fixpoint writeAll (batch : list update) (s : EngineState) (env : environment)
    : environment :=
  match batch with
  | [] => env
  | u :: batch' => writeAll batch' (applyUpdate s u) (env_after (write env s u))
  end.

(** The setter call of one firing of the interval. *)
Definition tickBatch (now : Z) (s : EngineState) : list update :=
  match interval s with
  | None => []
  | Some activeId =>
      [SetTasks (fmap (credit activeId (now - default now (activeStartRef s))))]
  end.

(** The setter calls of one event. *)
Definition batchOf (s : EngineState) (ev : Z * command) : list update :=
  match ev.2 with
  | Tick => tickBatch ev.1 s
  | c => handler s ev.1 c
  end.

(** One event, on the component and on the store. *)
Definition persistedStep (se : EngineState * environment) (ev : Z * command)
    : EngineState * environment :=
  (step se.1 ev, writeAll (batchOf se.1 ev) se.1 se.2).

Definition persistedRun (evs : list (Z * command)) (se : EngineState * environment)
    : EngineState * environment :=
  foldl persistedStep se evs.

(** The hydrated render of a session that starts in [env]; [None] when a
    stored value does not have the shape the component casts it to. *)
Definition reload (env : environment) (now : Z) : option EngineState :=
  storedTasks ← jsonTasks (observed JSON_parse env true "switchboard-tasks" (JArr []));
  storedActive ← jsonActive (observed JSON_parse env true "switchboard-active" JNull);
  Some (startup now storedTasks storedActive).

(** The store holds what the component renders. *)
Definition synced (s : EngineState) (env : environment) : Prop :=
  observed JSON_parse env true "switchboard-tasks" (JArr []) = tasksJson (tasks s)
  ∧ observed JSON_parse env true "switchboard-active" JNull = activeJson (activeTaskId s).

End Session.

(** A stand-in for [JSON.stringify] and [JSON.parse] on the two shapes the
    component stores, for running examples: the text is a letter for the
    shape followed by the binary digits of a code of the value. *)
Fixpoint binary (p : positive) : string :=
  match p with
  | xH => ""
  | xO p' => String "0" (binary p')
  | xI p' => String "1" (binary p')
  end.

Fixpoint unbinary (s : string) : positive :=
  match s with
  | String "1" r => xI (unbinary r)
  | String _ r => xO (unbinary r)
  | EmptyString => xH
  end.

Definition taskTuple (t : Task) : string * string * Z * bool :=
  (id t, name t, elapsed t, isDevOps t).

Definition tupleTask (x : string * string * Z * bool) : Task :=
  mkTask x.1.1.1 x.1.1.2 x.1.2 x.2.

Definition stringify_code (v : json) : string :=
  match jsonTasks v, jsonActive v with
  | Some ts, _ => String "t" (binary (encode (taskTuple <$> ts)))
  | None, Some a => String "a" (binary (encode a))
  | None, None => "?"
  end.

Definition parse_code (text : string) : option json :=
  match text with
  | String "t" r => (λ l, tasksJson (tupleTask <$> l)) <$> decode (unbinary r)
  | String "a" r => activeJson <$> decode (unbinary r)
  | _ => None
  end.

End PersistedSession.

(** ** The "Copy for Billing" block of [src/app/page.tsx] *)

Module Billing.
Import Switchboard Display.

(** [tasks.filter((t) => t.elapsed > 0)], in the order of the collection. *)
Definition billingRows (ts : list Task) : list Task :=
  filter (λ t, 0 < elapsed t) ts.

(** The text of one row, [{t.name}: {formatTime(t.elapsed)}]. *)
Definition billingLine (t : Task) : option string :=
  time ← formatTime (elapsed t); Some (name t +:+ ": " +:+ time).

Definition billingLines (ts : list Task) : list (option string) :=
  billingLine <$> billingRows ts.

(** [Total: {formatTime(totalTime)}] *)
Definition billingTotal (ts : list Task) : option string :=
  time ← formatTime (totalTime ts); Some ("Total: " +:+ time).

(** The whole seconds the rows show, added up. *)
Fixpoint wholeSeconds (rows : list Task) : Z :=
  match rows with
  | [] => 0
  | t :: rows' => elapsed t / 1000 + wholeSeconds rows'
  end.

(** Three tasks that ran for half a second each. *)
Definition halfSeconds : list Task :=
  [mkTask "a" "A" 500 false; mkTask "b" "B" 500 false; mkTask "c" "C" 500 false].

End Billing.

(** ** The sums of [src/app/page.tsx] on doubles *)

Module Doubles.
Import Switchboard.

(** [x + y] and [x - y] on doubles. *)
Definition fadd (x y : spec_float) : spec_float := SFadd JS.prec JS.emax x y.
Definition fsub (x y : spec_float) : spec_float := SFsub JS.prec JS.emax x y.

(** [now - (activeStartRef.current ?? now)] of the interval callback. *)
Definition deltaDouble (now : Z) (activeStartRef0 : option Z) : spec_float :=
  fsub (JS.ofZ now) (JS.ofZ (default now activeStartRef0)).

(** [t.elapsed + delta] of the interval callback. *)
Definition creditDouble (delta : spec_float) (t : Task) : spec_float :=
  fadd (JS.ofZ (elapsed t)) delta.

(** [tasks.reduce((sum, t) => sum + t.elapsed, 0)] *)
Definition totalTimeDouble (ts : list Task) : spec_float :=
  foldl (λ sum t, fadd sum (JS.ofZ (elapsed t))) (JS.ofZ 0) ts.

(** [totalTime > 0] on a double. *)
Definition isPositive (x : spec_float) : bool :=
  match x with
  | S754_finite false _ _ | S754_infinity false => true
  | _ => false
  end.

(** The percentage as the summary computes it, from the total on
    doubles. *)
Definition pctDouble (ts : list Task) (task : Task) : option Z :=
  if isPositive (totalTimeDouble ts)
  then JS.Math_round
         (JS.fmul (JS.fdiv (JS.ofZ (elapsed task)) (totalTimeDouble ts)) (JS.ofZ 100))
  else Some 0.

(** An integer of magnitude below 2^53: a double holds it exactly. *)
Definition safe (z : Z) : Prop := - 2 ^ 53 < z < 2 ^ 53.

(** The double of sign [sgn] whose magnitude is the integer [z], for
    [0 < z < 2^53]: the mantissa is [z] shifted to 53 bits. *)
Definition canon (sgn : bool) (z : Z) : spec_float :=
  S754_finite sgn (Z.to_pos (z * 2 ^ (52 - Z.log2 z))) (Z.log2 z - 52).

(** Every time of the collection and every running sum of the [reduce],
    started at [acc], is such an integer. *)
Fixpoint exactFrom (acc : Z) (ts : list Task) : Prop :=
  match ts with
  | [] => True
  | t :: ts' =>
      safe (elapsed t) ∧ safe (acc + elapsed t) ∧ exactFrom (acc + elapsed t) ts'
  end.

Definition exactSums (ts : list Task) : Prop := exactFrom 0 ts.

(** A task at 2^53 ms. *)
Definition ancient : Task := mkTask "a" "A" (2 ^ 53) false.

(** A task at 2^53 ms followed by eight tasks at 1 ms. *)
Definition ancientAndOnes : list Task :=
  ancient :: replicate 8 (mkTask "b" "B" 1 false).

End Doubles.

(** * Properties *)

(** ** Strings *)

Module JSProps.
Import JS.

Lemma truthy_false s : truthy s = false ↔ s = "".
Proof. by destruct s. Qed.

Lemma truthy_true s : truthy s = true ↔ s ≠ "".
Proof. by destruct s. Qed.

Lemma append_cons c s1 s2 : String c s1 +:+ s2 = String c (s1 +:+ s2).
Proof. reflexivity. Qed.

Lemma append_nil s : "" +:+ s = s.
Proof. reflexivity. Qed.

Lemma append_nil_r s : s +:+ "" = s.
Proof. induction s as [|c r IH]; [done|]. by rw append_cons IH. Qed.

Lemma trimStart_fixed s : startsBlack s = true → trimStart s = s.
Proof. destruct s as [|c r]; [done|]. simpl. by destruct (isWhiteSpace c). Qed.

Lemma trimEnd_fixed s : endsBlack s = true → trimEnd s = s.
Proof.
  induction s as [|c r IH]; [done|]. simpl. destruct r as [|c' r'].
  - simpl. by destruct (isWhiteSpace c).
  - intros Hr. by rw IH.
Qed.

Lemma trim_fixed s : startsBlack s = true → endsBlack s = true → trim s = s.
Proof. intros Hs He. unfold trim. by rw trimStart_fixed // trimEnd_fixed. Qed.

(** What [trimStart] removes is white space, and it stops at the first
    code unit that is not. *)
Lemma trimStart_spec s :
  ∃ pre, s = pre +:+ trimStart s ∧ allWhite pre = true
         ∧ (trimStart s = "" ∨ startsBlack (trimStart s) = true).
Proof.
  induction s as [|c r (pre & Heq & Hw & Hb)].
  - exists "". split_and!; [done..|by left].
  - simpl. destruct (isWhiteSpace c) eqn:Hc.
    + exists (String c pre). split_and!; [by rw append_cons -Heq|simpl; by rw Hc|done].
    + exists "". split_and!; [done..|]. right. simpl. by rw Hc.
Qed.

Lemma trimEnd_empty s : trimEnd s = "" → allWhite s = true.
Proof.
  induction s as [|c r IH]; [done|]. simpl. destruct (trimEnd r) eqn:Hr; [|done].
  destruct (isWhiteSpace c); [|done]. intros _. by apply IH.
Qed.

(** What [trimEnd] removes is white space, and what it leaves ends with a
    code unit that is not. *)
Lemma trimEnd_spec s :
  ∃ post, s = trimEnd s +:+ post ∧ allWhite post = true
          ∧ (trimEnd s = "" ∨ endsBlack (trimEnd s) = true).
Proof.
  induction s as [|c r (post & Heq & Hw & Hb)].
  - exists "". split_and!; [done..|by left].
  - simpl. destruct (trimEnd r) as [|c' r'] eqn:Hr.
    + destruct (isWhiteSpace c) eqn:Hc.
      * exists (String c r). split_and!; [done| |by left].
        simpl. rw Hc /=. by apply trimEnd_empty.
      * exists post. rw append_nil in Heq. subst r. rw append_cons append_nil.
        split_and!; [done..|]. right. simpl. by rw Hc.
    + exists post. rw append_cons -Heq. split_and!; [done..|].
      right. by destruct Hb.
Qed.

Lemma trimEnd_startsBlack s : startsBlack s = true → startsBlack (trimEnd s) = true.
Proof.
  destruct s as [|c r]; [done|]. simpl. intros Hc.
  destruct (trimEnd r); [|done]. destruct (isWhiteSpace c) eqn:E; [done|].
  simpl. by rw E.
Qed.

(** [trim] removes white space at both ends and nothing else. *)
Lemma trim_spec s :
  ∃ pre post, s = pre +:+ trim s +:+ post
              ∧ allWhite pre = true ∧ allWhite post = true
              ∧ (trim s = "" ∨ (startsBlack (trim s) = true ∧ endsBlack (trim s) = true)).
Proof.
  destruct (trimStart_spec s) as (pre & Hs & Hpre & Hb).
  destruct (trimEnd_spec (trimStart s)) as (post & He & Hpost & Hb').
  exists pre, post. unfold trim. split_and!; [by rw -He| done..|].
  destruct Hb' as [?|He']; [by left|]. right. split; [|done].
  destruct Hb as [Hb|Hb]; [by rw Hb in He'|]. by apply trimEnd_startsBlack.
Qed.

Lemma trim_idempotent s : trim (trim s) = trim s.
Proof.
  destruct (trim_spec s) as (_ & _ & _ & _ & _ & [->|[Hs He]]); [done|].
  by apply trim_fixed.
Qed.

Lemma isDigit_black c : isDigit c = true → isWhiteSpace c = false.
Proof.
  unfold isDigit, isWhiteSpace. generalize (nat_of_ascii c). intros n Hd.
  apply andb_true_iff in Hd as [H1%Nat.leb_le H2%Nat.leb_le].
  apply orb_false_iff; split; [apply orb_false_iff; split|].
  - apply andb_false_iff. right. apply Nat.leb_gt. lia.
  - apply Nat.eqb_neq. lia.
  - apply Nat.eqb_neq. lia.
Qed.

Lemma allDigits_endsBlack r : ∀ c,
  isDigit c = true → allDigits r = true → endsBlack (String c r) = true.
Proof.
  induction r as [|c' r IH]; intros c Hc Hr.
  - simpl. by rw isDigit_black.
  - simpl in Hr. apply andb_true_iff in Hr as [Hc' Hr].
    change (endsBlack (String c' r) = true). by apply IH.
Qed.

Lemma digits1_cons d :
  digits1 d = true → ∃ c r, d = String c r ∧ isDigit c = true ∧ allDigits r = true.
Proof.
  destruct d as [|c r]; [done|]. unfold digits1; simpl.
  intros [Hc Hr]%andb_true_iff. by exists c, r.
Qed.

Lemma digits1_endsBlack d : digits1 d = true → endsBlack d = true.
Proof.
  intros (c & r & -> & Hc & Hr)%digits1_cons. by apply allDigits_endsBlack.
Qed.

Lemma endsBlack_append s d : endsBlack d = true → endsBlack (s +:+ d) = true.
Proof.
  intros Hd. induction s as [|c r IH]; [done|]. rw append_cons.
  by destruct (r +:+ d).
Qed.

(** The prefixed name of a work item is left alone by [trim]. *)
Lemma trim_workItem_name d : digits1 d = true → trim ("WI #" +:+ d) = "WI #" +:+ d.
Proof.
  intros Hd. apply trim_fixed; [done|].
  by apply endsBlack_append, digits1_endsBlack.
Qed.

Lemma test_workItem_cons c r :
  test_workItem (String c r)
  = if bool_decide (c = "#"%char)
    then digits1 r || digits1 (String c r)
    else digits1 (String c r).
Proof.
  case_bool_decide as Hc; [by subst c|].
  destruct c as [[] [] [] [] [] [] [] []]; try reflexivity. by destruct Hc.
Qed.

Lemma replace_leadingHash_cons c r :
  replace_leadingHash (String c r) = if bool_decide (c = "#"%char) then r else String c r.
Proof.
  case_bool_decide as Hc; [by subst c|].
  destruct c as [[] [] [] [] [] [] [] []]; try reflexivity. by destruct Hc.
Qed.

Lemma digits1_no_hash d : digits1 ("#" +:+ d) = false.
Proof. reflexivity. Qed.

(** The strings [/^#?\d+$/] accepts. *)
Lemma test_workItem_spec t :
  test_workItem t = true
  ↔ ∃ d, digits1 d = true ∧ (t = d ∨ t = "#" +:+ d).
Proof.
  split.
  - destruct t as [|c r]; [done|]. rw test_workItem_cons.
    case_bool_decide as Hc.
    + subst c. change (String "#" r) with ("#" +:+ r). rw digits1_no_hash orb_false_r.
      intros Hr. exists r. by split; [|right].
    + intros Ht. exists (String c r). by split; [|left].
  - intros (d & Hd & [->| ->]).
    + pose proof Hd as (c & r & -> & Hc & Hr)%digits1_cons.
      rw test_workItem_cons. case_bool_decide; [by subst c|done].
    + change ("#" +:+ d) with (String "#" d). rw test_workItem_cons.
      rw bool_decide_eq_true_2 //. by rw Hd.
Qed.

Lemma replace_leadingHash_spec d :
  digits1 d = true →
  replace_leadingHash d = d ∧ replace_leadingHash ("#" +:+ d) = d.
Proof.
  intros (c & r & -> & Hc & Hr)%digits1_cons. split; [|done].
  rw replace_leadingHash_cons. case_bool_decide; [by subst c|done].
Qed.

Example primitives_run :
  trim "  Meeting " = "Meeting"
  ∧ trim "   " = ""
  ∧ toLowerCase "MeetING 42" = "meeting 42"
  ∧ test_workItem "#123" = true ∧ test_workItem "007" = true
  ∧ test_workItem "#" = false ∧ test_workItem "12a" = false ∧ test_workItem "##1" = false
  ∧ replace_leadingHash "#123" = "123"
  ∧ toString36 35 = "z" ∧ toString36 36 = "10" ∧ toString36 1772150400000 = "mm44lc00"
  ∧ slice_2_7 "0.abcdefgh" = "abcde" ∧ slice_2_7 "0.i" = "i".
Proof. repeat split. Qed.

End JSProps.

(** ** Double-precision arithmetic *)

Module FloatProps.
Import JS.

Lemma digits2_pos_size p : digits2_pos p = Pos.size p.
Proof. induction p as [p IH|p IH|]; simpl; by rw ?IH. Qed.

Lemma digits2_bounds p :
  2 ^ (Z.pos (digits2_pos p) - 1) ≤ Z.pos p < 2 ^ Z.pos (digits2_pos p).
Proof.
  rw digits2_pos_size. split.
  - pose proof (Pos.size_le p) as H.
    assert (H' : 2 ^ Z.pos (Pos.size p) ≤ 2 * Z.pos p).
    { change 2 with (Z.pos 2) at 1. rw -Pos2Z.inj_pow. lia. }
    replace (Z.pos (Pos.size p)) with (Z.succ (Z.pos (Pos.size p) - 1)) in H' by lia.
    rw Z.pow_succ_r in H'; lia.
  - pose proof (Pos.size_gt p) as H.
    change 2 with (Z.pos 2) at 1. rw -Pos2Z.inj_pow. lia.
Qed.

Lemma loc_of_shr_record_of_loc m l :
  loc_of_shr_record (shr_record_of_loc m l) = l.
Proof. by destruct l as [|[]]. Qed.

Lemma shr_m_record_of_loc m l : shr_m (shr_record_of_loc m l) = m.
Proof. by destruct l as [|[]]. Qed.

Lemma represents_of_loc m l A B :
  0 ≤ A → 0 < B → m = A / B → l = locationOf (A mod B) B →
  represents (shr_record_of_loc m l) A B.
Proof.
  intros HA HB -> ->. split_and!; [done..| |].
  - apply shr_m_record_of_loc.
  - apply loc_of_shr_record_of_loc.
Qed.

Lemma shr_1_represents mrs A B :
  represents mrs A B → represents (shr_1 mrs) A (2 * B).
Proof.
  intros (HA & HB & Hm & Hl). destruct mrs as [m r s]; simpl in Hm, Hl.
  pose proof (Z.div_mod A B ltac:(lia)) as Hdm.
  pose proof (Z.mod_pos_bound A B HB) as Hrho.
  pose proof (Z.div_pos A B HA HB) as Hq.
  set (rho := A mod B) in *. set (q := A / B) in *.
  assert (Hsticky : orb r s = negb (rho =? 0)).
  { unfold locationOf in Hl. destruct (rho =? 0); destruct r, s; simpl in *; congruence. }
  assert (Hcase : ∀ q' b, (b = 0 ∨ b = 1) → q = 2 * q' + b →
            A / (2 * B) = q' ∧ A mod (2 * B) = b * B + rho).
  { intros q' b Hb Hq'.
    assert (HA' : A = (2 * B) * q' + (b * B + rho)) by nia.
    assert (Hb' : 0 ≤ b * B + rho < 2 * B) by nia.
    split; symmetry.
    - by apply (Z.div_unique_pos A (2 * B) q' (b * B + rho)).
    - by apply (Z.mod_unique_pos A (2 * B) q' (b * B + rho)). }
  unfold represents. split_and!; [done|lia|..];
    destruct m as [|[p|p|]|p]; simpl; try lia.
  all: first [ destruct (Hcase 0 0 ltac:(lia) ltac:(lia)) as [Hd Hr]
             | destruct (Hcase 0 1 ltac:(lia) ltac:(lia)) as [Hd Hr]
             | destruct (Hcase (Z.pos p) 0 ltac:(lia) ltac:(lia)) as [Hd Hr]
             | destruct (Hcase (Z.pos p) 1 ltac:(lia) ltac:(lia)) as [Hd Hr] ].
  all: try (by rw Hd).
  all: rw Hr Hsticky; unfold locationOf.
  all: destruct (Z.eqb_spec rho 0) as [H0|H0]; simpl.
  all: try (rw H0; simpl).
  all: repeat match goal with
       | |- context [?x =? 0] => destruct (Z.eqb_spec x 0); try lia
       | |- context [?x ?= ?y] => destruct (Z.compare_spec x y); try lia
       end; try done.
Qed.

Lemma iter_pos_represents p : ∀ mrs A B,
  represents mrs A B → represents (SpecFloat.iter_pos shr_1 p mrs) A (2 ^ Z.pos p * B).
Proof.
  induction p as [p IH|p IH|]; intros mrs A B H; simpl.
  - apply shr_1_represents, IH, IH in H.
    assert (E : 2 ^ Z.pos p~1 = 2 ^ Z.pos p * 2 ^ Z.pos p * 2 ^ 1).
    { rw -!Z.pow_add_r; [lia..|]. f_equal. lia. }
    rw E. by replace (2 ^ Z.pos p * 2 ^ Z.pos p * 2 ^ 1 * B)
      with (2 ^ Z.pos p * (2 ^ Z.pos p * (2 * B))) by lia.
  - apply IH, IH in H.
    assert (E : 2 ^ Z.pos p~0 = 2 ^ Z.pos p * 2 ^ Z.pos p).
    { rw -Z.pow_add_r; [lia..|]. f_equal. lia. }
    rw E. by replace (2 ^ Z.pos p * 2 ^ Z.pos p * B)
      with (2 ^ Z.pos p * (2 ^ Z.pos p * B)) by lia.
  - by apply shr_1_represents.
Qed.

(** Shifting the record by [n >= 0] bits divides by [2 ^ n]. *)
Lemma shr_represents mrs e n A B :
  0 ≤ n → represents mrs A B →
  represents (shr mrs e n).1 A (2 ^ n * B) ∧ (shr mrs e n).2 = e + n.
Proof.
  intros Hn H. destruct n as [|p|p]; [| |lia].
  - simpl. split; [|lia]. by replace (2 ^ 0 * B) with B by lia.
  - unfold shr; simpl. split; [|done]. by apply iter_pos_represents.
Qed.

(** Rounding to the nearest integer, a tie going to the even one. *)
Lemma round_nearest_even_spec mrs A B :
  represents mrs A B →
  let m1 := round_nearest_even (shr_m mrs) (loc_of_shr_record mrs) in
  (m1 = A / B ∨ m1 = A / B + 1)
  ∧ 2 * Z.abs (m1 * B - A) ≤ B
  ∧ (A mod B = 0 → m1 * B = A).
Proof.
  intros (HA & HB & Hm & Hl). simpl. rw Hl Hm.
  pose proof (Z.div_mod A B ltac:(lia)) as Hdm.
  pose proof (Z.mod_pos_bound A B HB) as Hrho.
  set (rho := A mod B) in *. set (q := A / B) in *.
  unfold locationOf. destruct (Z.eqb_spec rho 0) as [H0|H0]; simpl.
  - split_and!; [by left|nia|nia].
  - destruct (Z.compare_spec (2 * rho) B); simpl.
    + destruct (Z.even q); split_and!; [by left|nia|lia|by right|nia|lia].
    + split_and!; [by left|nia|lia].
    + split_and!; [by right|nia|lia].
Qed.

Lemma digits2_unique p k :
  2 ^ (k - 1) ≤ Z.pos p < 2 ^ k → Z.pos (digits2_pos p) = k.
Proof.
  intros [Hlo Hhi]. pose proof (digits2_bounds p) as [Hlo' Hhi'].
  set (d := Z.pos (digits2_pos p)) in *.
  assert (Hk : 0 ≤ k).
  { destruct (Z.le_gt_cases 0 k); [done|]. rw Z.pow_neg_r in Hhi; lia. }
  assert (k - 1 < d).
  { apply (Z.pow_lt_mono_r_iff 2); [lia|unfold d; lia|]. lia. }
  assert (d - 1 < k).
  { apply (Z.pow_lt_mono_r_iff 2); [lia|lia|]. lia. }
  lia.
Qed.

Lemma fexp_normal e : -1074 ≤ e - 53 → fexp prec emax e = e - 53.
Proof. unfold fexp, emin, prec, emax. lia. Qed.

(** What [binary_round_aux] returns on a positive quantity [A / B * 2 ^ ex]
    given by its integer part and location, when the part has 53 bits or more
    and the result is in the normal range: the nearest double. *)
Lemma binary_round_aux_spec sx mx ex lx A B :
  0 ≤ A → 0 < B → Z.pos mx = A / B → lx = locationOf (A mod B) B →
  let d := Z.pos (digits2_pos mx) in
  53 ≤ d → -1074 ≤ ex + d - 53 → ex + d - 52 ≤ 971 →
  ∃ m e, binary_round_aux prec emax sx (Z.pos mx) ex lx = S754_finite sx m e
         ∧ 2 ^ 52 ≤ Z.pos m < 2 ^ 53
         ∧ d - 53 ≤ e - ex ≤ d - 52
         ∧ 2 * Z.abs (Z.pos m * 2 ^ (e - ex) * B - A) ≤ 2 ^ (e - ex) * B
         ∧ (A mod (2 ^ (d - 53) * B) = 0 → Z.pos m * 2 ^ (e - ex) * B = A).
Proof.
  intros HA HB Hmx Hlx d Hd Hlo Hhi.
  pose proof (digits2_bounds mx) as Hbits. fold d in Hbits.
  set (n := d - 53). assert (Hn : 0 ≤ n) by lia.
  assert (Hpn : 0 < 2 ^ n) by (apply Z.pow_pos_nonneg; lia).
  unfold binary_round_aux, shr_fexp.
  change (Zdigits2 (Z.pos mx)) with d.
  rw (fexp_normal (d + ex)); [lia|]. replace (d + ex - 53 - ex) with n by lia.
  pose proof (represents_of_loc (Z.pos mx) lx A B HA HB Hmx Hlx) as Hrep.
  destruct (shr_represents _ ex n A B Hn Hrep) as [Hrep' He'].
  destruct (shr (shr_record_of_loc (Z.pos mx) lx) ex n) as [mrs' e']; simpl in Hrep', He'.
  subst e'.
  pose proof (round_nearest_even_spec mrs' A (2 ^ n * B) Hrep') as (Hm1 & Hnear & Hexact).
  simpl in Hm1, Hnear, Hexact.
  set (m1 := round_nearest_even (shr_m mrs') (loc_of_shr_record mrs')) in *.
  assert (Hm' : 2 ^ 52 ≤ A / (2 ^ n * B) < 2 ^ 53).
  { rw (Z.mul_comm (2 ^ n) B) -Z.div_div; [lia..|]. rw -Hmx.
    assert (E1 : 2 ^ (d - 1) = 2 ^ 52 * 2 ^ n)
      by (rw -Z.pow_add_r; [lia..|]; f_equal; lia).
    assert (E2 : 2 ^ d = 2 ^ 53 * 2 ^ n)
      by (rw -Z.pow_add_r; [lia..|]; f_equal; lia).
    split.
    - apply Z.div_le_lower_bound; lia.
    - apply Z.div_lt_upper_bound; lia. }
  destruct (Z.eq_dec m1 (2 ^ 53)) as [Hcarry|Hnocarry].
  - (* the mantissa was rounded up to 2^53 *)
    rw Hcarry. change (Zdigits2 (2 ^ 53)) with 54.
    rw (fexp_normal (54 + (ex + n))); [lia|].
    replace (54 + (ex + n) - 53 - (ex + n)) with 1 by lia.
    change (shr (shr_record_of_loc (2 ^ 53) loc_Exact) (ex + n) 1)
      with ({| shr_m := 2 ^ 52; shr_r := false; shr_s := false |}, ex + n + 1).
    cbn [shr_m]. change (2 ^ 52) with (Z.pos (2 ^ 52)).
    rw (proj2 (Z.leb_le (ex + n + 1) (emax - prec))); [unfold emax, prec; lia|].
    eexists _, _. split; [reflexivity|].
    replace (ex + n + 1 - ex) with (n + 1) by lia.
    assert (E : 2 ^ (n + 1) = 2 * 2 ^ n) by (rw Z.pow_add_r; lia).
    rw E. split_and!; first [done|lia].
  - assert (Hm1b : 2 ^ 52 ≤ m1 < 2 ^ 53) by lia.
    destruct m1 as [|pm1|pm1] eqn:Epm; [lia| |lia].
    change (Zdigits2 (Z.pos pm1)) with (Z.pos (digits2_pos pm1)).
    rw (digits2_unique pm1 53); [done|].
    rw (fexp_normal (53 + (ex + n))); [lia|].
    replace (53 + (ex + n) - 53 - (ex + n)) with 0 by lia.
    cbn [shr shr_record_of_loc shr_m].
    rw (proj2 (Z.leb_le (ex + n) (emax - prec))); [unfold emax, prec; lia|].
    eexists _, _. split; [reflexivity|].
    replace (ex + n - ex) with n by lia.
    split_and!; lia.
Qed.

Lemma Pos_iter_xO p k : Z.pos (Pos.iter xO p k) = Z.pos p * 2 ^ Z.pos k.
Proof.
  induction k as [|k IH] using Pos.peano_ind.
  - simpl. lia.
  - rw Pos.iter_succ Pos2Z.inj_xO IH Pos2Z.inj_succ Z.pow_succ_r; lia.
Qed.

Lemma locationOf_exact A : locationOf (A mod 1) 1 = loc_Exact.
Proof. by rw Z.mod_1_r. Qed.

(** A positive integer below 2^53 is a double: [ofZ] is exact. *)
Lemma ofZ_exact z :
  0 < z < 2 ^ 53 →
  ∃ m e, ofZ z = S754_finite false m e
         ∧ 2 ^ 52 ≤ Z.pos m < 2 ^ 53 ∧ -52 ≤ e ≤ 0
         ∧ Z.pos m = z * 2 ^ (- e)
         ∧ 2 ^ (52 + e) ≤ z < 2 ^ (53 + e).
Proof.
  intros [Hpos Hlt]. destruct z as [|p|p]; [lia| |lia].
  pose proof (digits2_bounds p) as Hbits.
  set (d := Z.pos (digits2_pos p)) in *.
  assert (Hd : 1 ≤ d ≤ 53).
  { split; [unfold d; lia|].
    destruct (Z.le_gt_cases d 53); [done|].
    assert (2 ^ 53 ≤ 2 ^ (d - 1)) by (apply Z.pow_le_mono_r; lia). lia. }
  unfold ofZ, binary_normalize, binary_round. fold d.
  rw (fexp_normal (d + 0)); [lia|].
  assert (Hal : ∃ mz, shl_align p 0 (d + 0 - 53) = (mz, d - 53)
                      ∧ Z.pos mz = Z.pos p * 2 ^ (53 - d)).
  { unfold shl_align. destruct (d + 0 - 53 - 0) as [|k|k] eqn:Hk; [|lia|].
    - exists p. replace (d - 53) with 0 by lia. split; [done|].
      replace (53 - d) with 0 by lia. lia.
    - exists (Pos.iter xO p k). split; [f_equal; lia|].
      rw Pos_iter_xO. f_equal. f_equal. lia. }
  destruct Hal as (mz & -> & Hmz).
  assert (Hmzb : 2 ^ 52 ≤ Z.pos mz < 2 ^ 53).
  { rw Hmz.
    assert (E1 : 2 ^ 52 = 2 ^ (d - 1) * 2 ^ (53 - d))
      by (rw -Z.pow_add_r; [lia..|]; f_equal; lia).
    assert (E2 : 2 ^ 53 = 2 ^ d * 2 ^ (53 - d))
      by (rw -Z.pow_add_r; [lia..|]; f_equal; lia).
    assert (0 < 2 ^ (53 - d)) by (apply Z.pow_pos_nonneg; lia).
    rw E1 E2. nia. }
  pose proof (digits2_unique mz 53 Hmzb) as Hdz.
  destruct (binary_round_aux_spec false mz (d - 53) loc_Exact (Z.pos mz) 1)
    as (m & e & -> & Hm & He & _ & Hex);
    [lia|lia|by rw Z.div_1_r|by rw locationOf_exact|lia..|].
  rw Hdz in He, Hex. change (2 ^ (53 - 53)) with 1 in Hex.
  rw Z.mod_1_r in Hex. specialize (Hex eq_refl).
  assert (He0 : e - (d - 53) = 0).
  { destruct (Z.eq_dec (e - (d - 53)) 0) as [|Hne]; [done|].
    replace (e - (d - 53)) with 1 in Hex by lia. lia. }
  rw He0 in Hex. exists m, e. split; [done|].
  replace (- e) with (53 - d) by lia. replace (52 + e) with (d - 1) by lia.
  replace (53 + e) with d by lia.
  split_and!; lia.
Qed.

Lemma new_location_locationOf nb k :
  0 < nb → 0 ≤ k < nb → new_location nb k = locationOf k nb.
Proof.
  intros Hnb Hk. unfold new_location, new_location_even, new_location_odd, locationOf.
  destruct (Z.even nb) eqn:Hev; [done|].
  destruct (k =? 0); [done|]. f_equal.
  assert (Hodd : Z.odd nb = true) by (by rw -Z.negb_even Hev).
  apply Z.odd_spec in Hodd as [h Hh].
  destruct (Z.compare_spec (2 * k + 1) nb), (Z.compare_spec (2 * k) nb); try done; lia.
Qed.

(** The product of two positive normal doubles, in the normal range, is the
    double nearest to the exact product. *)
Lemma fmul_spec mx ex my ey :
  2 ^ 52 ≤ Z.pos mx < 2 ^ 53 → 2 ^ 52 ≤ Z.pos my < 2 ^ 53 →
  -1074 ≤ ex + ey + 52 → ex + ey + 54 ≤ 971 →
  ∃ m e, fmul (S754_finite false mx ex) (S754_finite false my ey)
         = S754_finite false m e
         ∧ 2 ^ 52 ≤ Z.pos m < 2 ^ 53
         ∧ 52 ≤ e - (ex + ey) ≤ 54
         ∧ 2 * Z.abs (Z.pos m * 2 ^ (e - (ex + ey)) - Z.pos mx * Z.pos my)
           ≤ 2 ^ (e - (ex + ey)).
Proof.
  intros Hmx Hmy Hlo Hhi. unfold fmul, SFmul. simpl xorb.
  assert (Hprod : 2 ^ 104 ≤ Z.pos (mx * my) < 2 ^ 106).
  { rw Pos2Z.inj_mul. change (2 ^ 104) with (2 ^ 52 * 2 ^ 52).
    change (2 ^ 106) with (2 ^ 53 * 2 ^ 53). nia. }
  pose proof (digits2_bounds (mx * my)) as Hbits.
  set (d := Z.pos (digits2_pos (mx * my))) in *.
  assert (Hd : 105 ≤ d ≤ 106).
  { split.
    - destruct (Z.le_gt_cases 105 d); [done|].
      assert (2 ^ d ≤ 2 ^ 104) by (apply Z.pow_le_mono_r; lia). lia.
    - destruct (Z.le_gt_cases d 106); [done|].
      assert (2 ^ 106 ≤ 2 ^ (d - 1)) by (apply Z.pow_le_mono_r; lia). lia. }
  destruct (binary_round_aux_spec false (mx * my) (ex + ey) loc_Exact
              (Z.pos (mx * my)) 1)
    as (m & e & -> & Hm & He & Hnear & _);
    [lia|lia|by rw Z.div_1_r|by rw locationOf_exact|fold d; lia..|].
  fold d in He. exists m, e. split; [done|].
  rw Pos2Z.inj_mul in Hnear. split_and!; lia.
Qed.

(** The quotient of two positive normal doubles, in the normal range, is the
    double nearest to the exact quotient. *)
Lemma fdiv_spec mx ex my ey :
  2 ^ 52 ≤ Z.pos mx < 2 ^ 53 → 2 ^ 52 ≤ Z.pos my < 2 ^ 53 →
  -1074 ≤ ex - ey - 53 → ex - ey ≤ 970 →
  ∃ m e, fdiv (S754_finite false mx ex) (S754_finite false my ey)
         = S754_finite false m e
         ∧ 2 ^ 52 ≤ Z.pos m < 2 ^ 53
         ∧ 0 ≤ e - (ex - ey - 53) ≤ 2
         ∧ 2 * Z.abs (Z.pos m * 2 ^ (e - (ex - ey - 53)) * Z.pos my
                      - Z.pos mx * 2 ^ 53)
           ≤ 2 ^ (e - (ex - ey - 53)) * Z.pos my.
Proof.
  intros Hmx Hmy Hlo Hhi. unfold fdiv, SFdiv, SFdiv_core_binary. simpl xorb.
  change (Zdigits2 (Z.pos mx)) with (Z.pos (digits2_pos mx)).
  change (Zdigits2 (Z.pos my)) with (Z.pos (digits2_pos my)).
  rw (digits2_unique mx 53) // (digits2_unique my 53) //.
  replace (53 + ex - (53 + ey)) with (ex - ey) by lia.
  rw (fexp_normal (ex - ey)) //.
  rw Z.min_l; [lia|]. replace (ex - ey - (ex - ey - 53)) with 53 by lia.
  rw Z.shiftl_mul_pow2; [lia|].
  set (A := Z.pos mx * 2 ^ 53). set (B := Z.pos my).
  assert (HA : 0 ≤ A) by (unfold A; lia). assert (HB : 0 < B) by (unfold B; lia).
  pose proof (Z.div_mod A B ltac:(lia)) as Hdm.
  pose proof (Z.mod_pos_bound A B HB) as Hrho.
  assert (Hq : A / B = (Z.div_eucl A B).1 ∧ A mod B = (Z.div_eucl A B).2).
  { unfold Z.div, Z.modulo. by destruct (Z.div_eucl A B). }
  destruct (Z.div_eucl A B) as [q r]; simpl in Hq. destruct Hq as [Hq Hr].
  rw -Hq -Hr new_location_locationOf //.
  assert (Hqb : 2 ^ 52 ≤ A / B < 2 ^ 54).
  { split.
    - apply Z.div_le_lower_bound; [lia|]. unfold A, B.
      change (2 ^ 53) with (2 * 2 ^ 52) in *. nia.
    - apply Z.div_lt_upper_bound; [lia|]. unfold A, B.
      change (2 ^ 54) with (2 * 2 ^ 53) in *. change (2 ^ 53) with (2 * 2 ^ 52) in *. nia. }
  destruct (A / B) as [|pq|pq] eqn:Epq; [lia| |lia].
  pose proof (digits2_bounds pq) as Hbits.
  set (d := Z.pos (digits2_pos pq)) in *.
  assert (Hd : 53 ≤ d ≤ 54).
  { split.
    - destruct (Z.le_gt_cases 53 d); [done|].
      assert (2 ^ d ≤ 2 ^ 52) by (apply Z.pow_le_mono_r; lia). lia.
    - destruct (Z.le_gt_cases d 54); [done|].
      assert (2 ^ 54 ≤ 2 ^ (d - 1)) by (apply Z.pow_le_mono_r; lia). lia. }
  destruct (binary_round_aux_spec false pq (ex - ey - 53) (locationOf (A mod B) B) A B)
    as (m & e & -> & Hm & He & Hnear & _);
    [done|done|done|done|fold d; lia..|].
  fold d in He. exists m, e. split; [done|]. split_and!; lia.
Qed.

Lemma ofZ_100 : ofZ 100 = S754_finite false (25 * 2 ^ 48) (-46).
Proof. by vm_compute. Qed.

(** The integer arithmetic behind the percentage: a mantissa [mp] over
    [P] that is within 41/32 of a unit of [100 * el / t] rounds like it,
    unless that quotient is half-way between two integers. *)
Lemma round_same el t mp P :
  0 < t → 0 ≤ el → 0 < P → 3 * t < P →
  32 * Z.abs (mp * t - 100 * el * P) ≤ 41 * t →
  (200 * el) mod (2 * t) ≠ t →
  (2 * mp + P) / (2 * P) = (200 * el + t) / (2 * t).
Proof.
  intros Ht Hel HP HPt Herr Htie.
  pose proof (Z.div_mod (200 * el + t) (2 * t) ltac:(lia)) as Hdm.
  pose proof (Z.mod_pos_bound (200 * el + t) (2 * t) ltac:(lia)) as Hr.
  set (N := (200 * el + t) / (2 * t)) in *.
  set (r := (200 * el + t) mod (2 * t)) in *.
  assert (Hr0 : r ≠ 0).
  { intros H0. apply Htie.
    symmetry. apply (Z.mod_unique_pos _ _ (N - 1)); lia. }
  symmetry. apply (Z.div_unique_pos _ _ _ (2 * mp + P - 2 * P * N)); [|lia].
  assert (H1 : (2 * N - 1) * t + 1 ≤ 200 * el) by lia.
  assert (H2 : 200 * el ≤ (2 * N + 1) * t - 1) by lia.
  assert (H3 : (2 * N - 1) * t * P + P ≤ 200 * el * P) by nia.
  assert (H4 : 200 * el * P ≤ (2 * N + 1) * t * P - P) by nia.
  split.
  - (* (2N - 1) P <= 2 mp *)
    assert ((2 * N - 1) * P * t < 2 * mp * t + t); [lia|]. nia.
  - assert (2 * mp * t < (2 * N + 1) * P * t); [lia|]. nia.
Qed.

Lemma cancel_le G x y : 0 < G → G * x ≤ G * y → x ≤ y.
Proof. intros HG H. by apply Z.mul_le_mono_pos_l in H. Qed.

(** The two rounding errors, of the quotient and of the product by 100,
    put together: with [m1 / m2] the operands, [mq / (pn ...)] the rounded
    quotient and [mp / P] the rounded product, all scaled to integers. *)
Lemma percent_error el t m1 m2 mq mp c P pk pn pa pb :
  0 < t → 0 < pk → 0 < pn → 0 < pb → 0 < c →
  m1 = el * pa → m2 = t * pb → c = 100 * 2 ^ 46 →
  P * pk * (pn * pb) = pa * 2 ^ 53 * 2 ^ 46 →
  2 ^ 52 ≤ pk →
  2 * Z.abs (mq * pn * m2 - m1 * 2 ^ 53) ≤ pn * m2 →
  2 * Z.abs (mp * pk - mq * c) ≤ pk →
  32 * Z.abs (mp * t - 100 * el * P) ≤ 41 * t.
Proof.
  intros Ht Hpk Hpn Hpb Hc0 Hm1 Hm2 Hc Hexp Hk52 Hdiv Hmul.
  set (D := mq * pn * m2 - m1 * 2 ^ 53) in *.
  set (U := mq * t * c - 100 * el * P * pk).
  set (V := (mp * pk - mq * c) * t).
  set (X := mp * t - 100 * el * P).
  assert (HGU : (pn * pb) * U = c * D).
  { unfold U, D.
    replace (pn * pb * (mq * t * c - 100 * el * P * pk))
      with (mq * t * c * pn * pb - 100 * el * (P * pk * (pn * pb))) by ring.
    rw Hexp Hm1 Hm2 Hc. ring. }
  assert (HG : 0 < pn * pb) by (by apply Z.mul_pos_pos).
  assert (HU : 2 * Z.abs U ≤ t * c).
  { apply (cancel_le (pn * pb)); [done|].
    replace (pn * pb * (2 * Z.abs U)) with (2 * Z.abs (pn * pb * U))
      by (rw Z.abs_mul (Z.abs_eq (pn * pb)); [lia|ring]).
    rw HGU Z.abs_mul (Z.abs_eq c); [lia|].
    replace (pn * pb * (t * c)) with (c * (pn * m2)) by (rw Hm2; ring).
    replace (2 * (c * Z.abs D)) with (c * (2 * Z.abs D)) by ring.
    apply Z.mul_le_mono_nonneg_l; lia. }
  assert (HV : 2 * Z.abs V ≤ pk * t).
  { unfold V. rw Z.abs_mul (Z.abs_eq t); [lia|].
    replace (2 * (Z.abs (mp * pk - mq * c) * t))
      with (t * (2 * Z.abs (mp * pk - mq * c))) by ring.
    rw (Z.mul_comm pk t). apply Z.mul_le_mono_nonneg_l; lia. }
  assert (HXk : pk * X = V + U) by (unfold X, V, U; ring).
  assert (HX2 : 2 * (pk * Z.abs X) ≤ pk * t + t * c).
  { replace (pk * Z.abs X) with (Z.abs (pk * X))
      by (rw Z.abs_mul (Z.abs_eq pk); [lia|ring]).
    rw HXk. pose proof (Z.abs_triangle V U). lia. }
  assert (H64 : 64 * (t * c) ≤ 100 * (pk * t)).
  { replace (64 * (t * c)) with (t * (64 * c)) by ring.
    replace (100 * (pk * t)) with (t * (100 * pk)) by ring.
    apply Z.mul_le_mono_nonneg_l; [lia|]. rw Hc.
    change (2 ^ 52) with (64 * 2 ^ 46) in Hk52. lia. }
  apply (cancel_le (4 * pk)); [lia|].
  replace (4 * pk * (32 * Z.abs (mp * t - 100 * el * P)))
    with (128 * (pk * Z.abs X)) by (unfold X; ring).
  replace (4 * pk * (41 * t)) with (164 * (pk * t)) by ring.
  lia.
Qed.

(** Off the ties, and for times below 2^43 ms, the double-precision
    percentage is the exact quotient rounded to the nearest integer. *)
Theorem percent_exact_off_ties el t :
  0 ≤ el < 2 ^ 43 → 0 < t < 2 ^ 53 → (200 * el) mod (2 * t) ≠ t →
  Math_round (fmul (fdiv (ofZ el) (ofZ t)) (ofZ 100))
  = Some ((200 * el + t) / (2 * t)).
Proof.
  intros Hel Ht Htie.
  destruct (ofZ_exact t Ht) as (m2 & e2 & -> & Hm2 & He2 & Hm2t & _).
  rw ofZ_100.
  destruct (Z.eq_dec el 0) as [->|Hel0].
  { simpl. f_equal. symmetry. apply Z.div_small. lia. }
  destruct (ofZ_exact el ltac:(lia)) as (m1 & e1 & -> & Hm1 & He1 & Hm1e & Hel').
  assert (He1' : e1 ≤ -10).
  { destruct (Z.le_gt_cases e1 (-10)); [done|].
    assert (2 ^ 43 ≤ 2 ^ (52 + e1)) by (apply Z.pow_le_mono_r; lia). lia. }
  destruct (fdiv_spec m1 e1 m2 e2) as (mq & eq & -> & Hmq & Heq & Hdiv); [done|done|lia|lia|].
  destruct (fmul_spec mq eq (25 * 2 ^ 48) (-46)) as (mp & ep & -> & Hmp & Hep & Hmul);
    [done|done|lia|lia|].
  set (n := eq - (e1 - e2 - 53)) in *. set (k := ep - (eq + -46)) in *.
  set (a := - e1) in *. set (b := - e2) in *.
  assert (Hep' : - ep = a - b + 99 - n - k) by lia.
  unfold Math_round. rw (proj2 (Z.leb_gt 0 ep)); [lia|]. f_equal.
  set (P := 2 ^ (- ep)).
  assert (HP : 0 < P) by (apply Z.pow_pos_nonneg; lia).
  replace (2 ^ (1 - ep)) with (2 * P)
    by (unfold P; rw -(Z.pow_succ_r 2 (- ep)); [lia|f_equal; lia]).
  assert (Hpk : 2 ^ 52 ≤ 2 ^ k) by (apply Z.pow_le_mono_r; lia).
  assert (Hn0 : 0 < 2 ^ n) by (apply Z.pow_pos_nonneg; lia).
  assert (Hb0 : 0 < 2 ^ b) by (apply Z.pow_pos_nonneg; lia).
  assert (Hexp : P * 2 ^ k * (2 ^ n * 2 ^ b) = 2 ^ a * 2 ^ 53 * 2 ^ 46).
  { unfold P. rw -!Z.pow_add_r; [lia..|]. f_equal. lia. }
  assert (HX : 32 * Z.abs (Z.pos mp * t - 100 * el * P) ≤ 41 * t).
  { apply (percent_error el t (Z.pos m1) (Z.pos m2) (Z.pos mq) (Z.pos mp)
             (Z.pos (25 * 2 ^ 48)) P (2 ^ k) (2 ^ n) (2 ^ a) (2 ^ b));
      try done; lia. }
  apply round_same; try lia.
  (* [P] is large, the mantissa having 53 bits *)
  destruct (Z.le_gt_cases P (3 * t)) as [HPle|]; [|done]. exfalso.
  assert (H1 : 2 ^ 52 * t ≤ Z.pos mp * t) by (apply Z.mul_le_mono_nonneg_r; lia).
  assert (H2 : 100 * el * P ≤ 100 * 2 ^ 43 * (3 * t)).
  { apply Z.mul_le_mono_nonneg; lia. }
  lia.
Qed.

End FloatProps.

(** ** Sums of integers on doubles *)

Module DoubleProps.
Import JS Switchboard Doubles FloatProps.

Lemma log2_range z : 0 < z < 2 ^ 53 → 0 ≤ Z.log2 z ≤ 52.
Proof.
  intros [Hpos Hlt]. split; [apply Z.log2_nonneg|].
  destruct (Z.log2_spec z Hpos) as [Hlo _].
  destruct (Z.le_gt_cases (Z.log2 z) 52); [done|].
  assert (2 ^ 53 ≤ 2 ^ Z.log2 z) by (apply Z.pow_le_mono_r; lia). lia.
Qed.

(** Rounding [z * 2^k], given with the exponent [-k], gives the double of
    [z], whatever [k]. *)
Lemma binary_round_integer sx p k z :
  0 < z < 2 ^ 53 → 0 ≤ k ≤ 900 → Z.pos p = z * 2 ^ k →
  binary_round prec emax sx p (- k) = canon sx z.
Proof.
  intros Hz Hk Hp.
  pose proof (log2_range z Hz) as Hl. destruct (Z.log2_spec z ltac:(lia)) as [Hlo Hhi].
  set (l := Z.log2 z) in *.
  assert (Hk0 : 0 < 2 ^ k) by (apply Z.pow_pos_nonneg; lia).
  assert (Hd : Z.pos (digits2_pos p) = l + 1 + k).
  { apply digits2_unique. rw Hp.
    replace (l + 1 + k - 1) with (l + k) by lia.
    rw !Z.pow_add_r; [lia..|]. rw Z.pow_succ_r in Hhi; [lia|]. change (2 ^ 1) with 2. nia. }
  unfold binary_round. rw Hd.
  rw (fexp_normal (l + 1 + k + - k)); [lia|].
  assert (Hal : ∃ mz ez, shl_align p (- k) (l + 1 + k + - k - 53) = (mz, ez)
                         ∧ ((l + 1 + k < 53 ∧ Z.pos mz = Z.pos p * 2 ^ (52 - l - k)
                             ∧ ez = l - 52)
                            ∨ (53 ≤ l + 1 + k ∧ mz = p ∧ ez = - k))).
  { unfold shl_align. destruct (l + 1 + k + - k - 53 - - k) as [|j|j] eqn:Hj.
    - exists p, (- k). split; [done|]. right. lia.
    - exists p, (- k). split; [done|]. right. lia.
    - exists (Pos.iter xO p j), (l + 1 + k + - k - 53). split; [done|]. left.
      split_and!; [lia| |lia]. rw Pos_iter_xO. f_equal. f_equal. lia. }
  destruct Hal as (mz & ez & -> & Hcase).
  assert (Hmzd : ∃ d', Z.pos (digits2_pos mz) = d' ∧ 53 ≤ d' ∧ ez + d' = l + 1
                       ∧ Z.pos mz = z * 2 ^ (52 - l) * 2 ^ (d' - 53)).
  { destruct Hcase as [(Hlt & Hmz & ->)|(Hge & -> & ->)].
    - exists 53. split_and!; [|lia|lia|].
      + assert (Ek : 2 ^ (52 - l) = 2 ^ k * 2 ^ (52 - l - k))
          by (rw -Z.pow_add_r; [lia..|]; f_equal; lia).
        apply digits2_unique. rw Hmz Hp.
        replace (z * 2 ^ k * 2 ^ (52 - l - k)) with (z * 2 ^ (52 - l)) by (rw Ek; ring).
        assert (E1 : 2 ^ (53 - 1) = 2 ^ l * 2 ^ (52 - l))
          by (rw -Z.pow_add_r; [lia..|]; f_equal; lia).
        assert (E2 : 2 ^ 53 = 2 ^ Z.succ l * 2 ^ (52 - l))
          by (rw -Z.pow_add_r; [lia..|]; f_equal; lia).
        assert (0 < 2 ^ (52 - l)) by (apply Z.pow_pos_nonneg; lia).
        rw E1 E2. nia.
      + assert (Ek : 2 ^ (52 - l) = 2 ^ k * 2 ^ (52 - l - k))
          by (rw -Z.pow_add_r; [lia..|]; f_equal; lia).
        rw Hmz Hp Ek. change (2 ^ (53 - 53)) with 1. ring.
    - exists (l + 1 + k). split_and!; [done|lia|lia|].
      rw Hp. replace (l + 1 + k - 53) with (k - (52 - l)) by lia.
      rw -Z.mul_assoc -Z.pow_add_r; [lia..|]. do 2 f_equal. lia. }
  destruct Hmzd as (d' & Hd' & Hd53 & Hez & Hval).
  assert (Hz52 : 2 ^ 52 ≤ z * 2 ^ (52 - l) < 2 ^ 53).
  { assert (E1 : 2 ^ 52 = 2 ^ l * 2 ^ (52 - l))
      by (rw -Z.pow_add_r; [lia..|]; f_equal; lia).
    assert (E2 : 2 ^ 53 = 2 ^ Z.succ l * 2 ^ (52 - l))
      by (rw -Z.pow_add_r; [lia..|]; f_equal; lia).
    assert (0 < 2 ^ (52 - l)) by (apply Z.pow_pos_nonneg; lia).
    rw E1 E2. nia. }
  assert (Hsh : 0 < 2 ^ (d' - 53)) by (apply Z.pow_pos_nonneg; lia).
  destruct (binary_round_aux_spec sx mz ez loc_Exact (Z.pos mz) 1)
    as (m & e & -> & Hm & He & _ & Hex);
    [lia|lia|by rw Z.div_1_r|by rw locationOf_exact|rw Hd'; lia..|].
  rw Hd' in He, Hex. rw Z.mul_1_r in Hex.
  assert (Hmod : Z.pos mz mod 2 ^ (d' - 53) = 0) by (rw Hval; apply Z.mod_mul; lia).
  specialize (Hex Hmod). rw Z.mul_1_r in Hex.
  assert (He0 : e - ez = d' - 53).
  { destruct (Z.eq_dec (e - ez) (d' - 53)) as [|Hne]; [done|]. exfalso.
    replace (e - ez) with (d' - 53 + 1) in Hex by lia.
    rw Z.pow_add_r in Hex; [lia..|]. change (2 ^ 1) with 2 in Hex.
    rw Hval in Hex.
    assert (Z.pos m * 2 = z * 2 ^ (52 - l)) by nia. lia. }
  rw He0 Hval in Hex.
  assert (Hmv : Z.pos m = z * 2 ^ (52 - l)) by nia.
  unfold canon. fold l. rw -Hmv. simpl Z.to_pos. f_equal. lia.
Qed.

Lemma ofZ_canon z :
  z ≠ 0 → safe z → ofZ z = canon (z <? 0) (Z.abs z).
Proof.
  intros Hz0 Hs. unfold safe in Hs. unfold ofZ, binary_normalize.
  destruct z as [|p|p]; [done| |].
  - apply (binary_round_integer false p 0 (Z.pos p)); lia.
  - apply (binary_round_integer true p 0 (Z.pos p)); lia.
Qed.

Lemma shl_align_fst m e e' :
  e' ≤ e → Z.pos (shl_align m e e').1 = Z.pos m * 2 ^ (e - e').
Proof.
  intros He. unfold shl_align. destruct (e' - e) as [|j|j] eqn:Hj; simpl; [|lia|].
  - replace (e - e') with 0 by lia. lia.
  - rw Pos_iter_xO. f_equal. f_equal. lia.
Qed.

Lemma cond_Zopp_abs z : cond_Zopp (z <? 0) (Z.abs z) = z.
Proof. unfold cond_Zopp. destruct (Z.ltb_spec z 0); lia. Qed.

(** The mantissas of two doubles of integers, aligned as [SFadd] and
    [SFsub] align them. *)
Lemma aligned a b :
  a ≠ 0 → b ≠ 0 → safe a → safe b →
  let la := Z.log2 (Z.abs a) in
  let lb := Z.log2 (Z.abs b) in
  let ez := Z.min (la - 52) (lb - 52) in
  0 ≤ - ez ≤ 52
  ∧ cond_Zopp (a <? 0)
      (Z.pos (shl_align (Z.to_pos (Z.abs a * 2 ^ (52 - la))) (la - 52) ez).1)
    = a * 2 ^ (- ez)
  ∧ cond_Zopp (b <? 0)
      (Z.pos (shl_align (Z.to_pos (Z.abs b * 2 ^ (52 - lb))) (lb - 52) ez).1)
    = b * 2 ^ (- ez).
Proof.
  intros Ha0 Hb0 Ha Hb la lb ez. unfold safe in *.
  pose proof (log2_range (Z.abs a) ltac:(lia)) as Hla.
  pose proof (log2_range (Z.abs b) ltac:(lia)) as Hlb.
  fold la in Hla. fold lb in Hlb.
  assert (Hone : ∀ z l, z ≠ 0 → 0 ≤ l ≤ 52 → ez ≤ l - 52 →
            cond_Zopp (z <? 0) (Z.pos (shl_align (Z.to_pos (Z.abs z * 2 ^ (52 - l))) (l - 52) ez).1)
            = z * 2 ^ (- ez)).
  { intros z l Hz Hl Hez. rw shl_align_fst //.
    assert (0 < 2 ^ (52 - l)) by (apply Z.pow_pos_nonneg; lia).
    rw Z2Pos.id; [nia|].
    rw -Z.mul_assoc -Z.pow_add_r; [lia..|]. replace (52 - l + (l - 52 - ez)) with (- ez) by lia.
    unfold cond_Zopp. destruct (Z.ltb_spec z 0); lia. }
  split; [lia|]. split; apply Hone; lia.
Qed.

Lemma binary_normalize_integer z k :
  safe z → 0 ≤ k ≤ 52 →
  binary_normalize prec emax (z * 2 ^ k) (- k) false = ofZ z.
Proof.
  intros Hs Hk. assert (Hk0 : 0 < 2 ^ k) by (apply Z.pow_pos_nonneg; lia).
  destruct (Z.eq_dec z 0) as [->|Hz0]; [done|].
  rw ofZ_canon //. unfold safe in Hs. unfold binary_normalize.
  destruct (z * 2 ^ k) as [|p|p] eqn:E; [nia| |].
  - rw (proj2 (Z.ltb_ge z 0)); [nia|]. apply binary_round_integer; [nia|lia|].
    rw Z.abs_eq; [nia|lia].
  - rw (proj2 (Z.ltb_lt z 0)); [nia|]. apply binary_round_integer; [nia|lia|].
    rw Z.abs_neq; [nia|]. lia.
Qed.

(** Below 2^53 the sum and the difference of two integers on doubles are
    the integers. *)
Lemma fadd_exact a b :
  safe a → safe b → safe (a + b) → fadd (ofZ a) (ofZ b) = ofZ (a + b).
Proof.
  intros Ha Hb Hab.
  destruct (Z.eq_dec a 0) as [->|Ha0].
  { destruct (Z.eq_dec b 0) as [->|Hb0]; [done|]. rw Z.add_0_l. by rw (ofZ_canon b). }
  destruct (Z.eq_dec b 0) as [->|Hb0].
  { rw Z.add_0_r. by rw (ofZ_canon a). }
  rw (ofZ_canon a) // (ofZ_canon b) //. unfold fadd, SFadd, canon.
  destruct (aligned a b Ha0 Hb0 Ha Hb) as (Hez & -> & ->).
  set (ez := Z.min _ _) in *.
  replace ez with (- - ez) at 3 by lia.
  rw -Z.mul_add_distr_r. by apply binary_normalize_integer.
Qed.

Lemma fsub_exact a b :
  safe a → safe b → safe (a - b) → fsub (ofZ a) (ofZ b) = ofZ (a - b).
Proof.
  intros Ha Hb Hab.
  destruct (Z.eq_dec b 0) as [->|Hb0].
  { rw Z.sub_0_r. destruct (Z.eq_dec a 0) as [->|Ha0]; [done|]. by rw (ofZ_canon a). }
  destruct (Z.eq_dec a 0) as [->|Ha0].
  { rw (ofZ_canon b) // (ofZ_canon (0 - b)); [lia|done|].
    unfold fsub, canon. simpl. rw Z.abs_opp. f_equal.
    destruct (Z.ltb_spec b 0), (Z.ltb_spec (- b) 0); done || lia. }
  rw (ofZ_canon a) // (ofZ_canon b) //. unfold fsub, SFsub, canon.
  destruct (aligned a b Ha0 Hb0 Ha Hb) as (Hez & -> & ->).
  set (ez := Z.min _ _) in *.
  replace ez with (- - ez) at 3 by lia.
  rw -Z.mul_sub_distr_r. by apply binary_normalize_integer.
Qed.

Lemma isPositive_ofZ z : safe z → isPositive (ofZ z) = (0 <? z).
Proof.
  intros Hs. destruct (Z.eq_dec z 0) as [->|Hz0]; [done|].
  rw ofZ_canon //. unfold canon, isPositive.
  destruct (Z.ltb_spec z 0), (Z.ltb_spec 0 z); done || lia.
Qed.

Lemma totalTimeDouble_from ts : ∀ acc,
  safe acc → exactFrom acc ts →
  foldl (λ sum t, fadd sum (ofZ (elapsed t))) (ofZ acc) ts = ofZ (acc + sumElapsed ts)
  ∧ safe (acc + sumElapsed ts).
Proof.
  induction ts as [|t ts IH]; intros acc Hacc Hex; simpl.
  { by rw Z.add_0_r. }
  destruct Hex as (Ht & Hsum & Hrest).
  rw fadd_exact // Z.add_assoc. by apply IH.
Qed.

Lemma totalTime_is_sum ts : totalTime ts = sumElapsed ts.
Proof.
  unfold totalTime. change (sumElapsed ts) with (0 + sumElapsed ts).
  generalize 0. induction ts as [|t ts IH]; intros acc; simpl; [lia|]. rw IH. lia.
Qed.

Lemma totalTimeDouble_exact ts :
  exactSums ts → totalTimeDouble ts = ofZ (totalTime ts) ∧ safe (totalTime ts).
Proof.
  intros Hex. rw totalTime_is_sum.
  apply (totalTimeDouble_from ts 0); [unfold safe; lia|done].
Qed.

Lemma pctDouble_exact ts task :
  exactSums ts → pctDouble ts task = pct (totalTime ts) task.
Proof.
  intros Hex. destruct (totalTimeDouble_exact ts Hex) as [E Hs].
  unfold pctDouble, pct. by rw E isPositive_ofZ.
Qed.

Lemma exactFrom_nonneg ts : ∀ acc,
  0 ≤ acc → Forall (λ t, 0 ≤ elapsed t) ts → acc + sumElapsed ts < 2 ^ 53 →
  exactFrom acc ts.
Proof.
  induction ts as [|t ts IH]; intros acc Hacc Hpos Hsum; simpl; [done|].
  apply Forall_cons in Hpos as [Ht Hpos]. simpl in Hsum.
  assert (Hrest : 0 ≤ sumElapsed ts).
  { clear -Hpos. induction Hpos; simpl; lia. }
  unfold safe. split_and!; try lia. apply IH; [lia|done|lia].
Qed.

End DoubleProps.

(** ** The timer engine *)

(** Decides a closed decidable proposition by evaluation. *)
Ltac by_compute := first [exact I | apply (bool_decide_unpack _); vm_compute; exact I].

Module TimerProps.
Import Switchboard Scenarios JSProps.


Lemma commit_SetTasks now f s :
  commit now [SetTasks f] s
  = mkState (f (tasks s)) (activeTaskId s) (activeStartRef s) (interval s).
Proof.
  unfold commit, rerender; simpl. by rw bool_decide_eq_true_2.
Qed.

Lemma commit_nil now s : commit now [] s = s.
Proof. unfold commit, rerender; simpl. by rw bool_decide_eq_true_2. Qed.

Lemma tick_running now s a :
  interval s = Some a →
  tick now s
  = mkState (credit a (now - default now (activeStartRef s)) <$> tasks s)
            (activeTaskId s) (Some now) (Some a).
Proof. intros Hi. unfold tick. rw Hi commit_SetTasks /=. done. Qed.

Lemma tick_idle now s : interval s = None → tick now s = s.
Proof. intros Hi. unfold tick. by rw Hi. Qed.

Lemma credit_id a d t : id (credit a d t) = id t.
Proof. unfold credit. by case_bool_decide. Qed.

Lemma credit_elapsed a d t :
  elapsed (credit a d t) = if bool_decide (id t = a) then elapsed t + d else elapsed t.
Proof. unfold credit. by case_bool_decide. Qed.

Lemma credit_zero a t : credit a 0 t = t.
Proof.
  unfold credit. case_bool_decide; [|done].
  destruct t; simpl. f_equal. lia.
Qed.

Lemma credit_credit a d1 d2 t : credit a d2 (credit a d1 t) = credit a (d1 + d2) t.
Proof.
  unfold credit. destruct (bool_decide (id t = a)) eqn:E; simpl; rw E //.
  f_equal; lia.
Qed.


Lemma rerender_coherent now s0 s :
  coherent (mkState (tasks s) (activeTaskId s0) (activeStartRef s) (interval s)) →
  coherent (rerender now s0 s).
Proof.
  unfold rerender, coherent; simpl. intros Hc. case_bool_decide as Heq.
  - by rw Heq.
  - unfold timerEffect. by destruct (JS.truthyOpt (activeTaskId s)) eqn:E; simpl; rw E.
Qed.

Lemma foldl_applyUpdate_cells batch s :
  activeStartRef (foldl applyUpdate s batch) = activeStartRef s
  ∧ interval (foldl applyUpdate s batch) = interval s.
Proof.
  revert s; induction batch as [|u batch IH]; intros s; [done|].
  simpl. destruct (IH (applyUpdate s u)) as [-> ->]. by destruct u.
Qed.

Lemma commit_coherent now batch s : coherent s → coherent (commit now batch s).
Proof.
  intros Hc. unfold commit. apply rerender_coherent.
  unfold coherent in *; simpl.
  by destruct (foldl_applyUpdate_cells batch s) as [_ ->].
Qed.

Lemma tick_coherent now s : coherent s → coherent (tick now s).
Proof.
  intros Hc. destruct (interval s) as [a|] eqn:Hi.
  - rw (tick_running _ _ a) //. unfold coherent in *; simpl. by rw -Hi.
  - by rw tick_idle.
Qed.



Lemma startup_coherent now storedTasks storedActive :
  coherent (startup now storedTasks storedActive).
Proof. unfold startup. apply rerender_coherent. by unfold coherent. Qed.

Lemma commit_startTask now x s :
  activeTaskId (commit now (startTask x) s) = Some x
  ∧ tasks (commit now (startTask x) s) = tasks s.
Proof.
  unfold commit, rerender, startTask; simpl.
  case_bool_decide; [done|]. unfold timerEffect; simpl. by destruct (JS.truthy x).
Qed.








Example abc_run :
  map activeTaskId (trace abc_events (startup 0 threeTasks None))
  = [None; Some "a"; Some "b"; Some "b"; Some "c"]
  ∧ map elapsed (tasks (run abc_events (startup 0 threeTasks None))) = [0; 1000; 0].
Proof. split; vm_compute; reflexivity. Qed.

(** *** Tick accumulation *)

Lemma ticks_running nows : ∀ s x now0,
  interval s = Some x → activeStartRef s = Some now0 →
  ticks nows s
  = mkState (credit x (default now0 (last nows) - now0) <$> tasks s)
            (activeTaskId s) (Some (default now0 (last nows))) (Some x).
Proof.
  induction nows as [|now nows IH]; intros s x now0 Hi Hr.
  - simpl. rw Z.sub_diag.
    rw (list_fmap_ext (credit x 0) Datatypes.id (tasks s)).
    { intros _ t _. apply credit_zero. }
    rw list_fmap_id. destruct s; simpl in *; congruence.
  - change (ticks (now :: nows) s) with (ticks nows (tick now s)).
    rw (tick_running now s x) // Hr /=.
    rw (IH _ x now) //=. rw -list_fmap_compose.
    f_equal.
    + apply list_fmap_ext. intros _ t _. rw /= credit_credit. f_equal.
      rw last_cons. destruct (last nows); simpl; lia.
    + rw last_cons. by destruct (last nows).
Qed.

Lemma Sorted_lt_last now0 nows :
  Sorted Z.lt (now0 :: nows) → now0 ≤ default now0 (last nows).
Proof.
  revert now0; induction nows as [|now nows IH]; intros now0 Hs; [simpl; lia|].
  apply Sorted_inv in Hs as [Hs Hhd]. apply HdRel_inv in Hhd.
  specialize (IH _ Hs). rw last_cons. destruct (last nows); simpl in *; lia.
Qed.

Lemma Sorted_lt_take_last now0 nows k now :
  Sorted Z.lt (now0 :: nows) → nows !! k = Some now →
  default now0 (last (take k nows)) < now.
Proof.
  revert now0 k; induction nows as [|n nows IH]; intros now0 k Hs Hk; [done|].
  apply Sorted_inv in Hs as [Hs Hhd]. apply HdRel_inv in Hhd.
  destruct k as [|k]; simpl in *.
  - by injection Hk as <-.
  - specialize (IH n k Hs Hk). rw last_cons.
    destruct (last (take k nows)); simpl in *; lia.
Qed.

Lemma Sorted_lt_bounds now0 nows k now :
  Sorted Z.lt (now0 :: nows) → nows !! k = Some now →
  now0 ≤ default now0 (last (take k nows)) ∧ now ≤ default now0 (last nows).
Proof.
  revert now0 k; induction nows as [|n nows IH]; intros now0 k Hs Hk; [done|].
  pose proof Hs as Hs0. apply Sorted_inv in Hs as [Hs Hhd]. apply HdRel_inv in Hhd.
  pose proof (Sorted_lt_last n nows Hs) as Hn.
  destruct k as [|k]; simpl in *.
  - injection Hk as <-. split; [lia|]. rw last_cons. destruct (last nows); simpl in *; lia.
  - destruct (IH n k Hs Hk) as [H1 H2]. rw !last_cons.
    destruct (last (take k nows)), (last nows); simpl in *; lia.
Qed.

(** Below 2^53 the interval callback computes on doubles what [tick]
    computes on integers: the difference of the two readings and the sum
    of a time and that difference are exact. *)
Lemma ticks_on_doubles s x now0 nows k now :
  interval s = Some x → activeStartRef s = Some now0 →
  Sorted Z.lt (now0 :: nows) →
  Doubles.safe now0 → Forall Doubles.safe nows →
  Doubles.safe (default now0 (last nows) - now0) →
  Forall (λ t, id t = x →
               Doubles.safe (elapsed t)
               ∧ Doubles.safe (elapsed t + (default now0 (last nows) - now0)))
         (tasks s) →
  nows !! k = Some now →
  let before := ticks (take k nows) s in
  let lastTick := default now0 (last (take k nows)) in
  Doubles.deltaDouble now (activeStartRef before) = JS.ofZ (now - lastTick)
  ∧ ∀ i t, tasks before !! i = Some t → id t = x →
      Doubles.creditDouble (Doubles.deltaDouble now (activeStartRef before)) t
      = JS.ofZ (elapsed t + (now - lastTick)).
Proof.
  intros Hi Hr Hs Hs0 Hsn Hwall Hts Hk before lastTick.
  pose proof (Sorted_lt_take_last _ _ _ _ Hs Hk) as Hlt. fold lastTick in Hlt.
  destruct (Sorted_lt_bounds _ _ _ _ Hs Hk) as [Hlo Hhi]. fold lastTick in Hlo.
  assert (Hnow : Doubles.safe now).
  { rw Forall_forall in Hsn. apply Hsn. exact (list_elem_of_lookup_2 _ _ _ Hk). }
  assert (Hb : before = mkState (credit x (lastTick - now0) <$> tasks s)
                                (activeTaskId s) (Some lastTick) (Some x))
    by (by apply ticks_running).
  unfold Doubles.safe in *.
  assert (Hd : Doubles.deltaDouble now (activeStartRef before) = JS.ofZ (now - lastTick)).
  { rw Hb. unfold Doubles.deltaDouble. simpl.
    apply DoubleProps.fsub_exact; unfold Doubles.safe; lia. }
  split; [done|]. intros i t Ht Hid. rw Hd. unfold Doubles.creditDouble.
  rw Hb /= list_lookup_fmap in Ht.
  destruct (tasks s !! i) as [t0|] eqn:Ht0; [|done]. injection Ht as <-.
  rw credit_id in Hid. rw Forall_forall in Hts.
  destruct (Hts t0 (list_elem_of_lookup_2 _ _ _ Ht0) Hid) as [H0 H1].
  rw credit_elapsed bool_decide_true //.
  apply DoubleProps.fadd_exact; unfold Doubles.safe; lia.
Qed.

(** At 2^53 ms a firing one millisecond after the previous one leaves the
    time where it was: 2^53 + 1 is no double and the sum rounds back. *)
Lemma tick_lost_at_2_53 :
  elapsed Doubles.ancient = 2 ^ 53
  ∧ Doubles.deltaDouble 1001 (Some 1000) = JS.ofZ 1
  ∧ Doubles.creditDouble (Doubles.deltaDouble 1001 (Some 1000)) Doubles.ancient
    = JS.ofZ (elapsed Doubles.ancient)
  ∧ JS.ofZ (elapsed Doubles.ancient) = S754_finite false (2 ^ 52) 1
  ∧ Doubles.creditDouble (Doubles.deltaDouble 1001 (Some 1000)) Doubles.ancient
    ≠ S754_finite false (2 ^ 52 + 1) 1
  ∧ S754_finite false (2 ^ 52 + 1) 1 = JS.ofZ (2 ^ 53 + 2).
Proof. split_and!; by vm_compute. Qed.

(** C2 — Tick accumulation exactness, for integer readings and times
    below 2^53 ms in magnitude: in Running(x) with last reading [now0],
    along strictly increasing readings every firing adds exactly the time
    since the previous reading to the tasks with id [x], leaves the others
    alone and records its reading; the difference and the sum the callback
    computes on doubles are those integers; no [elapsed] decreases; and
    after all of them the increase is the last reading minus [now0]. *)
Theorem tick_accumulation (s : EngineState) (x : string) (now0 : Z) (nows : list Z) :
  activeTaskId s = Some x → interval s = Some x → activeStartRef s = Some now0 →
  Sorted Z.lt (now0 :: nows) →
  Doubles.safe now0 → Forall Doubles.safe nows →
  Doubles.safe (default now0 (last nows) - now0) →
  Forall (λ t, id t = x →
               Doubles.safe (elapsed t)
               ∧ Doubles.safe (elapsed t + (default now0 (last nows) - now0)))
         (tasks s) →
  (∀ k now, nows !! k = Some now →
     let before := ticks (take k nows) s in
     let after := tick now before in
     ∃ lastTick,
       activeStartRef before = Some lastTick ∧ lastTick < now
       ∧ Doubles.deltaDouble now (activeStartRef before) = JS.ofZ (now - lastTick)
       ∧ activeStartRef after = Some now
       ∧ activeTaskId after = Some x ∧ interval after = Some x
       ∧ length (tasks after) = length (tasks before)
       ∧ ∀ i t, tasks before !! i = Some t →
           ∃ t', tasks after !! i = Some t'
                 ∧ id t' = id t ∧ name t' = name t ∧ isDevOps t' = isDevOps t
                 ∧ elapsed t ≤ elapsed t'
                 ∧ elapsed t' = (if bool_decide (id t = x)
                                 then elapsed t + (now - lastTick) else elapsed t)
                 ∧ (id t = x →
                    Doubles.creditDouble
                      (Doubles.deltaDouble now (activeStartRef before)) t
                    = JS.ofZ (elapsed t')))
  ∧ (let nowN := default now0 (last nows) in
     activeStartRef (ticks nows s) = Some nowN
     ∧ ∀ i t, tasks s !! i = Some t →
         ∃ t', tasks (ticks nows s) !! i = Some t'
               ∧ id t' = id t
               ∧ elapsed t' = if bool_decide (id t = x)
                              then elapsed t + (nowN - now0) else elapsed t).
Proof.
  intros Ha Hi Hr Hs Hs0 Hsn Hwall Hts. split.
  - intros k now Hk before after.
    pose proof (Sorted_lt_take_last _ _ _ _ Hs Hk) as Hlt.
    destruct (ticks_on_doubles s x now0 nows k now Hi Hr Hs Hs0 Hsn Hwall Hts Hk)
      as [Hdelta Hsum].
    fold before in Hdelta, Hsum.
    set (lastTick := default now0 (last (take k nows))) in *.
    assert (Hb : before = mkState (credit x (lastTick - now0) <$> tasks s)
                                  (activeTaskId s) (Some lastTick) (Some x))
      by (by apply ticks_running).
    exists lastTick. subst after. rw (tick_running now before x); [by rw Hb|].
    split; [by rw Hb|]. split; [done|]. split; [done|].
    assert (Hbr : activeStartRef before = Some lastTick) by by rw Hb.
    assert (Hba : activeTaskId before = Some x) by by rw Hb.
    rw Hbr /=. split_and!; try done.
    + by rw !length_fmap.
    + intros i t Ht. exists (credit x (now - lastTick) t).
      rw list_lookup_fmap Ht /= credit_id credit_elapsed.
      split_and!; try done.
      * unfold credit. by case_bool_decide.
      * unfold credit. by case_bool_decide.
      * case_bool_decide; lia.
      * intros Hid. rw bool_decide_true //. rw -Hbr. exact (Hsum i t Ht Hid).
  - simpl. rw (ticks_running nows s x now0) //=. split; [done|].
    intros i t Ht. exists (credit x (default now0 (last nows) - now0) t).
    by rw list_lookup_fmap Ht /= credit_id credit_elapsed.
Qed.

Lemma tick_accumulation_witness :
  let s := commit 0 (startTask "a") (startup 0 threeTasks None) in
  map elapsed (tasks (ticks (map fst irregular_ticks) s)) = [3000; 0; 0]
  ∧ ∀ i t, tasks s !! i = Some t →
      ∃ t', tasks (ticks (map fst irregular_ticks) s) !! i = Some t'
            ∧ id t' = id t
            ∧ elapsed t' = if bool_decide (id t = "a")
                           then elapsed t + (3000 - 0) else elapsed t.
Proof.
  split; [reflexivity|].
  refine (proj2 (proj2 (tick_accumulation
    (commit 0 (startTask "a") (startup 0 threeTasks None)) "a" 0
    (map fst irregular_ticks) eq_refl eq_refl eq_refl _ _ _ _ _))).
  - repeat constructor.
  - unfold Doubles.safe. lia.
  - repeat constructor; unfold Doubles.safe; lia.
  - unfold Doubles.safe. simpl. lia.
  - repeat constructor; intros _; unfold Doubles.safe; simpl; lia.
Defined.

(** *** What a commit does to the rendered values *)

Lemma rerender_fields now s0 s :
  tasks (rerender now s0 s) = tasks s ∧ activeTaskId (rerender now s0 s) = activeTaskId s.
Proof.
  unfold rerender. case_bool_decide; [done|].
  unfold timerEffect. by destruct (JS.truthyOpt (activeTaskId s)).
Qed.

Lemma commit_tasks now batch s :
  tasks (commit now batch s) = tasks (foldl applyUpdate s batch).
Proof. apply rerender_fields. Qed.

Lemma commit_active now batch s :
  activeTaskId (commit now batch s) = activeTaskId (foldl applyUpdate s batch).
Proof. apply rerender_fields. Qed.

Lemma tick_fields now s :
  ids (tasks (tick now s)) = ids (tasks s) ∧ activeTaskId (tick now s) = activeTaskId s.
Proof.
  destruct (interval s) as [a|] eqn:Hi.
  - rw (tick_running now s a) //=. split; [|done].
    unfold ids. rw -list_fmap_compose. apply list_fmap_ext.
    intros _ t _. apply credit_id.
  - by rw tick_idle.
Qed.

(** A commit that leaves [activeTaskId] as rendered touches neither the
    reference cell nor the interval. *)
Lemma commit_same_active now batch s :
  activeTaskId (foldl applyUpdate s batch) = activeTaskId s →
  commit now batch s
  = mkState (tasks (foldl applyUpdate s batch)) (activeTaskId s)
            (activeStartRef s) (interval s).
Proof.
  intros Heq. unfold commit, rerender. rw bool_decide_eq_true_2 //.
  destruct (foldl_applyUpdate_cells batch s) as [Hr Hi].
  destruct (foldl applyUpdate s batch); simpl in *. congruence.
Qed.

Lemma state_eta s :
  mkState (tasks s) (activeTaskId s) (activeStartRef s) (interval s) = s.
Proof. by destruct s. Qed.

(** A task credited by the interval of an id nobody carries. *)
Lemma credit_absent a d ts : a ∉ ids ts → credit a d <$> ts = ts.
Proof.
  intros Hnin. rw -{2}(list_fmap_id ts). apply list_fmap_ext.
  intros i t Ht. unfold credit. case_bool_decide as Heq; [|done].
  exfalso. apply Hnin. unfold ids. apply list_elem_of_fmap.
  exists t. split; [done|]. by eapply list_elem_of_lookup_2.
Qed.

Lemma find_none_all {A} (f : A → bool) (l : list A) :
  (∀ x, x ∈ l → f x = false) → find f l = None.
Proof.
  induction l as [|a l IH]; intros Hall; [done|]. simpl.
  rw (Hall a); [by left|]. apply IH. intros x Hx. apply Hall. by right.
Qed.

Lemma activeTask_None s :
  (∀ x, activeTaskId s = Some x → x ∉ ids (tasks s)) → activeTask s = None.
Proof.
  intros Hnin. unfold activeTask. apply find_none_all. intros t Ht.
  apply bool_decide_eq_false. intros Heq.
  apply (Hnin (id t)); [done|]. unfold ids. apply list_elem_of_fmap.
  by exists t.
Qed.

(** *** The handlers, one by one *)

Lemma exists_nameTaken ts n :
  existsb (λ t, String.eqb (JS.toLowerCase (name t)) (JS.toLowerCase n)) ts = true
  ↔ nameTaken ts n.
Proof.
  rw existsb_exists. unfold nameTaken. split.
  - intros (t & Hin & Heq). exists t. split; [by apply list_elem_of_In|].
    by apply String.eqb_eq.
  - intros (t & Hin & Heq). exists t. split; [by apply list_elem_of_In|].
    by apply String.eqb_eq.
Qed.

Lemma addTask_cases s now random36 name0 isDevOps0 :
  addTask s now random36 name0 isDevOps0 = []
  ∨ addTask s now random36 name0 isDevOps0
    = [SetTasks (λ prev,
         prev ++ [mkTask (generateId now random36) (JS.trim name0) 0 isDevOps0])].
Proof.
  unfold addTask. destruct (JS.truthy (JS.trim name0)); simpl; [|by left].
  destruct (existsb _ _); [by left|by right].
Qed.

Lemma handleAddCustomTask_cases s now random36 newTaskName :
  handleAddCustomTask s now random36 newTaskName = []
  ∨ ∃ task, handleAddCustomTask s now random36 newTaskName
            = [SetTasks (λ prev, prev ++ [task])].
Proof.
  unfold handleAddCustomTask. destruct (JS.truthy (JS.trim newTaskName)); [|by left].
  simpl. edestruct addTask_cases as [->| ->]; [by left|right; eauto].
Qed.

Lemma ids_app ts ts' : ids (ts ++ ts') = ids ts ++ ids ts'.
Proof. apply fmap_app. Qed.

Lemma ids_filter_ne ts x a :
  a ∈ ids ts → a ≠ x → a ∈ ids (filter (λ t, id t ≠ x) ts).
Proof.
  unfold ids. intros (t & -> & Hin)%list_elem_of_fmap Hne.
  apply list_elem_of_fmap. exists t. split; [done|].
  by apply list_elem_of_filter.
Qed.

Lemma ids_filter_absent ts x : x ∉ ids (filter (λ t, id t ≠ x) ts).
Proof.
  unfold ids. intros (t & -> & Hin)%list_elem_of_fmap.
  by apply list_elem_of_filter in Hin as [Hne _].
Qed.

Lemma filter_absent ts x : x ∉ ids ts → filter (λ t, id t ≠ x) ts = ts.
Proof.
  intros Hnin. induction ts as [|t ts IH]; [done|].
  rw filter_cons_True.
  - intros Heq. apply Hnin. subst x. by left.
  - f_equal. apply IH. intros Hin. apply Hnin. by right.
Qed.

Lemma step_validActive s now c :
  validActive s → addressesExisting s c → validActive (step s (now, c)).
Proof.
  intros Hv Ha. unfold step; simpl.
  destruct c as [x| |x|n f r|x|n r| |]; unfold validActive in *.
  - intros y. rw commit_active commit_tasks /=. by intros [= <-].
  - intros y. by rw commit_active.
  - intros y. rw commit_active commit_tasks. unfold handler, toggleTask.
    case_bool_decide; simpl; [done|]. by intros [= <-].
  - intros y. rw commit_active commit_tasks. unfold handler.
    destruct (addTask_cases s now r n f) as [-> | ->]; simpl; [by apply Hv|].
    intros Hy. rw ids_app. apply elem_of_app. left. by apply Hv.
  - intros y. rw commit_active commit_tasks. unfold handler, removeTask.
    case_bool_decide as Hx; simpl; [done|].
    intros Hy. apply ids_filter_ne; [by apply Hv|]. congruence.
  - intros y. rw commit_active commit_tasks. unfold handler.
    destruct (handleAddCustomTask_cases s now r n) as [-> | [t ->]]; simpl;
      [by apply Hv|].
    intros Hy. rw ids_app. apply elem_of_app. left. by apply Hv.
  - intros y. by rw commit_active.
  - intros y. destruct (tick_fields now s) as [-> ->]. apply Hv.
Qed.

Lemma trace_validActive evs : ∀ s,
  validActive s → runAddressesExisting evs s → Forall validActive (trace evs s).
Proof.
  induction evs as [|[now c] evs IH]; intros s Hv Ha; simpl.
  - by constructor.
  - destruct Ha as [Ha Hrest]. constructor; [done|].
    apply IH; [|done]. by apply step_validActive.
Qed.

Lemma startup_fields now storedTasks storedActive :
  tasks (startup now storedTasks storedActive) = storedTasks
  ∧ activeTaskId (startup now storedTasks storedActive) = storedActive.
Proof. apply rerender_fields. Qed.

(** *** Active ids that name no task *)

Lemma tick_dangling now s :
  coherent s → (∀ x, activeTaskId s = Some x → x ∉ ids (tasks s)) →
  tasks (tick now s) = tasks s.
Proof.
  intros Hc Hnin. destruct (interval s) as [a|] eqn:Hi.
  - rw (tick_running now s a) //=. apply credit_absent, Hnin.
    unfold coherent in Hc. rw Hi in Hc.
    by destruct (JS.truthyOpt (activeTaskId s)).
  - by rw tick_idle.
Qed.

(** The claim C3 fails on the code: a stored active id that names no
    stored task is rendered as it is, and the timer is started for it. *)
Lemma startup_keeps_missing_id :
  let s := startup 5000 [] (Some "ghost") in
  activeTaskId s = Some "ghost" ∧ interval s = Some "ghost" ∧ ¬ validActive s.
Proof.
  split_and!; [reflexivity..|].
  intros Hv. specialize (Hv "ghost" eq_refl). by apply elem_of_nil in Hv.
Qed.

(** C3, amended — the code never checks [activeTaskId] against the
    collection.  After startup the active id is valid exactly when the
    stored id is null or names a stored task; validity is then kept by
    every command that names an existing task when it starts or toggles
    one; and a stored id that names no task stays active, with no derived
    active task and ticks that credit nothing: the timer is started for
    it, at the time of the hydrated render, unless the id is the empty
    string, for which no interval is created. *)
Theorem active_id_validity
    (now : Z) (storedTasks : list Task) (storedActive : option string) :
  let s0 := startup now storedTasks storedActive in
  (validActive s0 ↔ ∀ x, storedActive = Some x → x ∈ ids storedTasks)
  ∧ (∀ s evs, validActive s → runAddressesExisting evs s →
              Forall validActive (trace evs s))
  ∧ (∀ x, storedActive = Some x → x ∉ ids storedTasks →
          activeTaskId s0 = Some x ∧ activeTask s0 = None
          ∧ (x ≠ "" → interval s0 = Some x ∧ activeStartRef s0 = Some now)
          ∧ (x = "" → interval s0 = None ∧ activeStartRef s0 = None)
          ∧ ∀ now', tasks (tick now' s0) = storedTasks).
Proof.
  intros s0. destruct (startup_fields now storedTasks storedActive) as [Ht Ha].
  fold s0 in Ht, Ha. split_and!.
  - unfold validActive. by rw Ht Ha.
  - intros s evs. apply trace_validActive.
  - intros x Hx Hnin.
    assert (Hs0 : s0 = timerEffect now (mkState storedTasks (Some x) None None)).
    { unfold s0, startup, rerender. rw Hx. by rw bool_decide_false. }
    split_and!.
    + by rw Ha.
    + apply activeTask_None. intros y. rw Ha Ht. congruence.
    + intros Hne. rw Hs0. unfold timerEffect. simpl.
      by rw (proj2 (truthy_true x) Hne).
    + intros ->. by rw Hs0.
    + intros now'. transitivity (tasks s0); [|done]. apply tick_dangling.
      * apply startup_coherent.
      * intros y. rw Ha Ht. congruence.
Qed.

Lemma active_id_validity_witness :
  validActive (startup 0 threeTasks (Some "b"))
  ∧ Forall validActive (trace abc_events (startup 0 threeTasks (Some "b")))
  ∧ activeTask (startup 5000 threeTasks (Some "ghost")) = None
  ∧ interval (startup 5000 threeTasks (Some "ghost")) = Some "ghost"
  ∧ interval (startup 5000 threeTasks (Some "")) = None.
Proof.
  pose proof (active_id_validity 0 threeTasks (Some "b")) as (Hiff & Hrun & _).
  assert (Hv : validActive (startup 0 threeTasks (Some "b"))).
  { apply Hiff. intros x [= <-]. by_compute. }
  pose proof (active_id_validity 5000 threeTasks (Some "ghost")) as (_ & _ & Hd).
  destruct (Hd "ghost" eq_refl ltac:(by_compute)) as (_ & Hnone & Hstart & _).
  pose proof (active_id_validity 5000 threeTasks (Some "")) as (_ & _ & He).
  destruct (He "" eq_refl ltac:(by_compute)) as (_ & _ & _ & Hempty & _).
  split_and!; [exact Hv| |exact Hnone| |].
  - apply Hrun; [exact Hv|]. simpl. split_and!; by_compute.
  - apply Hstart. discriminate.
  - by apply Hempty.
Defined.

(** The claim C4 fails on the code: [startTask] with an id that names no
    task makes that id the active one. *)
Lemma startTask_unknown_id_changes_state :
  let s := startup 0 threeTasks None in
  ("ghost" ∉ ids (tasks s))
  ∧ activeTaskId (step s (1000, StartTask "ghost")) = Some "ghost"
  ∧ step s (1000, StartTask "ghost") ≠ s.
Proof.
  split_and!; [by_compute|reflexivity|discriminate].
Qed.

(** C4, amended — [startTask] performs no existence check: for every state
    and id it leaves the collection as it is and makes the id the active
    one, which changes nothing exactly when the id is active already; when
    the id names no task there is no derived active task afterwards and
    ticks credit nothing. *)
Theorem startTask_sets_any_id (s : EngineState) (now : Z) (x : string) :
  let s' := commit now (startTask x) s in
  tasks s' = tasks s
  ∧ activeTaskId s' = Some x
  ∧ (s' = s ↔ activeTaskId s = Some x)
  ∧ (x ∉ ids (tasks s) →
     activeTask s' = None
     ∧ (coherent s → ∀ now', tasks (tick now' s') = tasks s)).
Proof.
  intros s'. destruct (commit_startTask now x s) as [Ha Ht]. fold s' in Ha, Ht.
  split_and!; try done.
  - split; [intros Heq; by rw -Heq|]. intros Hx. subst s'.
    rw commit_same_active /=; [done|]. apply state_eta.
  - intros Hnin. split.
    + apply activeTask_None. intros y. rw Ha Ht. congruence.
    + intros Hc now'. rw -Ht. apply tick_dangling.
      * by apply commit_coherent.
      * intros y. rw Ha Ht. congruence.
Qed.

Lemma startTask_sets_any_id_witness :
  let s := startup 0 threeTasks None in
  let s' := commit 1000 (startTask "ghost") s in
  activeTask s' = None ∧ ∀ now', tasks (tick now' s') = tasks s.
Proof.
  intros s s'.
  pose proof (startTask_sets_any_id s 1000 "ghost") as (_ & _ & _ & Hd).
  destruct Hd as [Hnone Htick].
  - by_compute.
  - split; [exact Hnone|]. apply Htick. reflexivity.
Defined.

(** *** addTask *)

Lemma addTask_decide s now random36 name0 isDevOps0 :
  (addTask s now random36 name0 isDevOps0 = []
   ∧ (JS.trim name0 = "" ∨ nameTaken (tasks s) (JS.trim name0)))
  ∨ (addTask s now random36 name0 isDevOps0
     = [SetTasks (λ prev,
          prev ++ [mkTask (generateId now random36) (JS.trim name0) 0 isDevOps0])]
     ∧ JS.trim name0 ≠ "" ∧ ¬ nameTaken (tasks s) (JS.trim name0)).
Proof.
  unfold addTask. destruct (JS.truthy (JS.trim name0)) eqn:Htr; simpl.
  - destruct (existsb _ _) eqn:Hex.
    + left. split; [done|]. right. by apply exists_nameTaken.
    + right. split_and!; [done|by apply truthy_true|].
      intros Hn%exists_nameTaken. congruence.
  - left. split; [done|]. left. by apply truthy_false.
Qed.

(** The state after an [addTask] event. *)
Lemma addTask_commit s now random36 name0 isDevOps0 :
  (JS.trim name0 = "" ∨ nameTaken (tasks s) (JS.trim name0) →
   commit now (addTask s now random36 name0 isDevOps0) s = s)
  ∧ (JS.trim name0 ≠ "" → ¬ nameTaken (tasks s) (JS.trim name0) →
     commit now (addTask s now random36 name0 isDevOps0) s
     = mkState (tasks s ++ [mkTask (generateId now random36) (JS.trim name0) 0 isDevOps0])
               (activeTaskId s) (activeStartRef s) (interval s)).
Proof.
  destruct (addTask_decide s now random36 name0 isDevOps0)
    as [[-> Hrej] | (-> & Hne & Hfree)].
  - rw commit_nil. split; [done|]. intros Hne Hfree. by destruct Hrej.
  - rw commit_SetTasks. split; [|done]. by intros [?|?].
Qed.

Lemma lowerNames_fresh ts n :
  ¬ nameTaken ts n → JS.toLowerCase n ∉ lowerNames ts.
Proof.
  intros Hn (t & Heq & Hin)%list_elem_of_fmap. apply Hn. by exists t.
Qed.

Lemma NoDup_snoc {A} (l : list A) (x : A) : NoDup l → x ∉ l → NoDup (l ++ [x]).
Proof.
  intros Hl Hx. apply NoDup_app. split_and!; [done| |apply NoDup_singleton].
  intros y Hy ->%list_elem_of_singleton. done.
Qed.

(** The claim C6 fails on the code where it promises a unique id: two adds
    at one clock reading whose random draws share five digits get the same
    id. *)
Lemma addTask_can_repeat_an_id :
  uniqueIds (tasks (run (take 1 same_millisecond_adds) firstRender))
  ∧ name <$> tasks (run same_millisecond_adds firstRender) = ["Standup"; "Review"]
  ∧ ids (tasks (run same_millisecond_adds firstRender))
    = ["mm44lc00abcde"; "mm44lc00abcde"]
  ∧ ¬ uniqueIds (tasks (run same_millisecond_adds firstRender)).
Proof.
  split_and!; [by_compute|reflexivity|reflexivity|].
  intros Hnd. vm_compute in Hnd. apply NoDup_cons in Hnd as [Hnin _].
  apply Hnin. by left.
Qed.

(** C6, amended — [addTask] trims the name; when the trimmed name is empty
    or taken up to case, nothing changes; otherwise exactly one task is
    appended, with the trimmed name, no elapsed time, the given flag and the
    id made by [generateId] from the clock reading and the random draw.
    Names stay unique up to case; the id is not compared with those of the
    collection, so ids stay unique when the generated one is new. *)
Theorem addTask_semantics
    (s : EngineState) (now : Z) (random36 name0 : string) (isDevOps0 : bool) :
  let trimmed := JS.trim name0 in
  let s' := commit now (addTask s now random36 name0 isDevOps0) s in
  (trimmed = "" ∨ nameTaken (tasks s) trimmed → s' = s)
  ∧ (trimmed ≠ "" → ¬ nameTaken (tasks s) trimmed →
     s' = mkState (tasks s ++ [mkTask (generateId now random36) trimmed 0 isDevOps0])
                  (activeTaskId s) (activeStartRef s) (interval s))
  ∧ (uniqueNames (tasks s) → uniqueNames (tasks s'))
  ∧ (uniqueIds (tasks s) → generateId now random36 ∉ ids (tasks s) →
     uniqueIds (tasks s')).
Proof.
  intros trimmed s'. subst trimmed s'.
  destruct (addTask_commit s now random36 name0 isDevOps0) as [Hrej Happ].
  split_and!; [done|done|..].
  - destruct (addTask_decide s now random36 name0 isDevOps0)
      as [[_ Hr] | (_ & Hne & Hfree)].
    + by rw Hrej.
    + rw Happ //=. intros Hu. unfold uniqueNames, lowerNames. rw fmap_app /=.
      apply NoDup_snoc; [done|]. by apply lowerNames_fresh.
  - destruct (addTask_decide s now random36 name0 isDevOps0)
      as [[_ Hr] | (_ & Hne & Hfree)].
    + by rw Hrej.
    + rw Happ //=. intros Hu Hnew. unfold uniqueIds. rw ids_app /=.
      by apply NoDup_snoc.
Qed.

Lemma addTask_semantics_witness :
  let s := step firstRender (1000, AddTask "Meeting" false "0.k3x9q2") in
  tasks (commit 2000 (addTask s 2000 "0.7hw1zc" "meeting" false) s) = tasks s
  ∧ tasks (commit 2000 (addTask s 2000 "0.7hw1zc" "  Admin " false) s)
    = tasks s ++ [mkTask "1jk7hw1z" "Admin" 0 false]
  ∧ uniqueNames (tasks (commit 2000 (addTask s 2000 "0.7hw1zc" "  Admin " false) s))
  ∧ uniqueIds (tasks (commit 2000 (addTask s 2000 "0.7hw1zc" "  Admin " false) s)).
Proof.
  intros s.
  pose proof (addTask_semantics s 2000 "0.7hw1zc" "meeting" false) as (Hrej & _).
  pose proof (addTask_semantics s 2000 "0.7hw1zc" "  Admin " false)
    as (_ & Happ & Hnames & Hids).
  split_and!.
  - rw Hrej; [|done]. right. exists (mkTask "rsk3x9q" "Meeting" 0 false).
    split; [apply list_elem_of_here|reflexivity].
  - rw Happ; [discriminate| |reflexivity].
    intros (t & Hin & Heq). apply list_elem_of_singleton in Hin. by subst t.
  - apply Hnames. by_compute.
  - apply Hids; by_compute.
Defined.

(** *** removeTask *)

Lemma filter_unique_id ts x :
  uniqueIds ts → x ∈ ids ts →
  ∃ pre t post, ts = pre ++ t :: post ∧ id t = x
                ∧ filter (λ t, id t ≠ x) ts = pre ++ post.
Proof.
  unfold uniqueIds. intros Hnd (t & -> & Hin)%list_elem_of_fmap.
  apply list_elem_of_split in Hin as (pre & post & ->).
  exists pre, t, post. split_and!; [done..|].
  rw ids_app /= in Hnd. apply NoDup_app in Hnd as (_ & Hpre & Hpost).
  apply NoDup_cons in Hpost as [Hpost _].
  rw filter_app filter_cons_False; [by intros H; apply H|].
  rw !filter_absent //.
  intros Hin. apply (Hpre _ Hin). by left.
Qed.

(** The claim C7 fails on the code: removing an id that names no task
    clears [activeTaskId] when the active id is that very id. *)
Lemma removeTask_unknown_id_clears_active :
  ("ghost" ∉ ids (tasks ghostState))
  ∧ activeTaskId ghostState = Some "ghost"
  ∧ activeTaskId (step ghostState (6000, RemoveTask "ghost")) = None
  ∧ step ghostState (6000, RemoveTask "ghost") ≠ ghostState.
Proof. split_and!; [by_compute|reflexivity|reflexivity|discriminate]. Qed.

(** C7, amended — [removeTask] keeps exactly the tasks whose id differs, in
    order: nothing of the collection changes when the id names no task, and
    exactly that task goes when ids are unique.  When the id is the active
    one, the same batch clears [activeTaskId], and the interval goes with
    it, so no tick follows; otherwise the active id, the reference cell and
    the interval stay, so removing an id that names no task and is not
    active changes nothing at all. *)
Theorem removeTask_semantics (s : EngineState) (now : Z) (x : string) :
  let s' := commit now (removeTask s x) s in
  tasks s' = filter (λ t, id t ≠ x) (tasks s)
  ∧ (x ∉ ids (tasks s'))
  ∧ (x ∉ ids (tasks s) → tasks s' = tasks s)
  ∧ (x ∉ ids (tasks s) → activeTaskId s ≠ Some x → s' = s)
  ∧ (uniqueIds (tasks s) → x ∈ ids (tasks s) →
     ∃ pre t post, tasks s = pre ++ t :: post ∧ id t = x ∧ tasks s' = pre ++ post)
  ∧ (activeTaskId s = Some x →
     removeTask s x = [SetActiveTaskId None; SetTasks (filter (λ t, id t ≠ x))]
     ∧ activeTaskId s' = None ∧ activeStartRef s' = None ∧ interval s' = None
     ∧ ∀ now', tick now' s' = s')
  ∧ (activeTaskId s ≠ Some x →
     activeTaskId s' = activeTaskId s ∧ activeStartRef s' = activeStartRef s
     ∧ interval s' = interval s).
Proof.
  intros s'.
  assert (Ht : tasks s' = filter (λ t, id t ≠ x) (tasks s)).
  { subst s'. rw commit_tasks. unfold removeTask. by case_bool_decide. }
  assert (Hkeep : activeTaskId s ≠ Some x →
            s' = mkState (filter (λ t, id t ≠ x) (tasks s)) (activeTaskId s)
                         (activeStartRef s) (interval s)).
  { intros Hne. subst s'. unfold removeTask. rw bool_decide_eq_false_2 //=.
    by rw commit_SetTasks. }
  split_and!.
  - done.
  - rw Ht. apply ids_filter_absent.
  - intros Hnin. by rw Ht filter_absent.
  - intros Hnin Hne. rw Hkeep // filter_absent //. apply state_eta.
  - intros Hu Hin. rw Ht. by apply filter_unique_id.
  - intros Hx. subst s'. unfold removeTask. rw bool_decide_eq_true_2 //=.
    unfold commit, rerender; simpl. by rw Hx.
  - intros Hne. by rw Hkeep.
Qed.

Lemma removeTask_semantics_witness :
  let s := run abc_events (startup 0 threeTasks None) in
  let s' := commit 5000 (removeTask s "c") s in
  activeTaskId s = Some "c"
  ∧ activeTaskId s' = None ∧ interval s' = None
  ∧ map name (tasks s') = ["A"; "B"]
  ∧ commit 5000 (removeTask s "ghost") s = s.
Proof.
  intros s s'.
  pose proof (removeTask_semantics s 5000 "c") as (Ht & _ & _ & _ & _ & Hact & _).
  pose proof (removeTask_semantics s 5000 "ghost") as (_ & _ & _ & Hnoop & _).
  destruct (Hact eq_refl) as (_ & Ha & _ & Hi & _).
  split_and!; [reflexivity|exact Ha|exact Hi|by subst s'; rw Ht|].
  apply Hnoop; [by_compute|discriminate].
Defined.

(** *** The add-task entry point *)

Lemma handleAddCustomTask_workItem s now random36 newTaskName d :
  JS.digits1 d = true →
  JS.trim newTaskName = d ∨ JS.trim newTaskName = "#" +:+ d →
  handleAddCustomTask s now random36 newTaskName
  = addTask s now random36 ("WI #" +:+ d) true.
Proof.
  intros Hd Hin. unfold handleAddCustomTask.
  assert (Ht : JS.test_workItem (JS.trim newTaskName) = true)
    by (apply test_workItem_spec; eauto).
  assert (Hr : JS.replace_leadingHash (JS.trim newTaskName) = d).
  { destruct (replace_leadingHash_spec d Hd) as [H1 H2].
    by destruct Hin as [-> | ->]. }
  rw Ht Hr. destruct (JS.trim newTaskName) eqn:Hn; [|done].
  apply digits1_cons in Hd as (c & r & -> & _). by destruct Hin.
Qed.

Lemma handleAddCustomTask_plain s now random36 newTaskName :
  JS.test_workItem (JS.trim newTaskName) = false → JS.trim newTaskName ≠ "" →
  handleAddCustomTask s now random36 newTaskName
  = addTask s now random36 newTaskName false.
Proof.
  intros Ht Hne. unfold handleAddCustomTask. rw Ht.
  by apply truthy_true in Hne as ->.
Qed.

(** C8 — Classification of the typed input: the trimmed input either is an
    optional [#] followed by one or more digits or it is not; in the first
    case the task added is a work item named "WI #" followed by the digits,
    in the second, when the trimmed input is not empty, a plain task named
    by the trimmed input; the handler is defined on every string. *)
Theorem classification (s : EngineState) (now : Z) (random36 newTaskName : string) :
  let input := JS.trim newTaskName in
  let s' := commit now (handleAddCustomTask s now random36 newTaskName) s in
  let added name0 isDevOps0 :=
    tasks s ++ [mkTask (generateId now random36) name0 0 isDevOps0] in
  (JS.test_workItem input = true
   ↔ ∃ d, JS.digits1 d = true ∧ (input = d ∨ input = "#" +:+ d))
  ∧ (JS.test_workItem input = false
     ↔ ¬ ∃ d, JS.digits1 d = true ∧ (input = d ∨ input = "#" +:+ d))
  ∧ (∀ d, JS.digits1 d = true → input = d ∨ input = "#" +:+ d →
       (¬ nameTaken (tasks s) ("WI #" +:+ d) → tasks s' = added ("WI #" +:+ d) true)
       ∧ (nameTaken (tasks s) ("WI #" +:+ d) → s' = s))
  ∧ (JS.test_workItem input = false → input ≠ "" →
       (¬ nameTaken (tasks s) input → tasks s' = added input false)
       ∧ (nameTaken (tasks s) input → s' = s))
  ∧ (input = "" → s' = s).
Proof.
  intros input s' added. subst input s' added. split_and!.
  - apply test_workItem_spec.
  - rw -test_workItem_spec. by destruct (JS.test_workItem _).
  - intros d Hd Hin. rw (handleAddCustomTask_workItem _ _ _ _ d) //.
    pose proof (addTask_commit s now random36 ("WI #" +:+ d) true) as (Hrej & Happ).
    rw (trim_workItem_name d Hd) in Hrej Happ. split.
    + intros Hfree. by rw Happ.
    + intros Htaken. apply Hrej. by right.
  - intros Ht Hne. rw handleAddCustomTask_plain //.
    pose proof (addTask_commit s now random36 newTaskName false) as (Hrej & Happ).
    split.
    + intros Hfree. by rw Happ.
    + intros Htaken. apply Hrej. by right.
  - intros He. unfold handleAddCustomTask. rw He /=. apply commit_nil.
Qed.

Lemma classification_witness :
  tasks (commit 1000 (handleAddCustomTask firstRender 1000 "0.k3x9q2" "12345") firstRender)
  = [mkTask "rsk3x9q" "WI #12345" 0 true]
  ∧ tasks (commit 1000 (handleAddCustomTask firstRender 1000 "0.k3x9q2" " #12345 ")
                  firstRender)
    = [mkTask "rsk3x9q" "WI #12345" 0 true]
  ∧ tasks (commit 1000 (handleAddCustomTask firstRender 1000 "0.k3x9q2" "Standup")
                  firstRender)
    = [mkTask "rsk3x9q" "Standup" 0 false].
Proof.
  assert (Hfree : ∀ n, ¬ nameTaken (tasks firstRender) n).
  { intros n (t & Hin & _). by apply elem_of_nil in Hin. }
  split_and!.
  - pose proof (classification firstRender 1000 "0.k3x9q2" "12345") as (_ & _ & Hwi & _).
    destruct (Hwi "12345" eq_refl (or_introl eq_refl)) as [Hadd _].
    rw Hadd; [apply Hfree|reflexivity].
  - pose proof (classification firstRender 1000 "0.k3x9q2" " #12345 ") as (_ & _ & Hwi & _).
    destruct (Hwi "12345" eq_refl (or_intror eq_refl)) as [Hadd _].
    rw Hadd; [apply Hfree|reflexivity].
  - pose proof (classification firstRender 1000 "0.k3x9q2" "Standup") as (_ & _ & _ & Hpl & _).
    destruct (Hpl eq_refl) as [Hadd _]; [discriminate|].
    rw Hadd; [apply Hfree|reflexivity].
Defined.

End TimerProps.

(** ** The daily summary *)

Module SummaryProps.
Import Switchboard Scenarios.

Lemma totalTime_from acc ts :
  foldl (λ sum t, sum + elapsed t) acc ts = acc + sumElapsed ts.
Proof.
  revert acc; induction ts as [|t ts IH]; intros acc; simpl; [lia|].
  rw IH. lia.
Qed.

Lemma totalTime_sum ts : totalTime ts = sumElapsed ts.
Proof. unfold totalTime. by rw totalTime_from. Qed.

(** [Math.round] returns the integer [n] with [n - 1/2 <= x < n + 1/2]. *)
Lemma Math_round_nearest sgn m e n :
  JS.Math_round (S754_finite sgn m e) = Some n →
  let v := if sgn then Z.neg m else Z.pos m in
  if 0 <=? e then n = v * 2 ^ e
  else (2 * n - 1) * 2 ^ (- e) ≤ 2 * v < (2 * n + 1) * 2 ^ (- e).
Proof.
  simpl. intros [= <-]. destruct (0 <=? e) eqn:He; [done|].
  apply Z.leb_gt in He.
  set (v := if sgn then Z.neg m else Z.pos m).
  assert (Hp : 0 < 2 ^ (- e)) by (apply Z.pow_pos_nonneg; lia).
  replace (2 ^ (1 - e)) with (2 * 2 ^ (- e))
    by (rw -(Z.pow_succ_r 2 (- e)); [lia|f_equal; lia]).
  pose proof (Z.div_mod (2 * v + 2 ^ (- e)) (2 * 2 ^ (- e))) as Hdm.
  pose proof (Z.mod_pos_bound (2 * v + 2 ^ (- e)) (2 * 2 ^ (- e))) as Hmb.
  nia.
Qed.

Lemma insertSorted_perm a l : insertSorted a l ≡ₚ a :: l.
Proof.
  induction l as [|b l IH]; [done|]. simpl.
  destruct (0 <? compareElapsed a b); [|done].
  rw IH. apply Permutation_swap.
Qed.

Lemma sort_perm l : sort l ≡ₚ l.
Proof.
  induction l as [|a l IH]; [done|]. simpl.
  by rw insertSorted_perm IH.
Qed.

#[local] Instance descending_trans : Transitive descending.
Proof. unfold descending. intros a b c ??. lia. Qed.

Lemma insertSorted_sorted a l :
  StronglySorted descending l → StronglySorted descending (insertSorted a l).
Proof.
  induction l as [|b l IH]; intros Hl; simpl.
  - by repeat constructor.
  - apply StronglySorted_inv in Hl as [Hl Hb].
    destruct (0 <? compareElapsed a b) eqn:Hcmp; unfold compareElapsed in Hcmp.
    + apply Z.ltb_lt in Hcmp. constructor; [by apply IH|].
      rw insertSorted_perm. constructor; [unfold descending; lia|done].
    + apply Z.ltb_ge in Hcmp. constructor; [by constructor|].
      constructor; [unfold descending; lia|].
      eapply Forall_impl; [exact Hb|]. unfold descending. intros c ?. lia.
Qed.

Lemma sort_sorted l : StronglySorted descending (sort l).
Proof.
  induction l as [|a l IH]; simpl; [constructor|]. by apply insertSorted_sorted.
Qed.

(** Tasks with equal [elapsed] keep their order: the sort is stable. *)
Lemma insertSorted_stable k a l :
  filter (λ t, elapsed t = k) (insertSorted a l) = filter (λ t, elapsed t = k) (a :: l).
Proof.
  induction l as [|b l IH]; [done|]. simpl.
  destruct (0 <? compareElapsed a b) eqn:Hcmp; [|done].
  apply Z.ltb_lt in Hcmp. unfold compareElapsed in Hcmp.
  rw filter_cons IH !filter_cons.
  repeat case_decide; try done; lia.
Qed.

Lemma sort_stable k l :
  filter (λ t, elapsed t = k) (sort l) = filter (λ t, elapsed t = k) l.
Proof.
  induction l as [|a l IH]; [done|]. simpl.
  by rw insertSorted_stable !filter_cons IH.
Qed.

(** The claim C9 fails on the code in the percentage: 115 s out of 200 s is
    57.5%, which rounds to 58, but the double [(115000 / 200000) * 100] is
    just below 57.5 and [Math.round] gives 57; the other half, 42.5%, goes
    up to 43. *)
Lemma pct_half_percent_rounds_down :
  totalTime halfPercents = 200000
  ∧ JS.fmul (JS.fdiv (JS.ofZ 115000) (JS.ofZ 200000)) (JS.ofZ 100)
    = S754_finite false 8092405580431359 (-47)
  ∧ 8092405580431359 < 115 * 2 ^ 46
  ∧ pct (totalTime halfPercents) (mkTask "a" "A" 115000 false) = Some 57
  ∧ pct_spec (totalTime halfPercents) (mkTask "a" "A" 115000 false) = 58
  ∧ pct_spec_even (totalTime halfPercents) (mkTask "a" "A" 115000 false) = 58
  ∧ pct (totalTime halfPercents) (mkTask "b" "B" 85000 false) = Some 43
  ∧ pct_spec (totalTime halfPercents) (mkTask "b" "B" 85000 false) = 43.
Proof. split_and!; by vm_compute. Qed.

(** Beyond 2^53 the total on doubles is not the sum: a task at 2^53 ms
    and eight tasks at 1 ms add up to 2^53. *)
Example total_rounds_beyond_2_53 :
  sumElapsed Doubles.ancientAndOnes = 2 ^ 53 + 8
  ∧ Doubles.totalTimeDouble Doubles.ancientAndOnes = JS.ofZ (2 ^ 53)
  ∧ JS.ofZ (2 ^ 53) ≠ JS.ofZ (2 ^ 53 + 8).
Proof. split_and!; by vm_compute. Qed.

Lemma exactSums_run ts :
  Forall (λ t, 0 ≤ elapsed t) ts → sumElapsed ts < 2 ^ 53 → Doubles.exactSums ts.
Proof. intros Hpos Hsum. by apply DoubleProps.exactFrom_nonneg. Qed.

(** C9, amended — for a collection whose times and running sums are
    integers below 2^53 ms in magnitude, the total, added up on doubles,
    is the sum of the [elapsed] of all tasks; the percentage of a task is 0
    when the total is not positive and otherwise [Math.round] of the double
    [(elapsed / total) * 100]; for times below 2^43 ms that is
    [100 * elapsed / total] rounded to the nearest integer, except when the
    quotient lies exactly half-way between two integers; the summary holds
    exactly the tasks with positive [elapsed], in descending order of
    [elapsed], tasks with equal [elapsed] in their order of the collection;
    and [100, 200, 700] gives total 1000, percentages 10, 20, 70 and
    summary order 700, 200, 100. *)
Theorem derived_totals (ts : list Task) :
  (Doubles.exactSums ts →
   Doubles.totalTimeDouble ts = JS.ofZ (sumElapsed ts)
   ∧ totalTime ts = sumElapsed ts
   ∧ sumElapsed ts < 2 ^ 53
   ∧ ∀ t, Doubles.pctDouble ts t = pct (totalTime ts) t
          ∧ Doubles.pctDouble ts t
            = if 0 <? sumElapsed ts
              then JS.Math_round
                     (JS.fmul (JS.fdiv (JS.ofZ (elapsed t)) (JS.ofZ (sumElapsed ts)))
                              (JS.ofZ 100))
              else Some 0)
  ∧ (Doubles.exactSums ts →
     ∀ t, 0 ≤ elapsed t < 2 ^ 43 →
          (200 * elapsed t) mod (2 * sumElapsed ts) ≠ sumElapsed ts →
          Doubles.pctDouble ts t = Some (pct_spec (sumElapsed ts) t))
  ∧ summaryRows ts ≡ₚ filter (λ t, 0 < elapsed t) ts
  ∧ (∀ t, t ∈ summaryRows ts ↔ t ∈ ts ∧ 0 < elapsed t)
  ∧ StronglySorted descending (summaryRows ts)
  ∧ (∀ k, filter (λ t, elapsed t = k) (summaryRows ts)
          = filter (λ t, elapsed t = k) (filter (λ t, 0 < elapsed t) ts))
  ∧ (Doubles.exactSums hundreds
     ∧ Doubles.totalTimeDouble hundreds = JS.ofZ 1000
     ∧ Doubles.pctDouble hundreds <$> hundreds = [Some 10; Some 20; Some 70]
     ∧ elapsed <$> summaryRows hundreds = [700; 200; 100]).
Proof.
  assert (Hexact : Doubles.exactSums ts →
            Doubles.totalTimeDouble ts = JS.ofZ (sumElapsed ts)
            ∧ sumElapsed ts < 2 ^ 53
            ∧ ∀ t, Doubles.pctDouble ts t = pct (sumElapsed ts) t).
  { intros Hex. destruct (DoubleProps.totalTimeDouble_exact ts Hex) as [E Hs].
    rw totalTime_sum in E, Hs. split_and!; [done|unfold Doubles.safe in Hs; lia|].
    intros t. by rw DoubleProps.pctDouble_exact // totalTime_sum. }
  split_and!.
  - intros Hex. destruct (Hexact Hex) as (E & Hlt & Hpct).
    split_and!; [done|apply totalTime_sum|done|]. intros t.
    rw totalTime_sum. split; [done|]. by rw Hpct.
  - intros Hex t Hel Htie. destruct (Hexact Hex) as (E & Hlt & Hpct).
    rw Hpct. unfold pct, pct_spec.
    destruct (0 <? sumElapsed ts) eqn:Hpos; [|done].
    apply Z.ltb_lt in Hpos. by apply FloatProps.percent_exact_off_ties.
  - apply sort_perm.
  - intros t. unfold summaryRows. rw sort_perm list_elem_of_filter. tauto.
  - apply sort_sorted.
  - intros k. apply sort_stable.
  - apply exactSums_run; [repeat constructor; simpl; lia|simpl; lia].
  - by vm_compute.
  - by vm_compute.
  - by vm_compute.
Qed.

Lemma derived_totals_witness :
  Doubles.exactSums ties
  ∧ Doubles.pctDouble ties (mkTask "d" "D" 300 true) = Some 19.
Proof.
  assert (Hex : Doubles.exactSums ties)
    by (apply exactSums_run; [repeat constructor; simpl; lia|simpl; lia]).
  split; [exact Hex|].
  pose proof (derived_totals ties) as (_ & Hpct & _).
  rw (Hpct Hex (mkTask "d" "D" 300 true)); by vm_compute.
Defined.

Example summary_of_ties :
  name <$> summaryRows ties = ["C"; "E"; "A"; "D"]
  ∧ pct (totalTime ties) <$> summaryRows ties = [Some 31; Some 31; Some 19; Some 19].
Proof. split; by vm_compute. Qed.

End SummaryProps.

(** ** The persistent store *)

Module StoreProps.
Import PersistentStore.

(** The claim C5 fails on the code for a payload of the wrong shape: the
    text [true] stored under the key of the task list parses, and the hook
    returns the boolean where an array is expected. *)
Lemma wrong_shape_is_returned :
  let env := Browser (Items {[ "switchboard-tasks" := "true" ]}) in
  isArray (JArr []) = true
  ∧ JSON_parse_keyword "true" = Some (JBool true)
  ∧ isArray (JBool true) = false
  ∧ observed JSON_parse_keyword env true "switchboard-tasks" (JArr []) = JBool true
  ∧ observed JSON_parse_keyword env true "switchboard-tasks" (JArr []) ≠ JArr [].
Proof.
  assert (Hobs : observed JSON_parse_keyword
                   (Browser (Items {[ "switchboard-tasks" := "true" ]})) true
                   "switchboard-tasks" (JArr []) = JBool true).
  { unfold observed, useLocalStorage, mount, readFromStorage; simpl.
    by rw lookup_singleton_eq. }
  split_and!; [done..|exact Hobs|]. by rw Hobs.
Qed.

Section Read.

Variable JSON_parse : string → option json.

Lemma readFromStorage_stored m key item initialValue :
  m !! key = Some item →
  readFromStorage JSON_parse (Browser (Items m)) key initialValue
  = if JS.truthy item then default initialValue (JSON_parse item) else initialValue.
Proof.
  intros Hm. unfold readFromStorage; simpl. rw Hm.
  destruct (JS.truthy item); [|done]. by destruct (JSON_parse item).
Qed.

(** C5, amended — the value observed through the hook is [initialValue]
    until hydration has completed, and also afterwards when there is no
    [window], when the storage raises, when nothing is stored under the
    key, when the stored text is empty and when [JSON.parse] raises on it;
    once hydration has completed, a stored text that parses is observed as
    the parsed value, whatever its shape. *)
Theorem hydration_safe_read
    (env : environment) (hydrated : bool) (key : string) (initialValue : json) :
  (hydrated = false → observed JSON_parse env hydrated key initialValue = initialValue)
  ∧ (env = Server → observed JSON_parse env hydrated key initialValue = initialValue)
  ∧ (env = Browser Blocked →
     observed JSON_parse env hydrated key initialValue = initialValue)
  ∧ (∀ m, env = Browser (Items m) → m !! key = None →
          observed JSON_parse env hydrated key initialValue = initialValue)
  ∧ (∀ m item, env = Browser (Items m) → m !! key = Some item →
               item = "" ∨ JSON_parse item = None →
               observed JSON_parse env hydrated key initialValue = initialValue)
  ∧ (∀ m item v, env = Browser (Items m) → m !! key = Some item →
                 item ≠ "" → JSON_parse item = Some v → hydrated = true →
                 observed JSON_parse env hydrated key initialValue = v).
Proof.
  unfold observed, useLocalStorage, mount; simpl. split_and!.
  - by intros ->.
  - intros ->. by destruct hydrated.
  - intros ->. by destruct hydrated.
  - intros m -> Hm. unfold readFromStorage; simpl. rw Hm. by destruct hydrated.
  - intros m item -> Hm Hbad. rw (readFromStorage_stored m key item) //.
    destruct hydrated; [|done]. destruct Hbad as [-> | ->]; [done|].
    by destruct (JS.truthy item).
  - intros m item v -> Hm Hne Hv ->. rw (readFromStorage_stored m key item) //.
    apply JSProps.truthy_true in Hne. by rw Hne Hv.
Qed.

End Read.

Lemma hydration_safe_read_witness :
  let m : gmap string string :=
    {[ "switchboard-active" := "null"; "switchboard-oled" := "tru" ]} in
  observed JSON_parse_keyword (Browser (Items m)) false "switchboard-active" (JStr "x")
  = JStr "x"
  ∧ observed JSON_parse_keyword (Browser (Items m)) true "switchboard-active" (JStr "x")
    = JNull
  ∧ observed JSON_parse_keyword (Browser (Items m)) true "switchboard-oled" (JBool false)
    = JBool false
  ∧ observed JSON_parse_keyword (Browser (Items m)) true "switchboard-tasks" (JArr [])
    = JArr []
  ∧ observed JSON_parse_keyword (Browser Blocked) true "switchboard-tasks" (JArr [])
    = JArr []
  ∧ observed JSON_parse_keyword Server true "switchboard-tasks" (JArr []) = JArr [].
Proof.
  intros m.
  assert (Hactive : m !! "switchboard-active" = Some "null") by (by vm_compute).
  assert (Holed : m !! "switchboard-oled" = Some "tru") by (by vm_compute).
  assert (Htasks : m !! "switchboard-tasks" = None) by (by vm_compute).
  split_and!.
  - pose proof (hydration_safe_read JSON_parse_keyword (Browser (Items m)) false
                  "switchboard-active" (JStr "x")) as (Hfirst & _).
    by apply Hfirst.
  - pose proof (hydration_safe_read JSON_parse_keyword (Browser (Items m)) true
                  "switchboard-active" (JStr "x")) as (_ & _ & _ & _ & _ & Hv).
    by apply (Hv m "null" JNull).
  - pose proof (hydration_safe_read JSON_parse_keyword (Browser (Items m)) true
                  "switchboard-oled" (JBool false)) as (_ & _ & _ & _ & Hbad & _).
    apply (Hbad m "tru"); [done..|by right].
  - pose proof (hydration_safe_read JSON_parse_keyword (Browser (Items m)) true
                  "switchboard-tasks" (JArr [])) as (_ & _ & _ & Hnone & _).
    by apply (Hnone m).
  - pose proof (hydration_safe_read JSON_parse_keyword (Browser Blocked) true
                  "switchboard-tasks" (JArr [])) as (_ & _ & Hblocked & _).
    by apply Hblocked.
  - pose proof (hydration_safe_read JSON_parse_keyword Server true
                  "switchboard-tasks" (JArr [])) as (_ & Hserver & _).
    by apply Hserver.
Defined.

End StoreProps.

(** ** The two components *)

Module VersionProps.
Import Versions.
Module O := Switchboard.
Module R := SwitchboardOled.

Lemma view_applyUpdate s u u' :
  sameUpdate u u' → view (R.applyUpdate s u) = O.applyUpdate (view s) u'.
Proof.
  intros [v|f g Hfg]; unfold view; simpl; [done|]. by rw Hfg.
Qed.

Lemma view_foldl batch batch' : ∀ s,
  Forall2 sameUpdate batch batch' →
  view (foldl R.applyUpdate s batch) = foldl O.applyUpdate (view s) batch'.
Proof.
  intros s Hb. revert s. induction Hb as [|u u' b b' Hu Hb IH]; intros s; [done|].
  simpl. by rw IH (view_applyUpdate s u u').
Qed.

Lemma view_timerEffect now s : view (R.timerEffect now s) = O.timerEffect now (view s).
Proof.
  unfold R.timerEffect, O.timerEffect, view; simpl.
  by destruct (JS.truthyOpt (R.activeTaskId s)).
Qed.

Lemma view_commit now batch batch' s :
  Forall2 sameUpdate batch batch' →
  view (R.commit now batch s) = O.commit now batch' (view s).
Proof.
  intros Hb. unfold R.commit, O.commit, R.rerender, O.rerender.
  rw -(view_foldl batch batch' s Hb).
  change (O.activeTaskId (view ?x)) with (R.activeTaskId x).
  case_bool_decide; [done|]. apply view_timerEffect.
Qed.

Lemma existsb_taskView (p : string → bool) (l : list R.Task) :
  existsb (λ t, p (R.name t)) l = existsb (λ t, p (O.name t)) (taskView <$> l).
Proof. induction l as [|t l IH]; [done|]. simpl. by rw IH. Qed.

Lemma filter_taskView x (l : list R.Task) :
  taskView <$> filter (λ t, R.id t ≠ x) l = filter (λ t, O.id t ≠ x) (taskView <$> l).
Proof.
  induction l as [|t l IH]; [done|].
  rw fmap_cons !filter_cons /=. case_decide; by rw ?fmap_cons IH.
Qed.

Lemma credit_taskView a d t : taskView (R.credit a d t) = O.credit a d (taskView t).
Proof. unfold R.credit, O.credit; simpl. by case_bool_decide. Qed.

Lemma same_startTask x : Forall2 sameUpdate (R.startTask x) (O.startTask x).
Proof. repeat constructor. Qed.

Lemma same_pauseTask : Forall2 sameUpdate R.pauseTask O.pauseTask.
Proof. repeat constructor. Qed.

Lemma same_toggleTask s x :
  Forall2 sameUpdate (R.toggleTask s x) (O.toggleTask (view s) x).
Proof.
  unfold R.toggleTask, O.toggleTask; simpl.
  case_bool_decide; auto using same_startTask, same_pauseTask.
Qed.

Lemma same_addTask s now random36 name0 isDevOps0 :
  Forall2 sameUpdate (R.addTask s now random36 name0 isDevOps0)
                     (O.addTask (view s) now random36 name0 isDevOps0).
Proof.
  unfold R.addTask, O.addTask; simpl.
  destruct (JS.truthy (JS.trim name0)); simpl; [|constructor].
  rw -(existsb_taskView
         (λ n, String.eqb (JS.toLowerCase n) (JS.toLowerCase (JS.trim name0)))).
  destruct (existsb _ _); repeat constructor.
  intros l. by rw fmap_app.
Qed.

Lemma same_removeTask s x :
  Forall2 sameUpdate (R.removeTask s x) (O.removeTask (view s) x).
Proof.
  unfold R.removeTask, O.removeTask; simpl.
  case_bool_decide; repeat constructor; apply filter_taskView.
Qed.

Lemma same_handleAddCustomTask s now random36 newTaskName :
  Forall2 sameUpdate (R.handleAddCustomTask s now random36 newTaskName)
                     (O.handleAddCustomTask (view s) now random36 newTaskName).
Proof.
  unfold R.handleAddCustomTask, O.handleAddCustomTask.
  destruct (JS.truthy (JS.trim newTaskName)); [|constructor].
  apply same_addTask.
Qed.

Lemma view_tick now s : view (R.tick now s) = O.tick now (view s).
Proof.
  unfold R.tick, O.tick. change (O.interval (view s)) with (R.interval s).
  change (O.activeStartRef (view s)) with (R.activeStartRef s).
  destruct (R.interval s) as [a|]; [|done].
  erewrite view_commit; [reflexivity|].
  repeat constructor. intros l. rw -!list_fmap_compose.
  apply list_fmap_ext. intros _ t _. apply credit_taskView.
Qed.

Lemma settings_commit now batch s : settings (R.commit now batch s) = settings s.
Proof.
  unfold R.commit, R.rerender.
  assert (Hf : ∀ s', settings (foldl R.applyUpdate s' batch) = settings s').
  { induction batch as [|u b IH]; intros s'; [done|]. simpl. rw IH. by destruct u. }
  case_bool_decide; [apply Hf|].
  unfold R.timerEffect. rw -(Hf s).
  by destruct (negb _).
Qed.

(** C10 — the timer core of the revised component is the one of the
    original component: on every state and for every operation with the same
    arguments, clock reading and random draw, the task collection, the active
    id, the reference cell and the interval of the revised component are
    those the original component computes from the same values (a refinement
    through [view]), and the revised component's settings are untouched. *)
Theorem versions_agree (now : Z) (op : operation) (s : SwitchboardOled.EngineState) :
  view (stepRevised now op s) = stepOriginal now op (view s)
  ∧ taskView <$> SwitchboardOled.tasks (stepRevised now op s)
    = Switchboard.tasks (stepOriginal now op (view s))
  ∧ SwitchboardOled.activeTaskId (stepRevised now op s)
    = Switchboard.activeTaskId (stepOriginal now op (view s))
  ∧ settings (stepRevised now op s) = settings s.
Proof.
  assert (Hview : view (stepRevised now op s) = stepOriginal now op (view s)).
  { destruct op; simpl;
      first [ apply view_tick
            | apply view_commit;
              auto using same_startTask, same_pauseTask, same_toggleTask,
                same_addTask, same_removeTask, same_handleAddCustomTask ]. }
  split_and!; [done|by rw -Hview..|].
  destruct op; simpl; try apply settings_commit.
  unfold R.tick. destruct (R.interval s); [|done]. by rw settings_commit.
Qed.

End VersionProps.

(** ** The clock text *)

Module DisplayProps.
Import JS Display FloatProps.

(** A multiple [m] of nothing in particular that is within half a unit of
    [a * S / b] has the integer part of [a / b] once divided by [S], as
    long as [S] exceeds half of [b]. *)
Lemma floor_scaled a b m S :
  0 ≤ a → 0 < b → 0 < S → b < 2 * S →
  2 * Z.abs (m * b - a * S) ≤ b →
  m / S = a / b.
Proof.
  intros Ha Hb HS HbS Hnear.
  pose proof (Z.div_mod a b ltac:(lia)) as Hdm.
  pose proof (Z.mod_pos_bound a b Hb) as Hr.
  set (k := a / b) in *. set (r := a mod b) in *.
  assert (HaS : a * S = k * S * b + r * S) by (rw Hdm; ring).
  assert (HrS : 0 ≤ r * S ≤ (b - 1) * S).
  { split; [apply Z.mul_nonneg_nonneg; lia|apply Z.mul_le_mono_nonneg_r; lia]. }
  symmetry. apply (Z.div_unique_pos _ _ _ (m - S * k)); [|lia].
  split.
  - (* k S <= m *)
    destruct (Z.le_gt_cases (k * S) m) as [|Hlt]; [lia|]. exfalso.
    assert ((m + 1) * b ≤ k * S * b) by (apply Z.mul_le_mono_nonneg_r; lia). lia.
  - destruct (Z.lt_ge_cases m ((k + 1) * S)) as [|Hge]; [lia|]. exfalso.
    assert ((k + 1) * S * b ≤ m * b) by (apply Z.mul_le_mono_nonneg_r; lia). lia.
Qed.

(** Below 2^53 the quotient of two integers, divided as doubles and
    floored, is their integer quotient. *)
Lemma floor_fdiv_exact a b :
  0 ≤ a → 0 < b → a + b < 2 ^ 53 →
  Math_floor (fdiv (ofZ a) (ofZ b)) = Some (a / b).
Proof.
  intros Ha Hb Hab.
  destruct (ofZ_exact b ltac:(lia)) as (m2 & e2 & E2 & Hm2 & He2 & Hm2b & _).
  destruct (Z.eq_dec a 0) as [->|Ha0].
  { rw E2. by vm_compute. }
  destruct (ofZ_exact a ltac:(lia)) as (m1 & e1 & E1 & Hm1 & He1 & Hm1a & _).
  rw E1 E2.
  destruct (fdiv_spec m1 e1 m2 e2) as (mq & eq & -> & Hmq & Heq & Hdiv);
    [done|done|lia|lia|].
  set (n := eq - (e1 - e2 - 53)) in *.
  set (al := - e1) in *. set (be := - e2) in *.
  assert (Hn0 : 0 < 2 ^ n) by (apply Z.pow_pos_nonneg; lia).
  assert (Hb0 : 0 < 2 ^ be) by (apply Z.pow_pos_nonneg; lia).
  assert (Ha0' : 0 < 2 ^ al) by (apply Z.pow_pos_nonneg; lia).
  unfold Math_floor. f_equal.
  destruct (Z.leb_spec 0 eq) as [Hpos|Hneg].
  - (* the quotient would need 53 bits before the point *)
    set (T := 2 ^ eq).
    assert (HT : 0 < T) by (apply Z.pow_pos_nonneg; lia).
    assert (Hexp : 2 ^ n * 2 ^ be = 2 ^ al * 2 ^ 53 * T).
    { unfold T. rw -!Z.pow_add_r; [lia..|]. f_equal. lia. }
    set (H := 2 ^ al * 2 ^ 53) in *.
    assert (HH : 0 < H) by (unfold H; lia).
    assert (Hnear : 2 * Z.abs (Z.pos mq * T * b - a) ≤ T * b).
    { apply (cancel_le H); [done|].
      replace (H * (2 * Z.abs (Z.pos mq * T * b - a)))
        with (2 * Z.abs (H * (Z.pos mq * T * b - a)))
        by (rw Z.abs_mul (Z.abs_eq H); [lia|ring]).
      replace (H * (Z.pos mq * T * b - a))
        with (Z.pos mq * 2 ^ n * Z.pos m2 - Z.pos m1 * 2 ^ 53).
      2:{ rw Hm2b Hm1a. unfold H.
          replace (Z.pos mq * 2 ^ n * (b * 2 ^ be)) with (Z.pos mq * b * (2 ^ n * 2 ^ be))
            by ring.
          rw Hexp. unfold H. ring. }
      replace (H * (T * b)) with (2 ^ n * Z.pos m2); [done|].
      rw Hm2b. replace (2 ^ n * (b * 2 ^ be)) with (b * (2 ^ n * 2 ^ be)) by ring.
      rw Hexp. ring. }
    assert (HTb : 1 ≤ T * b) by nia.
    assert (Hbig : 2 ^ 52 * (T * b) ≤ Z.pos mq * T * b).
    { replace (Z.pos mq * T * b) with (Z.pos mq * (T * b)) by ring.
      apply Z.mul_le_mono_nonneg_r; lia. }
    assert (HTb1 : T * b = 1).
    { destruct (Z.eq_dec (T * b) 1); [done|]. exfalso.
      change (2 ^ 53) with (2 * 2 ^ 52) in *. lia. }
    assert (T = 1 ∧ b = 1) as [HT1 ->] by nia.
    rw HT1 in Hnear. rw Z.div_1_r. change (2 ^ eq) with T. rw HT1. lia.
  - set (S := 2 ^ (- eq)).
    assert (HS : 0 < S) by (apply Z.pow_pos_nonneg; lia).
    assert (Hexp : 2 ^ n * 2 ^ be * S = 2 ^ al * 2 ^ 53).
    { unfold S. rw -!Z.pow_add_r; [lia..|]. f_equal. lia. }
    set (G := 2 ^ n * 2 ^ be) in *.
    assert (HG : 0 < G) by (unfold G; lia).
    assert (Hnear : 2 * Z.abs (Z.pos mq * b - a * S) ≤ b).
    { apply (cancel_le G); [done|].
      replace (G * (2 * Z.abs (Z.pos mq * b - a * S)))
        with (2 * Z.abs (G * (Z.pos mq * b - a * S)))
        by (rw Z.abs_mul (Z.abs_eq G); [lia|ring]).
      replace (G * (Z.pos mq * b - a * S))
        with (Z.pos mq * 2 ^ n * Z.pos m2 - Z.pos m1 * 2 ^ 53).
      2:{ rw Hm2b Hm1a.
          replace (a * 2 ^ al * 2 ^ 53) with (a * (2 ^ al * 2 ^ 53)) by ring.
          rw -Hexp. unfold G. ring. }
      replace (G * b) with (2 ^ n * Z.pos m2); [done|].
      rw Hm2b. unfold G. ring. }
    apply floor_scaled; try done.
    destruct (Z.lt_ge_cases b (2 * S)) as [|Hge]; [done|]. exfalso.
    assert (H1 : 2 ^ 52 * b ≤ Z.pos mq * b) by (apply Z.mul_le_mono_nonneg_r; lia).
    assert (H2 : a * (2 * S) ≤ a * b) by (apply Z.mul_le_mono_nonneg_l; lia).
    assert (H3 : a * b + b ≤ (2 ^ 53 - 1) * b).
    { replace (a * b + b) with ((a + 1) * b) by ring.
      apply Z.mul_le_mono_nonneg_r; lia. }
    change (2 ^ 53) with (2 * 2 ^ 52) in *. lia.
Qed.

Lemma append_assoc (s1 s2 s3 : string) : (s1 +:+ s2) +:+ s3 = s1 +:+ (s2 +:+ s3).
Proof. induction s1 as [|c s1 IH]; [done|]. by rw !JSProps.append_cons IH. Qed.

Lemma length_append (s1 s2 : string) :
  String.length (s1 +:+ s2) = (String.length s1 + String.length s2)%nat.
Proof. induction s1 as [|c s1 IH]; [done|]. rw JSProps.append_cons. simpl. by rw IH. Qed.

Lemma digit10_value d :
  0 ≤ d < 10 → digitValue (digit10 d) = d ∧ Ascii.eqb (digit10 d) ":" = false.
Proof.
  intros Hd.
  assert (d = 0 ∨ d = 1 ∨ d = 2 ∨ d = 3 ∨ d = 4 ∨ d = 5 ∨ d = 6 ∨ d = 7 ∨ d = 8 ∨ d = 9)
    as Hcases by lia.
  repeat (destruct Hcases as [->|Hcases]; [by vm_compute|]). subst d. by vm_compute.
Qed.

Lemma toString10_pos_acc fuel : ∀ n acc,
  toString10_pos fuel n acc = toString10_pos fuel n "" +:+ acc.
Proof.
  induction fuel as [|fuel IH]; intros n acc; simpl; [done|].
  destruct (n <? 10); [done|].
  rw IH (IH _ (String _ "")) append_assoc. done.
Qed.

Lemma readClock_toString10 fuel : ∀ n acc total,
  0 ≤ n < 10 ^ Z.of_nat fuel →
  readClock total 0 (toString10_pos fuel n acc) = readClock total n acc.
Proof.
  induction fuel as [|fuel IH]; intros n acc total Hn.
  { simpl in *. by replace n with 0 by lia. }
  rw Nat2Z.inj_succ Z.pow_succ_r in Hn; [lia|].
  pose proof (Z.mod_pos_bound n 10 ltac:(lia)) as Hd.
  destruct (digit10_value (n mod 10) Hd) as [Hv Hc].
  simpl. destruct (Z.ltb_spec n 10) as [Hlt|Hge].
  - simpl. rw Hc Hv Z.mod_small; [lia|]. done.
  - rw IH.
    { split; [apply Z.div_pos; lia|apply Z.div_lt_upper_bound; lia]. }
    simpl. rw Hc Hv. f_equal. pose proof (Z.div_mod n 10 ltac:(lia)). lia.
Qed.

Lemma log2_fuel n : 0 < n → n < 10 ^ Z.of_nat (S (Z.to_nat (Z.log2 n))).
Proof.
  intros Hn. pose proof (Z.log2_nonneg n) as Hl.
  rw Nat2Z.inj_succ Z2Nat.id //.
  pose proof (Z.log2_spec n Hn) as [_ Hup].
  assert (2 ^ Z.succ (Z.log2 n) ≤ 10 ^ Z.succ (Z.log2 n)); [|lia].
  apply Z.pow_le_mono_l. lia.
Qed.

(** A number field, padded or not, reads back as the number. *)
Lemma readClock_field n rest total :
  0 ≤ n → readClock total 0 (padStart0 2 (String_ofInt n) +:+ rest) = readClock total n rest.
Proof.
  intros Hn. unfold padStart0. rw append_assoc.
  generalize (2 - String.length (String_ofInt n))%nat. intros k.
  induction k as [|k IH]; simpl zeros.
  - rw JSProps.append_nil. destruct n as [|p|p]; [done| |lia].
    unfold String_ofInt. rw -toString10_pos_acc readClock_toString10 //.
    split; [lia|]. by apply log2_fuel.
  - rw JSProps.append_cons. simpl. exact IH.
Qed.

Lemma readClock_text h m s :
  0 ≤ h → 0 ≤ m → 0 ≤ s →
  readClock 0 0 (padStart0 2 (String_ofInt h) +:+ ":"
                 +:+ padStart0 2 (String_ofInt m) +:+ ":"
                 +:+ padStart0 2 (String_ofInt s))
  = (h * 60 + m) * 60 + s.
Proof.
  intros Hh Hm Hs. rw readClock_field // JSProps.append_cons JSProps.append_nil. simpl.
  rw readClock_field // JSProps.append_cons JSProps.append_nil. simpl.
  rw -(JSProps.append_nil_r (padStart0 2 (String_ofInt s))) readClock_field //.
Qed.

Lemma two_digits n : 0 ≤ n < 100 → String.length (padStart0 2 (String_ofInt n)) = 2%nat.
Proof.
  intros Hn.
  assert (Hall : Forall (λ k, String.length (padStart0 2 (String_ofInt k)) = 2%nat)
                        (seqZ 0 100)) by by_compute.
  rw Forall_forall in Hall. apply Hall, elem_of_seqZ. lia.
Qed.

(** The three fields, in exact arithmetic. *)
Lemma formatTime_exact ms :
  0 ≤ ms → ms + 1000 < 2 ^ 53 →
  formatTime ms
  = Some (padStart0 2 (String_ofInt (ms / 1000 / 3600)) +:+ ":"
          +:+ padStart0 2 (String_ofInt (ms / 1000 mod 3600 / 60)) +:+ ":"
          +:+ padStart0 2 (String_ofInt (ms / 1000 mod 60))).
Proof.
  intros Hms Hhi. unfold formatTime.
  assert (Hts : 0 ≤ ms / 1000 ≤ ms).
  { split; [apply Z.div_pos; lia|]. apply Z.div_le_upper_bound; lia. }
  assert (Hts' : ms / 1000 < 2 ^ 44) by (apply Z.div_lt_upper_bound; lia).
  pose proof (Z.mod_pos_bound (ms / 1000) 3600 ltac:(lia)) as Hm.
  rw floor_fdiv_exact //. cbn [mbind option_bind].
  rw !Z.rem_mod_nonneg; [lia..|].
  rw (floor_fdiv_exact (ms / 1000)); [lia..|]. cbn [mbind option_bind].
  rw floor_fdiv_exact; [lia..|]. done.
Qed.

(** X1.  For a time of [ms] milliseconds, [0 <= ms] and below 2^53 - 1000,
    [formatTime] returns the text [hh:mm:ss] of the whole seconds
    [ms div 1000]: the hours [ms div 3600000], the minutes
    [(ms div 60000) mod 60] and the seconds [(ms div 1000) mod 60], each
    padded to two digits; the three divisions, carried out on doubles and
    floored, lose nothing.  The minutes and the seconds are below 60 and
    always two characters wide, the fields add up to the whole seconds, and
    below 100 hours the hours are two characters wide too. *)
Theorem formatTime_fields (ms : Z) :
  0 ≤ ms → ms + 1000 < 2 ^ 53 →
  let h := ms / 3600000 in
  let m := ms / 60000 mod 60 in
  let s := ms / 1000 mod 60 in
  formatTime ms
  = Some (padStart0 2 (String_ofInt h) +:+ ":"
          +:+ padStart0 2 (String_ofInt m) +:+ ":"
          +:+ padStart0 2 (String_ofInt s))
  ∧ 0 ≤ h ∧ 0 ≤ m < 60 ∧ 0 ≤ s < 60
  ∧ (h * 60 + m) * 60 + s = ms / 1000
  ∧ String.length (padStart0 2 (String_ofInt m)) = 2%nat
  ∧ String.length (padStart0 2 (String_ofInt s)) = 2%nat
  ∧ (ms < 360000000 → String.length (padStart0 2 (String_ofInt h)) = 2%nat).
Proof.
  intros Hms Hhi h m s.
  assert (Hh : h = ms / 1000 / 3600) by (unfold h; Z.div_mod_to_equations; lia).
  assert (Hm : m = ms / 1000 mod 3600 / 60) by (unfold m; Z.div_mod_to_equations; lia).
  assert (Hb : 0 ≤ h ∧ 0 ≤ m < 60 ∧ 0 ≤ s < 60 ∧ (h * 60 + m) * 60 + s = ms / 1000
               ∧ (ms < 360000000 → h < 100)).
  { unfold h, m, s. Z.div_mod_to_equations. lia. }
  destruct Hb as (Hh0 & Hm0 & Hs0 & Hsum & Hh100).
  split_and!; try lia.
  - by rw formatTime_exact // -Hh -Hm.
  - apply two_digits. lia.
  - apply two_digits. lia.
  - intros Hlt. apply two_digits. lia.
Qed.

Lemma formatTime_fields_witness :
  formatTime 3723004 = Some "01:02:03"
  ∧ formatTime 0 = Some "00:00:00"
  ∧ formatTime 360000000999 = Some "100000:00:00".
Proof.
  split_and!.
  - exact (proj1 (formatTime_fields 3723004 ltac:(lia) ltac:(lia))).
  - exact (proj1 (formatTime_fields 0 ltac:(lia) ltac:(lia))).
  - exact (proj1 (formatTime_fields 360000000999 ltac:(lia) ltac:(lia))).
Defined.

(** X2.  Two times below 2^53 - 1000 ms are shown by [formatTime] with the
    same text exactly when they have the same number of whole seconds: the
    text loses the milliseconds and nothing else. *)
Theorem formatTime_same_second (ms1 ms2 : Z) :
  0 ≤ ms1 → ms1 + 1000 < 2 ^ 53 → 0 ≤ ms2 → ms2 + 1000 < 2 ^ 53 →
  formatTime ms1 = formatTime ms2 ↔ ms1 / 1000 = ms2 / 1000.
Proof.
  intros H1 H1' H2 H2'. rw !formatTime_exact //. split.
  - intros [= Heq]. apply (f_equal (readClock 0 0)) in Heq. move: Heq.
    rw !readClock_text; [Z.div_mod_to_equations; lia..|].
    Z.div_mod_to_equations. lia.
  - by intros ->.
Qed.

Lemma formatTime_same_second_witness :
  formatTime 59000 = formatTime 59999 ∧ formatTime 59999 ≠ formatTime 60000.
Proof.
  pose proof (formatTime_same_second 59000 59999
                ltac:(lia) ltac:(lia) ltac:(lia) ltac:(lia)) as H1.
  pose proof (formatTime_same_second 59999 60000
                ltac:(lia) ltac:(lia) ltac:(lia) ltac:(lia)) as H2.
  split.
  - apply H1. reflexivity.
  - intros H. apply H2 in H. discriminate H.
Defined.

End DisplayProps.

(** ** The timer along whole sessions *)

Module SessionProps.
Import Switchboard Controls Scenarios.
Import JSProps TimerProps.

Lemma truthyOpt_Some o : JS.truthyOpt o = true → ∃ x, o = Some x ∧ JS.truthy x = true.
Proof. destruct o as [x|]; [by exists x|done]. Qed.

Lemma timerEffect_cells now s :
  activeStartRef (timerEffect now s) = None ↔ interval (timerEffect now s) = None.
Proof.
  unfold timerEffect. destruct (JS.truthyOpt (activeTaskId s)) eqn:E; simpl; [|done].
  apply truthyOpt_Some in E as (x & -> & _). done.
Qed.

Lemma commit_settled now batch s : settled s → settled (commit now batch s).
Proof.
  intros [Hc Hcells]. split; [by apply commit_coherent|].
  unfold commit, rerender. destruct (foldl_applyUpdate_cells batch s) as [Hr Hi].
  case_bool_decide; [by rw Hr Hi|]. apply timerEffect_cells.
Qed.

Lemma tick_settled now s : settled s → settled (tick now s).
Proof.
  intros [Hc Hcells]. split; [by apply tick_coherent|].
  destruct (decide (interval s = None)) as [E|E]; [by rw tick_idle|].
  destruct (interval s) as [a|] eqn:E'; [|done].
  by rw (tick_running now s a).
Qed.

Lemma step_settled s ev : settled s → settled (step s ev).
Proof.
  intros Hs. unfold step. destruct ev.2; first [by apply commit_settled|by apply tick_settled].
Qed.

Lemma run_settled evs : ∀ s, settled s → settled (run evs s).
Proof.
  induction evs as [|ev evs IH]; intros s Hs; [done|]. apply IH. by apply step_settled.
Qed.

Lemma startup_settled now storedTasks storedActive :
  settled (startup now storedTasks storedActive).
Proof.
  split; [apply startup_coherent|]. unfold startup, rerender.
  case_bool_decide; [done|]. apply timerEffect_cells.
Qed.

Lemma settled_idle s : coherent s → activeTaskId s = None → interval s = None.
Proof. unfold coherent. by intros -> ->. Qed.

Lemma ticks_idle nows : ∀ s, interval s = None → ticks nows s = s.
Proof.
  induction nows as [|now nows IH]; intros s Hs; [done|].
  unfold ticks. simpl. rw tick_idle //. by apply IH.
Qed.

(** X3.  "Clear All Tasks", once confirmed, brings any session back to
    the state of the first render: no task, no active id, the reference
    cell empty and no interval alive, whatever was stored at startup and
    whatever happened since. *)
Theorem clearAll_resets
    (now0 : Z) (storedTasks : list Task) (storedActive : option string)
    (evs : list (Z * command)) (now : Z) :
  step (run evs (startup now0 storedTasks storedActive)) (now, ClearAll) = firstRender.
Proof.
  pose proof (run_settled evs _ (startup_settled now0 storedTasks storedActive)) as Hs.
  set (s := run evs _) in *. destruct Hs as [Hc Hcells].
  unfold step, handler, clearAll, commit, rerender, firstRender. simpl.
  case_bool_decide as Ha.
  - symmetry in Ha. pose proof (settled_idle s Hc Ha) as Hi.
    by rw Hi (proj2 Hcells Hi).
  - unfold timerEffect. done.
Qed.

(** X4.  While no task is active no time is credited: in a state left by
    the timer effect with no active id, the interval firings change
    nothing, and [pauseTask] leads to such a state from any state the
    effect has left. *)
Theorem idle_no_accrual (s : EngineState) (now : Z) (nows : list Z) :
  coherent s →
  (activeTaskId s = None → ticks nows s = s)
  ∧ activeTaskId (commit now pauseTask s) = None
  ∧ tasks (commit now pauseTask s) = tasks s
  ∧ ticks nows (commit now pauseTask s) = commit now pauseTask s.
Proof.
  intros Hc.
  assert (Hidle : ∀ s', coherent s' → activeTaskId s' = None → ticks nows s' = s').
  { intros s' Hc' Ha. apply ticks_idle. by apply settled_idle. }
  assert (Hp : activeTaskId (commit now pauseTask s) = None) by by rw commit_active.
  split_and!; [by apply Hidle|done|by rw commit_tasks|].
  apply Hidle; [by apply commit_coherent|done].
Qed.

Lemma idle_no_accrual_witness :
  let s := run abc_events (startup 0 threeTasks None) in
  activeTaskId s = Some "c"
  ∧ ticks [5000; 6000] (commit 4500 pauseTask s) = commit 4500 pauseTask s.
Proof.
  split; [reflexivity|].
  apply (idle_no_accrual (run abc_events (startup 0 threeTasks None)) 4500 [5000; 6000]).
  reflexivity.
Defined.

Lemma sumElapsed_credit x d ts :
  sumElapsed (credit x d <$> ts) = sumElapsed ts + d * countId x ts.
Proof.
  unfold countId. induction ts as [|t ts IH]; simpl; [lia|].
  rw IH credit_elapsed filter_cons. case_bool_decide.
  - rw decide_True //. simpl length. lia.
  - rw decide_False //. lia.
Qed.

Lemma countId_absent x ts : x ∉ ids ts → countId x ts = 0.
Proof.
  unfold countId, ids. induction ts as [|t ts IH]; [done|].
  rw fmap_cons not_elem_of_cons filter_cons. intros [Hne Hts].
  rw decide_False; [done|]. by apply IH.
Qed.

Lemma countId_unique x ts : uniqueIds ts → x ∈ ids ts → countId x ts = 1.
Proof.
  unfold uniqueIds, ids. induction ts as [|t ts IH]; [by rw elem_of_nil|].
  rw fmap_cons NoDup_cons elem_of_cons. intros [Hnot Hnd] Hin.
  unfold countId. rw filter_cons. destruct (decide (id t = x)) as [E|E].
  - subst x. apply countId_absent in Hnot. unfold countId in Hnot. simpl length. lia.
  - destruct Hin as [?|Hin]; [done|]. by apply IH.
Qed.

Lemma elapsed_le_sum ts t :
  Forall (λ t, 0 ≤ elapsed t) ts → t ∈ ts → 0 ≤ elapsed t ≤ sumElapsed ts.
Proof.
  intros Hpos. induction Hpos as [|t' ts Ht' Hpos IH]; [by rw elem_of_nil|].
  assert (0 ≤ sumElapsed ts) by (clear -Hpos; induction Hpos; simpl; lia).
  rw elem_of_cons. simpl. intros [->|Hin]; [lia|]. specialize (IH Hin). lia.
Qed.

Lemma countId_elem x ts t : t ∈ ts → id t = x → 1 ≤ countId x ts.
Proof.
  intros Hin Hid. unfold countId.
  assert (Hf : t ∈ filter (λ t, id t = x) ts) by by apply list_elem_of_filter.
  destruct (filter (λ t, id t = x) ts); [by apply elem_of_nil in Hf|simpl; lia].
Qed.

(** X5.  While an interval runs for the id [x], from the reading [now0]
    of the reference cell and along increasing readings, its firings add
    to the total of all tasks the wall time between [now0] and the last
    firing, once for each task that carries the id [x]: exactly that time
    when [x] names one task, nothing when it names none.  This is for
    integer readings below 2^53 in magnitude, times that are not negative
    and a final total below 2^53 ms: there every sum the callback and the
    total compute on doubles is the integer sum. *)
Theorem ticks_conserve_time (s : EngineState) (x : string) (now0 : Z) (nows : list Z) :
  interval s = Some x → activeStartRef s = Some now0 →
  Sorted Z.lt (now0 :: nows) →
  Doubles.safe now0 → Forall Doubles.safe nows →
  Forall (λ t, 0 ≤ elapsed t) (tasks s) →
  let wall := default now0 (last nows) - now0 in
  wall < 2 ^ 53 →
  totalTime (tasks s) + wall * countId x (tasks s) < 2 ^ 53 →
  totalTime (tasks (ticks nows s)) = totalTime (tasks s) + wall * countId x (tasks s)
  ∧ Doubles.totalTimeDouble (tasks (ticks nows s))
    = JS.ofZ (totalTime (tasks s) + wall * countId x (tasks s))
  ∧ (∀ k now, nows !! k = Some now →
       let before := ticks (take k nows) s in
       let lastTick := default now0 (last (take k nows)) in
       Doubles.deltaDouble now (activeStartRef before) = JS.ofZ (now - lastTick)
       ∧ ∀ i t, tasks before !! i = Some t → id t = x →
           Doubles.creditDouble (Doubles.deltaDouble now (activeStartRef before)) t
           = JS.ofZ (elapsed t + (now - lastTick)))
  ∧ (uniqueIds (tasks s) → x ∈ ids (tasks s) →
     totalTime (tasks (ticks nows s)) = totalTime (tasks s) + wall
     ∧ Doubles.totalTimeDouble (tasks (ticks nows s)) = JS.ofZ (totalTime (tasks s) + wall))
  ∧ (x ∉ ids (tasks s) →
     totalTime (tasks (ticks nows s)) = totalTime (tasks s)
     ∧ Doubles.totalTimeDouble (tasks (ticks nows s)) = JS.ofZ (totalTime (tasks s))).
Proof.
  intros Hi Hr Hs Hs0 Hsn Hpos wall Hwall Hsum.
  pose proof (Sorted_lt_last _ _ Hs) as Hw0. fold wall in Hw0.
  assert (Hwall0 : 0 ≤ wall) by (unfold wall; lia).
  assert (Hcnt : 0 ≤ countId x (tasks s)) by (unfold countId; lia).
  assert (Htasks : tasks (ticks nows s) = credit x wall <$> tasks s)
    by (by rw (ticks_running nows s x now0)).
  assert (H : totalTime (tasks (ticks nows s))
              = totalTime (tasks s) + wall * countId x (tasks s)).
  { by rw Htasks !SummaryProps.totalTime_sum sumElapsed_credit. }
  assert (HD : Doubles.totalTimeDouble (tasks (ticks nows s))
               = JS.ofZ (totalTime (tasks s) + wall * countId x (tasks s))).
  { rw -H. apply DoubleProps.totalTimeDouble_exact, DoubleProps.exactFrom_nonneg; [done| |].
    - rw Htasks. apply Forall_fmap. eapply Forall_impl; [exact Hpos|].
      intros t Ht. simpl in *. rw credit_elapsed. case_bool_decide; lia.
    - rw -SummaryProps.totalTime_sum H. lia. }
  split_and!; [done|done| | |].
  - intros k now Hk.
    apply (ticks_on_doubles s x now0 nows k now); try done.
    + unfold Doubles.safe. fold wall. lia.
    + apply Forall_forall. intros t Hin Hid. fold wall.
      pose proof (elapsed_le_sum _ _ Hpos Hin) as He.
      pose proof (countId_elem x _ t Hin Hid) as Hc.
      rw SummaryProps.totalTime_sum in Hsum.
      assert (wall * 1 ≤ wall * countId x (tasks s))
        by (apply Z.mul_le_mono_nonneg_l; lia).
      unfold Doubles.safe. lia.
  - intros Hu Hin. rw H HD countId_unique //. rw Z.mul_1_r. done.
  - intros Hnot. rw H HD countId_absent //. rw Z.mul_0_r Z.add_0_r. done.
Qed.

Lemma ticks_conserve_time_witness :
  let s := commit 0 (startTask "a") (startup 0 hundreds None) in
  totalTime (tasks s) = 1000
  ∧ totalTime (tasks (ticks [1000; 2500; 3000] s)) = 1000 + (3000 - 0)
  ∧ Doubles.totalTimeDouble (tasks (ticks [1000; 2500; 3000] s)) = JS.ofZ 4000.
Proof.
  split; [reflexivity|].
  refine ((proj1 (proj2 (proj2 (proj2 (ticks_conserve_time
                   (commit 0 (startTask "a") (startup 0 hundreds None))
                   "a" 0 [1000; 2500; 3000] _ _ _ _ _ _ _ _))))) _ _).
  - reflexivity.
  - reflexivity.
  - repeat constructor.
  - unfold Doubles.safe. lia.
  - repeat constructor; unfold Doubles.safe; lia.
  - repeat constructor; simpl; lia.
  - simpl. lia.
  - by vm_compute.
  - by_compute.
  - by_compute.
Defined.





Lemma toString36_pos_nonempty fuel : ∀ n acc,
  acc ≠ "" → JS.toString36_pos fuel n acc ≠ "".
Proof.
  induction fuel as [|fuel IH]; intros n acc Hacc; simpl; [done|].
  destruct (n <? 36); [done|]. by apply IH.
Qed.

Lemma generateId_nonempty now random36 : generateId now random36 ≠ "".
Proof.
  unfold generateId.
  assert (H : JS.toString36 now ≠ "").
  { destruct now as [|p|p]; simpl; [done| |done].
    destruct (Z.pos p <? 36); [done|]. by apply toString36_pos_nonempty. }
  destruct (JS.toString36 now); [done|]. by rw append_cons.
Qed.

(** X8.  [startTask] brings an interval to life exactly when the id is
    not empty.  The ids [generateId] makes are never empty, so a task made
    by [addTask] can always be timed; with the empty id the task shows as
    active, but no interval exists and no firing ever credits it. *)
Theorem startTask_interval (s : EngineState) (now : Z) (x : string) :
  let s' := commit now (startTask x) s in
  (∀ now0 random36, JS.truthy (generateId now0 random36) = true)
  ∧ (activeTaskId s ≠ Some x → JS.truthy x = true →
     interval s' = Some x ∧ activeStartRef s' = Some now)
  ∧ (activeTaskId s ≠ Some x → x = "" →
     isActive s' "" = true ∧ interval s' = None ∧ activeStartRef s' = None
     ∧ ∀ nows, ticks nows s' = s').
Proof.
  intros s'.
  assert (Hs' : activeTaskId s ≠ Some x →
                s' = timerEffect now (mkState (tasks s) (Some x) (activeStartRef s)
                                              (interval s))).
  { intros Hne. unfold s', commit, rerender, startTask. simpl.
    rw bool_decide_false; [congruence|done]. }
  split_and!.
  - intros now0 random36. apply truthy_true, generateId_nonempty.
  - intros Hne Hx. rw (Hs' Hne). unfold timerEffect. simpl. by rw Hx.
  - intros Hne ->. rw (Hs' Hne). unfold timerEffect. simpl. split_and!; try done.
    intros nows. by apply ticks_idle.
Qed.

Lemma startTask_interval_witness :
  let s := startup 0 [mkTask "" "Ghost" 0 false] None in
  interval (commit 1000 (startTask (generateId 1000 "0.k3x9q2")) s) = Some "rsk3x9q"
  ∧ ticks [2000; 3000] (commit 1000 (startTask "") s) = commit 1000 (startTask "") s.
Proof.
  split.
  - apply (startTask_interval (startup 0 [mkTask "" "Ghost" 0 false] None) 1000
             (generateId 1000 "0.k3x9q2")); [discriminate|reflexivity].
  - apply (startTask_interval (startup 0 [mkTask "" "Ghost" 0 false] None) 1000 "");
      [discriminate|reflexivity].
Defined.

Lemma toLowerCase_empty s : JS.toLowerCase s = "" → s = "".
Proof. by destruct s. Qed.

(** X9.  Adding a name twice is adding it once: after [addTask] has
    handled a name, a second [addTask] with a name equal to it up to case
    and surrounding white space changes nothing, whatever the clock and the
    random draw. *)
Theorem addTask_same_name_once
    (s : EngineState) (now now' : Z) (random36 random36' name0 name0' : string)
    (isDevOps0 isDevOps0' : bool) :
  JS.toLowerCase (JS.trim name0') = JS.toLowerCase (JS.trim name0) →
  let s1 := commit now (addTask s now random36 name0 isDevOps0) s in
  commit now' (addTask s1 now' random36' name0' isDevOps0') s1 = s1.
Proof.
  intros Heq s1.
  apply (proj1 (addTask_commit s1 now' random36' name0' isDevOps0')).
  destruct (addTask_decide s now random36 name0 isDevOps0) as [[E Hc]|(E & Hne & Hnt)].
  - assert (Hs1 : s1 = s) by (unfold s1; rw E; apply commit_nil). rw Hs1.
    destruct Hc as [Hc|(t & Hin & Ht)].
    + left. apply toLowerCase_empty. by rw Heq Hc.
    + right. exists t. split; [done|]. by rw Heq.
  - right. exists (mkTask (generateId now random36) (JS.trim name0) 0 isDevOps0).
    split; [|done]. unfold s1. rw E commit_SetTasks. simpl.
    rw elem_of_app. right. apply list_elem_of_here.
Qed.

Lemma addTask_same_name_once_witness :
  let s1 := commit 1000 (addTask firstRender 1000 "0.k3x9q2" "Meeting" false) firstRender in
  name <$> tasks s1 = ["Meeting"]
  ∧ commit 2000 (addTask s1 2000 "0.7hw1zc" "  MEETING " true) s1 = s1.
Proof.
  split; [reflexivity|].
  apply (addTask_same_name_once firstRender 1000 2000 "0.k3x9q2" "0.7hw1zc"
           "Meeting" "  MEETING " false true).
  reflexivity.
Defined.

Lemma lowerNames_app ts ts' : lowerNames (ts ++ ts') = lowerNames ts ++ lowerNames ts'.
Proof. apply fmap_app. Qed.

Lemma wellNamed_nil : wellNamed [].
Proof. split; [apply NoDup_nil_2|apply Forall_nil_2]. Qed.

Lemma wellNamed_snoc ts t :
  wellNamed ts → name t ≠ "" → JS.trim (name t) = name t → ¬ nameTaken ts (name t) →
  wellNamed (ts ++ [t]).
Proof.
  intros [Hu Hf] Hne Htrim Hfresh. split.
  - unfold uniqueNames. rw lowerNames_app. apply NoDup_snoc; [done|].
    by apply lowerNames_fresh.
  - apply Forall_app. split; [done|]. by apply Forall_singleton.
Qed.

Lemma wellNamed_filter (P : Task → Prop) `{∀ t, Decision (P t)} ts :
  wellNamed ts → wellNamed (filter P ts).
Proof.
  intros [Hu Hf]. split.
  - apply (sublist_NoDup _ _ Hu). apply fmap_sublist, sublist_filter.
  - rw Forall_forall in Hf. apply Forall_forall. intros t Ht.
    apply list_elem_of_filter in Ht as [_ Ht]. by apply Hf.
Qed.

Lemma wellNamed_credit a d ts : wellNamed ts → wellNamed (credit a d <$> ts).
Proof.
  intros [Hu Hf]. split.
  - unfold uniqueNames, lowerNames in *. rw -list_fmap_compose.
    erewrite list_fmap_ext; [exact Hu|]. intros i t _. simpl. unfold credit.
    by case_bool_decide.
  - apply Forall_fmap. eapply Forall_impl; [exact Hf|]. intros t Ht. simpl.
    unfold credit. by case_bool_decide.
Qed.

Lemma addTask_wellNamed s now random36 name0 isDevOps0 :
  wellNamed (tasks s) →
  wellNamed (tasks (commit now (addTask s now random36 name0 isDevOps0) s)).
Proof.
  intros Hw.
  destruct (addTask_decide s now random36 name0 isDevOps0) as [[E _]|(E & Hne & Hnt)];
    rw E.
  - by rw commit_nil.
  - rw commit_SetTasks. simpl. apply wellNamed_snoc; try done. simpl.
    apply trim_idempotent.
Qed.

Lemma step_wellNamed s ev : wellNamed (tasks s) → wellNamed (tasks (step s ev)).
Proof.
  intros Hw. destruct ev as [now c]. unfold step. simpl.
  destruct c; simpl handler.
  - by rw (proj2 (commit_startTask now taskId s)).
  - by rw commit_tasks.
  - rw commit_tasks. unfold toggleTask. by case_bool_decide.
  - by apply addTask_wellNamed.
  - rw commit_tasks. unfold removeTask. case_bool_decide; simpl; by apply wellNamed_filter.
  - unfold handleAddCustomTask. destruct (JS.truthy (JS.trim newTaskName)).
    + by apply addTask_wellNamed.
    + by rw commit_nil.
  - rw commit_tasks. simpl. apply wellNamed_nil.
  - destruct (interval s) as [a|] eqn:E.
    + rw (tick_running now s a) //. simpl. by apply wellNamed_credit.
    + by rw tick_idle.
Qed.

(** X10.  Along every session the names of the collection stay well
    formed: each one non-empty and trimmed, no two equal up to case.  The
    property holds after every event (adding through either path,
    removing, clearing, starting, pausing, toggling, interval firings) once
    it holds at the start, as it does for the empty collection of a first
    visit. *)
Theorem names_stay_wellformed (s : EngineState) (evs : list (Z * command)) :
  wellNamed (tasks s) → Forall (λ s', wellNamed (tasks s')) (trace evs s).
Proof.
  revert s. induction evs as [|ev evs IH]; intros s Hw; simpl.
  - by apply Forall_singleton.
  - apply Forall_cons. split; [done|]. apply IH. by apply step_wellNamed.
Qed.

Lemma names_stay_wellformed_witness :
  Forall (λ s', wellNamed (tasks s'))
         (trace [(1000, AddTask " Meeting" false "0.k3x9q2");
                 (2000, AddCustomTask "#42 " "0.7hw1zc");
                 (3000, AddTask "MEETING" false "0.zzzzzz")]
                firstRender).
Proof. apply names_stay_wellformed. exact wellNamed_nil. Defined.

Lemma existing_None s n : existing s n = None ↔ ¬ nameTaken (tasks s) n.
Proof.
  unfold existing. rw -exists_nameTaken.
  induction (tasks s) as [|t ts IH]; simpl; [done|].
  destruct (String.eqb _ _); simpl; [|done]. split; [done|]. by intros [].
Qed.

Lemma existing_Some s n t :
  existing s n = Some t → t ∈ tasks s ∧ JS.toLowerCase (name t) = JS.toLowerCase n.
Proof.
  unfold existing. induction (tasks s) as [|t' ts IH]; simpl; [done|].
  destruct (String.eqb_spec (JS.toLowerCase (name t')) (JS.toLowerCase n)) as [E|E].
  - intros [= <-]. split; [apply list_elem_of_here|done].
  - intros H. destruct (IH H) as [Hin Ht]. split; [by apply list_elem_of_further|done].
Qed.

Lemma find_snoc {A} (f : A → bool) (l : list A) (x : A) :
  find f l = None → f x = true → find f (l ++ [x]) = Some x.
Proof.
  intros Hl Hx. induction l as [|y l IH]; simpl in *; [by rw Hx|].
  destruct (f y); [done|]. by apply IH.
Qed.

Lemma commit_toggleTask now s x :
  tasks (commit now (toggleTask s x) s) = tasks s
  ∧ activeTaskId (commit now (toggleTask s x) s)
    = if bool_decide (activeTaskId s = Some x) then None else Some x.
Proof.
  rw commit_tasks commit_active. unfold toggleTask. by case_bool_decide.
Qed.

(** X11.  A quick-switch button never duplicates a task, and a new name
    takes two clicks to start.  When a task has the button's name up to
    case, a click toggles that task and leaves the collection alone.  When
    none has, and the name is non-empty and trimmed, the first click only
    appends the task, with no time and the active id unchanged; the second
    click finds that task and toggles it.  Well-formed names stay well
    formed. *)
Theorem quickSwitch_clicks (s : EngineState) (now : Z) (random36 name0 : string) :
  let s1 := commit now (quickSwitch s now random36 name0) s in
  (nameTaken (tasks s) name0 →
   ∃ t, existing s name0 = Some t ∧ t ∈ tasks s
        ∧ JS.toLowerCase (name t) = JS.toLowerCase name0
        ∧ tasks s1 = tasks s
        ∧ activeTaskId s1
          = if bool_decide (activeTaskId s = Some (id t)) then None else Some (id t))
  ∧ (¬ nameTaken (tasks s) name0 → JS.trim name0 = name0 → name0 ≠ "" →
     let new := mkTask (generateId now random36) name0 0 false in
     s1 = mkState (tasks s ++ [new]) (activeTaskId s) (activeStartRef s) (interval s)
     ∧ ∀ now2 random36',
         let s2 := commit now2 (quickSwitch s1 now2 random36' name0) s1 in
         tasks s2 = tasks s1
         ∧ activeTaskId s2
           = if bool_decide (activeTaskId s = Some (id new)) then None else Some (id new))
  ∧ (wellNamed (tasks s) → wellNamed (tasks s1)).
Proof.
  intros s1. split_and!.
  - intros Htaken. destruct (existing s name0) as [t|] eqn:E.
    + destruct (existing_Some s name0 t E) as [Hin Ht].
      exists t. split_and!; try done; unfold s1, quickSwitch; rw E;
        apply commit_toggleTask.
    + by apply existing_None in E.
  - intros Hfree Htrim Hne new.
    assert (Hs1 : s1 = mkState (tasks s ++ [new]) (activeTaskId s) (activeStartRef s)
                                (interval s)).
    { unfold s1, quickSwitch. rw (proj2 (existing_None s name0)) //.
      destruct (addTask_commit s now random36 name0 false) as [_ Hadd].
      rw Htrim in Hadd. by apply Hadd. }
    split; [done|]. intros now2 random36' s2.
    assert (E : existing s1 name0 = Some new).
    { rw Hs1. unfold existing. simpl. apply find_snoc.
      - by apply (proj2 (existing_None s name0)).
      - simpl. apply String.eqb_refl. }
    unfold s2, quickSwitch. rw E.
    destruct (commit_toggleTask now2 s1 (id new)) as [Ht Ha]. rw Ht Ha. by rw Hs1.
  - intros Hw. unfold s1, quickSwitch. destruct (existing s name0) as [t|].
    + by rw (proj1 (commit_toggleTask now s (id t))).
    + by apply addTask_wellNamed.
Qed.

Lemma quickSwitch_clicks_witness :
  let s1 := commit 1000 (quickSwitch firstRender 1000 "0.k3x9q2" "Meeting") firstRender in
  let s2 := commit 2000 (quickSwitch s1 2000 "0.7hw1zc" "Meeting") s1 in
  s1 = mkState [mkTask "rsk3x9q" "Meeting" 0 false] None None None
  ∧ tasks s2 = tasks s1 ∧ activeTaskId s2 = Some "rsk3x9q".
Proof.
  destruct (quickSwitch_clicks firstRender 1000 "0.k3x9q2" "Meeting") as (_ & H & _).
  destruct H as [H1 H2].
  - intros (t & Hin & _). by apply elem_of_nil in Hin.
  - reflexivity.
  - discriminate.
  - split; [exact H1|]. exact (H2 2000 "0.7hw1zc").
Defined.

(** Each of the three buttons clicked once on a first visit, then
    "Admin" once more. *)
Example quick_buttons_run :
  let click now random36 name0 s := commit now (quickSwitch s now random36 name0) s in
  let s3 := click 3000 "0.zzzzzz" "Email"
              (click 2000 "0.7hw1zc" "Admin" (click 1000 "0.k3x9q2" "Meeting" firstRender)) in
  name <$> tasks s3 = QUICK_TASKS
  ∧ activeTaskId s3 = None
  ∧ quickIsActive s3 "Admin" = false
  ∧ quickIsActive (click 4000 "0.aaaaaa" "Admin" s3) "Admin" = true
  ∧ quickIsActive (click 4000 "0.aaaaaa" "Admin" s3) "Meeting" = false
  ∧ name <$> tasks (click 4000 "0.aaaaaa" "Admin" s3) = QUICK_TASKS.
Proof. by vm_compute. Qed.

(** X12.  Toggling the same task twice does not bring back what was
    running before: after the first toggle the task is active unless it
    was already, after the second it is active exactly when it was at the
    start, and any other task that was running at the start stays
    stopped.  No toggle changes the collection. *)
Theorem toggleTask_twice (s : EngineState) (now now' : Z) (x : string) :
  let s1 := commit now (toggleTask s x) s in
  let s2 := commit now' (toggleTask s1 x) s1 in
  tasks s1 = tasks s ∧ tasks s2 = tasks s
  ∧ activeTaskId s1 = (if bool_decide (activeTaskId s = Some x) then None else Some x)
  ∧ activeTaskId s2 = (if bool_decide (activeTaskId s = Some x) then Some x else None).
Proof.
  intros s1 s2.
  destruct (commit_toggleTask now s x) as [Ht1 Ha1].
  destruct (commit_toggleTask now' s1 x) as [Ht2 Ha2].
  fold s1 in Ht1, Ha1. fold s2 in Ht2, Ha2.
  split_and!; [done|by rw Ht2|done|].
  rw Ha2 Ha1. destruct (decide (activeTaskId s = Some x)) as [E|E].
  - rw !(bool_decide_true _ E). by rw bool_decide_false.
  - rw !(bool_decide_false _ E). by rw bool_decide_true.
Qed.

(** X13.  Only the interval changes a time.  Every other event leaves
    each task that stays exactly as it was, in its place: starting,
    pausing and toggling leave the collection as it is; adding leaves it
    as it is or appends one task at zero; removing keeps, in their order,
    the tasks whose id is not the removed one; clearing empties it. *)
Theorem times_change_only_on_ticks (s : EngineState) (now : Z) (c : command) :
  c ≠ Tick →
  match c with
  | StartTask _ | PauseTask | ToggleTask _ =>
      tasks (step s (now, c)) = tasks s
  | AddTask _ _ _ | AddCustomTask _ _ =>
      tasks (step s (now, c)) = tasks s
      ∨ ∃ new, tasks (step s (now, c)) = tasks s ++ [new] ∧ elapsed new = 0
  | RemoveTask taskId =>
      tasks (step s (now, c)) = filter (λ t, id t ≠ taskId) (tasks s)
  | ClearAll => tasks (step s (now, c)) = []
  | Tick => True
  end.
Proof.
  intros Hc. unfold step. simpl.
  assert (Hadd : ∀ random36 name0 isDevOps0,
            tasks (commit now (addTask s now random36 name0 isDevOps0) s) = tasks s
            ∨ ∃ new, tasks (commit now (addTask s now random36 name0 isDevOps0) s)
                     = tasks s ++ [new] ∧ elapsed new = 0).
  { intros random36 name0 isDevOps0.
    destruct (addTask_cases s now random36 name0 isDevOps0) as [E|E]; rw E.
    - left. by rw commit_nil.
    - right. eexists. rw commit_SetTasks. simpl. by split. }
  destruct c; simpl handler.
  - by rw commit_tasks.
  - by rw commit_tasks.
  - apply commit_toggleTask.
  - apply Hadd.
  - rw commit_tasks. unfold removeTask. by case_bool_decide.
  - unfold handleAddCustomTask. destruct (JS.truthy (JS.trim newTaskName)).
    + apply Hadd.
    + left. by rw commit_nil.
  - by rw commit_tasks.
  - done.
Qed.

Lemma times_change_only_on_ticks_witness :
  let s := ticks [1000] (commit 0 (startTask "a") (startup 0 threeTasks None)) in
  elapsed <$> tasks s = [1000; 0; 0]
  ∧ tasks (step s (1500, RemoveTask "b")) = filter (λ t, id t ≠ "b") (tasks s)
  ∧ elapsed <$> tasks (step s (1500, RemoveTask "b")) = [1000; 0]
  ∧ tasks (step s (1500, StartTask "c")) = tasks s.
Proof.
  split; [reflexivity|]. split; [|split; [reflexivity|]].
  - apply (times_change_only_on_ticks
             (ticks [1000] (commit 0 (startTask "a") (startup 0 threeTasks None)))
             1500 (RemoveTask "b")).
    discriminate.
  - apply (times_change_only_on_ticks
             (ticks [1000] (commit 0 (startTask "a") (startup 0 threeTasks None)))
             1500 (StartTask "c")).
    discriminate.
Defined.

End SessionProps.

(** ** The percentage on every input *)

Module PercentProps.
Import JS Switchboard FloatProps.

(** A mantissa [mp] over [P] within 41/32 of a unit of [100 * el / t]
    rounds to an integer within half a unit of that quotient. *)
Lemma round_near el t mp P :
  0 < t → 0 < P → 3 * t < P →
  32 * Z.abs (mp * t - 100 * el * P) ≤ 41 * t →
  2 * Z.abs ((2 * mp + P) / (2 * P) * t - 100 * el) ≤ t.
Proof.
  intros Ht HP HPt Herr.
  pose proof (Z.div_mod (2 * mp + P) (2 * P) ltac:(lia)) as Hdm.
  pose proof (Z.mod_pos_bound (2 * mp + P) (2 * P) ltac:(lia)) as Hr.
  set (n := (2 * mp + P) / (2 * P)) in *. set (r := (2 * mp + P) mod (2 * P)) in *.
  set (D := n * t - 100 * el).
  assert (Hrt : 0 ≤ r * t ≤ (2 * P - 1) * t).
  { split; [apply Z.mul_nonneg_nonneg; lia|apply Z.mul_le_mono_nonneg_r; lia]. }
  assert (HX : 2 * (mp * t - 100 * el * P) = 2 * (P * D) + r * t - P * t).
  { unfold D. replace (2 * (mp * t - 100 * el * P))
      with ((2 * mp + P) * t - P * t - 200 * el * P) by ring.
    rw Hdm. ring. }
  destruct (Z.le_gt_cases (2 * D) t) as [Hup|Hup];
    [destruct (Z.le_gt_cases (- t) (2 * D)) as [Hlo|Hlo]; [lia|]|]; exfalso.
  - assert (P * (2 * D) ≤ P * (- t - 1)) by (apply Z.mul_le_mono_nonneg_l; lia). lia.
  - assert (P * (t + 1) ≤ P * (2 * D)) by (apply Z.mul_le_mono_nonneg_l; lia). lia.
Qed.

(** The double-precision percentage is an integer nearest to the exact
    one, for times below 2^43 ms. *)
Lemma percent_nearest el t :
  0 ≤ el < 2 ^ 43 → 0 < t < 2 ^ 53 →
  ∃ n, Math_round (fmul (fdiv (ofZ el) (ofZ t)) (ofZ 100)) = Some n
       ∧ 2 * Z.abs (n * t - 100 * el) ≤ t.
Proof.
  intros Hel Ht.
  destruct (ofZ_exact t Ht) as (m2 & e2 & -> & Hm2 & He2 & Hm2t & _).
  rw ofZ_100.
  destruct (Z.eq_dec el 0) as [->|Hel0].
  { exists 0. split; [done|]. lia. }
  destruct (ofZ_exact el ltac:(lia)) as (m1 & e1 & -> & Hm1 & He1 & Hm1e & Hel').
  assert (He1' : e1 ≤ -10).
  { destruct (Z.le_gt_cases e1 (-10)); [done|].
    assert (2 ^ 43 ≤ 2 ^ (52 + e1)) by (apply Z.pow_le_mono_r; lia). lia. }
  destruct (fdiv_spec m1 e1 m2 e2) as (mq & eq & -> & Hmq & Heq & Hdiv); [done|done|lia|lia|].
  destruct (fmul_spec mq eq (25 * 2 ^ 48) (-46)) as (mp & ep & -> & Hmp & Hep & Hmul);
    [done|done|lia|lia|].
  set (n := eq - (e1 - e2 - 53)) in *. set (k := ep - (eq + -46)) in *.
  set (a := - e1) in *. set (b := - e2) in *.
  assert (Hep' : - ep = a - b + 99 - n - k) by lia.
  unfold Math_round. rw (proj2 (Z.leb_gt 0 ep)); [lia|].
  set (P := 2 ^ (- ep)).
  assert (HP : 0 < P) by (apply Z.pow_pos_nonneg; lia).
  replace (2 ^ (1 - ep)) with (2 * P)
    by (unfold P; rw -(Z.pow_succ_r 2 (- ep)); [lia|f_equal; lia]).
  assert (Hpk : 2 ^ 52 ≤ 2 ^ k) by (apply Z.pow_le_mono_r; lia).
  assert (Hn0 : 0 < 2 ^ n) by (apply Z.pow_pos_nonneg; lia).
  assert (Hb0 : 0 < 2 ^ b) by (apply Z.pow_pos_nonneg; lia).
  assert (Hexp : P * 2 ^ k * (2 ^ n * 2 ^ b) = 2 ^ a * 2 ^ 53 * 2 ^ 46).
  { unfold P. rw -!Z.pow_add_r; [lia..|]. f_equal. lia. }
  assert (HX : 32 * Z.abs (Z.pos mp * t - 100 * el * P) ≤ 41 * t).
  { apply (percent_error el t (Z.pos m1) (Z.pos m2) (Z.pos mq) (Z.pos mp)
             (Z.pos (25 * 2 ^ 48)) P (2 ^ k) (2 ^ n) (2 ^ a) (2 ^ b));
      try done; lia. }
  eexists. split; [done|]. apply round_near; try lia.
  destruct (Z.le_gt_cases P (3 * t)) as [HPle|]; [|done]. exfalso.
  assert (H1 : 2 ^ 52 * t ≤ Z.pos mp * t) by (apply Z.mul_le_mono_nonneg_r; lia).
  assert (H2 : 100 * el * P ≤ 100 * 2 ^ 43 * (3 * t)).
  { apply Z.mul_le_mono_nonneg; lia. }
  lia.
Qed.

(** X14.  For a task whose time is below 2^43 ms and a total below 2^53
    ms, the percentage of the daily summary is always an integer within
    half a unit of the exact [100 * elapsed / total], ties included; for a
    time that does not exceed the total it lies between 0 and 100, so a bar
    is never wider than its track. *)
Theorem pct_nearest (total : Z) (task : Task) :
  0 ≤ elapsed task < 2 ^ 43 → 0 < total < 2 ^ 53 →
  ∃ n, pct total task = Some n
       ∧ 2 * Z.abs (n * total - 100 * elapsed task) ≤ total
       ∧ (elapsed task ≤ total → 0 ≤ n ≤ 100).
Proof.
  intros Hel Ht. destruct (percent_nearest (elapsed task) total Hel Ht) as (n & Hn & Hnear).
  exists n. unfold pct. rw (proj2 (Z.ltb_lt 0 total)); [lia|].
  split_and!; [done|done|]. intros Hle.
  destruct (Z.le_gt_cases n 100) as [Hup|Hup];
    [destruct (Z.le_gt_cases 0 n) as [Hlo|Hlo]; [lia|]|]; exfalso.
  - assert (n * total ≤ (-1) * total) by (apply Z.mul_le_mono_nonneg_r; lia). lia.
  - assert (101 * total ≤ n * total) by (apply Z.mul_le_mono_nonneg_r; lia). lia.
Qed.

Lemma pct_nearest_witness :
  ∃ n, pct 200000 (mkTask "a" "A" 115000 false) = Some n
       ∧ 2 * Z.abs (n * 200000 - 100 * 115000) ≤ 200000
       ∧ 0 ≤ n ≤ 100.
Proof.
  destruct (pct_nearest 200000 (mkTask "a" "A" 115000 false)) as (n & Hn & Hnear & Hb).
  - simpl. lia.
  - lia.
  - exists n. split_and!; [exact Hn|exact Hnear|apply Hb; simpl; lia..].
Defined.

End PercentProps.

(** ** Writing to the store *)

Module WriteProps.
Import PersistentStore PersistentWrite JSProps.

(** X15.  What [setValue] writes, a reload reads: when the storage takes
    the text, [JSON.parse] inverts [JSON.stringify] on the new value and
    the text is not empty, the state cell holds the new value, no warning
    is logged, a hook mounted afterwards on the same key observes the new
    value once hydrated, and every other key reads as before. *)
Theorem setValue_round_trip
    (JSON_parse : string → option json) (JSON_stringify : json → string)
    (accepts : gmap string string → string → string → bool)
    (m : gmap string string) (key : string) (value : action) (h : hook)
    (initialValue : json) :
  let next := match value with Updater f => f (storedValue h) | Value v => v end in
  let w := setValue JSON_stringify accepts (Browser (Items m)) key value h in
  accepts m key (JSON_stringify next) = true →
  JSON_stringify next ≠ "" →
  JSON_parse (JSON_stringify next) = Some next →
  storedValue (cell w) = next
  ∧ warned w = false
  ∧ env_after w = Browser (Items (<[key := JSON_stringify next]> m))
  ∧ observed JSON_parse (env_after w) true key initialValue = next
  ∧ (∀ key' initialValue', key' ≠ key →
       readFromStorage JSON_parse (env_after w) key' initialValue'
       = readFromStorage JSON_parse (Browser (Items m)) key' initialValue').
Proof.
  intros next w Hacc Hne Hparse.
  assert (Hw : w = mkWritten (mkHook next)
                             (Browser (Items (<[key := JSON_stringify next]> m))) false).
  { unfold w, setValue, setItem. fold next. by rw Hacc. }
  rw Hw. simpl. split_and!; try done.
  - unfold observed, useLocalStorage, mount, readFromStorage, getItem. simpl.
    rw lookup_insert_eq. rw (proj2 (truthy_true _) Hne). by rw Hparse.
  - intros key' initialValue' Hk. unfold readFromStorage, getItem.
    by rw lookup_insert_ne.
Qed.

Lemma setValue_round_trip_witness :
  let m : gmap string string := {[ "switchboard-active" := "null" ]} in
  let w := setValue JSON_stringify_keyword (λ _ _ _, true) (Browser (Items m))
                    "switchboard-oled" (Value (JBool true)) (mkHook (JBool false)) in
  observed JSON_parse_keyword (env_after w) true "switchboard-oled" (JBool false)
  = JBool true
  ∧ readFromStorage JSON_parse_keyword (env_after w) "switchboard-active" (JStr "x")
    = JNull.
Proof.
  destruct (setValue_round_trip JSON_parse_keyword JSON_stringify_keyword (λ _ _ _, true)
              {[ "switchboard-active" := "null" ]} "switchboard-oled"
              (Value (JBool true)) (mkHook (JBool false)) (JBool false))
    as (_ & _ & _ & Hread & Hother).
  - reflexivity.
  - discriminate.
  - reflexivity.
  - split; [exact Hread|]. rw Hother; [discriminate|reflexivity].
Defined.

(** X16.  A write that fails loses nothing in memory and changes nothing
    in the store: on the server, with the storage blocked, or when the
    storage refuses the text, the state cell still takes the new value and
    the hydrated render returns it, a warning is logged, and the
    environment is left as it was, so that a hook mounted later on the key
    reads what was there before the write. *)
Theorem setValue_failure
    (JSON_parse : string → option json) (JSON_stringify : json → string)
    (accepts : gmap string string → string → string → bool)
    (env : environment) (key : string) (value : action) (h : hook)
    (initialValue : json) :
  let next := match value with Updater f => f (storedValue h) | Value v => v end in
  let w := setValue JSON_stringify accepts env key value h in
  env = Server ∨ env = Browser Blocked
  ∨ (∃ m, env = Browser (Items m) ∧ accepts m key (JSON_stringify next) = false) →
  useLocalStorage true (cell w) initialValue = next
  ∧ warned w = true
  ∧ env_after w = env
  ∧ mount JSON_parse (env_after w) key initialValue = mount JSON_parse env key initialValue.
Proof.
  intros next w Hfail.
  assert (Hw : w = mkWritten (mkHook next) env true).
  { unfold w, setValue, setItem. fold next.
    destruct Hfail as [->| [->|(m & -> & Hacc)]]; [done|done|by rw Hacc]. }
  by rw Hw.
Qed.

Lemma setValue_failure_witness :
  let w := setValue JSON_stringify_keyword (λ _ _ _, true) (Browser Blocked)
                    "switchboard-oled" (Updater (λ _, JBool true)) (mkHook (JBool false)) in
  useLocalStorage true (cell w) (JBool false) = JBool true
  ∧ observed JSON_parse_keyword (env_after w) true "switchboard-oled" (JBool false)
    = JBool false.
Proof.
  destruct (setValue_failure JSON_parse_keyword JSON_stringify_keyword (λ _ _ _, true)
              (Browser Blocked) "switchboard-oled" (Updater (λ _, JBool true))
              (mkHook (JBool false)) (JBool false))
    as (Hmem & _ & Henv & _).
  - right. left. reflexivity.
  - split; [exact Hmem|]. rw Henv. reflexivity.
Defined.

End WriteProps.

(** ** Settings of the revised component *)

Module SettingsProps.
Import SwitchboardOled OledSettings JSProps.

Lemma length_string_pos (s : string) : (0 < String.length s)%nat ↔ s ≠ "".
Proof. destruct s; simpl; split; (done || lia). Qed.

Lemma validTasks_valid inputs :
  (length (validTasks inputs) ≤ 6)%nat
  ∧ Forall validName (validTasks inputs)
  ∧ validTasks inputs `sublist_of` (JS.trim <$> inputs).
Proof.
  unfold validTasks. split_and!.
  - rw length_take. lia.
  - apply Forall_take, Forall_forall. intros n Hn.
    apply list_elem_of_filter in Hn as [Hlen Hn].
    apply list_elem_of_fmap in Hn as (i & -> & _).
    split; [by apply length_string_pos|apply trim_idempotent].
  - etrans; [apply sublist_take|apply sublist_filter].
Qed.

Lemma validTasks_fixed q :
  (length q ≤ 6)%nat → Forall validName q → validTasks q = q.
Proof.
  intros Hlen Hq. unfold validTasks.
  assert (Htrim : JS.trim <$> q = q).
  { clear Hlen. induction Hq as [|n q [_ Hn] _ IH]; [done|]. by rw fmap_cons Hn IH. }
  rw Htrim.
  assert (Hfil : filter (λ t, (0 < String.length t)%nat) q = q).
  { clear Hlen Htrim. induction Hq as [|n q [Hn _] _ IH]; [done|].
    rw filter_cons decide_True; [by apply length_string_pos|]. by rw IH. }
  rw Hfil. by apply take_ge.
Qed.

Lemma validTasks_blank inputs :
  Forall (λ t, JS.trim t = "") inputs → validTasks inputs = [].
Proof.
  intros Hall. unfold validTasks.
  assert (filter (λ t, (0 < String.length t)%nat) (JS.trim <$> inputs) = []) as ->; [|done].
  induction Hall as [|t l Ht _ IH]; [done|].
  rw fmap_cons filter_cons decide_False; [rw Ht; simpl; lia|done].
Qed.

Lemma DEFAULT_QUICK_TASKS_valid :
  length DEFAULT_QUICK_TASKS = 3%nat ∧ Forall validName DEFAULT_QUICK_TASKS.
Proof. split; [done|]. repeat constructor; done. Qed.

Lemma saved_valid e :
  let q := quickTasks (handleSaveQuickTasks e) in
  (1 ≤ length q ≤ 6)%nat ∧ Forall validName q.
Proof.
  destruct (validTasks_valid (quickTaskInputs e)) as (Hlen & Hval & _).
  unfold handleSaveQuickTasks. simpl. case_bool_decide as Hpos.
  - split; [lia|done].
  - destruct DEFAULT_QUICK_TASKS_valid as [Hd Hdv]. rw Hd. split; [lia|done].
Qed.

Lemma validTasks_typed inputs :
  validTasks inputs = take 6 (filter (λ t, t ≠ "") (JS.trim <$> inputs)).
Proof.
  unfold validTasks. f_equal. apply list_filter_iff. intros t. apply length_string_pos.
Qed.

(** X17.  Whatever the text fields hold, saving the quick tasks stores
    the names that were typed: the fields trimmed, the empty ones dropped,
    in their order and cut after the sixth; only when nothing is left,
    which is when every field is empty or white space, the three default
    names are stored instead.  The list stored has one to six names, each
    non-empty and trimmed, and the editor is closed. *)
Theorem handleSaveQuickTasks_valid (e : Editor) :
  let typed := take 6 (filter (λ t, t ≠ "") (JS.trim <$> quickTaskInputs e)) in
  let q := quickTasks (handleSaveQuickTasks e) in
  (typed ≠ [] → q = typed)
  ∧ (typed = [] → q = DEFAULT_QUICK_TASKS)
  ∧ (typed = [] ↔ Forall (λ t, JS.trim t = "") (quickTaskInputs e))
  ∧ (1 ≤ length q ≤ 6)%nat
  ∧ Forall (λ n, n ≠ "" ∧ JS.trim n = n) q
  ∧ editingQuickTasks (handleSaveQuickTasks e) = false.
Proof.
  intros typed q.
  assert (Ht : validTasks (quickTaskInputs e) = typed) by apply validTasks_typed.
  assert (Hq : q = if bool_decide (0 < length typed)%nat then typed else DEFAULT_QUICK_TASKS).
  { unfold q, handleSaveQuickTasks. simpl. by rw Ht. }
  destruct (saved_valid e) as [Hlen Hval]. fold q in Hlen, Hval.
  split_and!; try done; try lia.
  - intros Hne. rw Hq bool_decide_true //. destruct typed; [done|simpl; lia].
  - intros ->. by rw Hq.
  - split.
    + intros Hnil. apply Forall_forall. intros t Hin.
      destruct (decide (JS.trim t = "")) as [|Hne]; [done|]. exfalso.
      assert (Hf : JS.trim t ∈ filter (λ t, t ≠ "") (JS.trim <$> quickTaskInputs e)).
      { apply list_elem_of_filter. split; [done|]. by apply list_elem_of_fmap_2. }
      unfold typed in Hnil.
      destruct (filter (λ t, t ≠ "") (JS.trim <$> quickTaskInputs e));
        [by apply elem_of_nil in Hf|done].
    + intros Hall. rw -Ht. by apply validTasks_blank.
Qed.

Lemma handleSaveQuickTasks_valid_witness :
  quickTasks (handleSaveQuickTasks
                (mkEditor DEFAULT_QUICK_TASKS
                          ["  Standup "; ""; "Review"; " "; "a"; "b"; "c"; "d"; "e"] true))
  = ["Standup"; "Review"; "a"; "b"; "c"; "d"]
  ∧ quickTasks (handleSaveQuickTasks (mkEditor ["Old"] [" "; ""] true))
    = DEFAULT_QUICK_TASKS.
Proof.
  split.
  - apply (handleSaveQuickTasks_valid
             (mkEditor DEFAULT_QUICK_TASKS
                       ["  Standup "; ""; "Review"; " "; "a"; "b"; "c"; "d"; "e"] true)).
    by vm_compute.
  - apply (handleSaveQuickTasks_valid (mkEditor ["Old"] [" "; ""] true)).
    by vm_compute.
Defined.

(** X18.  Saving is idempotent: opening the editor on a saved list and
    saving again, with no edit in between, stores the same list. *)
Theorem handleSaveQuickTasks_idempotent (e : Editor) :
  quickTasks (handleSaveQuickTasks (handleStartEditingQuickTasks (handleSaveQuickTasks e)))
  = quickTasks (handleSaveQuickTasks e).
Proof.
  destruct (saved_valid e) as (Hlen & Hval).
  generalize dependent (handleSaveQuickTasks e). intros e' Hlen Hval.
  unfold handleSaveQuickTasks, handleStartEditingQuickTasks. simpl.
  rw validTasks_fixed; [lia|done|]. rw bool_decide_true; [lia|done].
Qed.

Lemma filterIndex_delete index : ∀ prev i,
  filterIndex i index prev
  = if bool_decide (i ≤ index)%nat then delete (index - i)%nat prev else prev.
Proof.
  induction prev as [|x prev IH]; intros i; simpl.
  { by case_bool_decide. }
  rw IH. destruct (decide (i = index)) as [->|Hi].
  - rw (bool_decide_false (index ≠ index)); [by intros H|].
    rw (bool_decide_false (S index ≤ index)%nat); [lia|].
    rw bool_decide_true // Nat.sub_diag. done.
  - rw (bool_decide_true (i ≠ index)) //.
    destruct (decide (i ≤ index)%nat) as [Hle|Hgt].
    + rw !bool_decide_true; [lia..|].
      replace (index - i)%nat with (S (index - S i)) by lia. done.
    + rw !bool_decide_false; [lia..|]. done.
Qed.

Lemma length_delete_le {A} (l : list A) : ∀ i, (length (delete i l) ≤ length l)%nat.
Proof.
  induction l as [|x l IH]; intros [|i]; simpl; try lia. specialize (IH i). lia.
Qed.

Lemma delete_beyond {A} (l : list A) : ∀ i, (length l ≤ i)%nat → delete i l = l.
Proof.
  induction l as [|x l IH]; intros [|i] Hi; simpl in *; try done; [lia|].
  rw IH; [lia|done].
Qed.

Lemma applyEdit_bounded e ed :
  (length (quickTaskInputs e) ≤ 6)%nat →
  (length (quickTaskInputs (applyEdit e ed)) ≤ 6)%nat
  ∧ quickTasks (applyEdit e ed) = quickTasks e.
Proof.
  intros Hlen. destruct ed as [|index]; simpl.
  - unfold handleAddQuickTaskInput. case_bool_decide; simpl; [|done].
    rw length_app. simpl. split; [lia|done].
  - rw filterIndex_delete. simpl. split; [|done].
    pose proof (length_delete_le (quickTaskInputs e) (index - 0)) as Hd. lia.
Qed.

(** X19.  The editor never holds more than six text fields, and editing
    touches nothing that is stored: starting from at most six fields, any
    sequence of "add" and "remove" leaves at most six and the stored list
    as it was; "add" does nothing at six fields; "remove" deletes the
    field at its position and nothing when there is none; "cancel" puts
    the stored list back into the fields. *)
Theorem quickTask_editor_bounded (e : Editor) (edits : list edit) :
  (length (quickTaskInputs e) ≤ 6)%nat →
  let e' := foldl applyEdit e edits in
  (length (quickTaskInputs e') ≤ 6)%nat
  ∧ quickTasks e' = quickTasks e
  ∧ (length (quickTaskInputs e') = 6%nat → handleAddQuickTaskInput e' = e')
  ∧ (∀ index, quickTaskInputs (handleRemoveQuickTaskInput index e')
              = delete index (quickTaskInputs e'))
  ∧ (∀ index, (length (quickTaskInputs e') ≤ index)%nat →
              quickTaskInputs (handleRemoveQuickTaskInput index e') = quickTaskInputs e')
  ∧ handleCancelEditingQuickTasks e' = mkEditor (quickTasks e) (quickTasks e) false.
Proof.
  intros Hlen e'.
  assert (H : (length (quickTaskInputs e') ≤ 6)%nat ∧ quickTasks e' = quickTasks e).
  { unfold e'. clear e'. revert e Hlen.
    induction edits as [|ed edits IH]; intros e Hlen; simpl; [done|].
    destruct (applyEdit_bounded e ed Hlen) as [Hl Hq].
    destruct (IH _ Hl) as [Hl' Hq']. split; [done|]. by rw Hq'. }
  destruct H as [Hl Hq].
  assert (Hdel : ∀ index, quickTaskInputs (handleRemoveQuickTaskInput index e')
                          = delete index (quickTaskInputs e')).
  { intros index. simpl. rw filterIndex_delete bool_decide_true; [lia|]. by rw Nat.sub_0_r. }
  split_and!; try done.
  - intros H6. unfold handleAddQuickTaskInput. rw bool_decide_false; [lia|done].
  - intros index Hout. rw Hdel. by apply delete_beyond.
  - unfold handleCancelEditingQuickTasks. by rw Hq.
Qed.

Lemma quickTask_editor_bounded_witness :
  let e := handleStartEditingQuickTasks (mkEditor DEFAULT_QUICK_TASKS [] false) in
  let e' := foldl applyEdit e [AddInput; AddInput; AddInput; AddInput; RemoveInput 1;
                               AddInput; AddInput] in
  quickTaskInputs e' = ["Meeting"; "Email"; ""; ""; ""; ""]
  ∧ (length (quickTaskInputs e') ≤ 6)%nat.
Proof.
  split; [reflexivity|].
  apply (quickTask_editor_bounded
           (handleStartEditingQuickTasks (mkEditor DEFAULT_QUICK_TASKS [] false))
           [AddInput; AddInput; AddInput; AddInput; RemoveInput 1; AddInput; AddInput]).
  simpl. lia.
Defined.




End SettingsProps.

(** ** Sessions and reloads *)

Module PersistedProps.
Import Switchboard PersistentStore PersistentWrite PersistedSession.
Import JSProps TimerProps.

Lemma jsonTask_taskJson t : jsonTask (taskJson t) = Some t.
Proof. by destruct t. Qed.

Lemma jsonTasks_tasksJson ts : jsonTasks (tasksJson ts) = Some ts.
Proof.
  unfold jsonTasks, tasksJson. induction ts as [|t ts IH]; [done|].
  rw fmap_cons. cbn [mapM]. rw jsonTask_taskJson IH. done.
Qed.

Lemma jsonActive_activeJson a : jsonActive (activeJson a) = Some a.
Proof. by destruct a. Qed.

Lemma jsonTasks_activeJson a : jsonTasks (activeJson a) = None.
Proof. by destruct a. Qed.

Lemma unbinary_binary p : unbinary (binary p) = p.
Proof. induction p as [p IH|p IH|]; simpl; [by rw IH|by rw IH|done]. Qed.

Lemma tupleTask_taskTuple (ts : list Task) : tupleTask <$> (taskTuple <$> ts) = ts.
Proof.
  induction ts as [|t ts IH]; [done|]. rw !fmap_cons IH. by destruct t.
Qed.

Lemma code_round_trip :
  (∀ ts, parse_code (stringify_code (tasksJson ts)) = Some (tasksJson ts))
  ∧ (∀ a, parse_code (stringify_code (activeJson a)) = Some (activeJson a))
  ∧ (∀ j, stringify_code j ≠ "").
Proof.
  split_and!.
  - intros ts. unfold stringify_code. rw jsonTasks_tasksJson. simpl.
    by rw unbinary_binary decode_encode /= tupleTask_taskTuple.
  - intros a. unfold stringify_code. rw jsonTasks_activeJson jsonActive_activeJson. simpl.
    by rw unbinary_binary decode_encode.
  - intros j. unfold stringify_code. by destruct (jsonTasks j), (jsonActive j).
Qed.

Section Session.

Variable JSON_parse : string → option json.
Variable JSON_stringify : json → string.
Variable accepts : gmap string string → string → string → bool.

Hypothesis parse_tasks : ∀ ts,
  JSON_parse (JSON_stringify (tasksJson ts)) = Some (tasksJson ts).
Hypothesis parse_active : ∀ a,
  JSON_parse (JSON_stringify (activeJson a)) = Some (activeJson a).
Hypothesis stringify_nonempty : ∀ j, JSON_stringify j ≠ "".
Hypothesis accepts_all : ∀ m key text, accepts m key text = true.

Lemma observed_insert m key text v initialValue :
  text ≠ "" → JSON_parse text = Some v →
  observed JSON_parse (Browser (Items (<[key := text]> m))) true key initialValue = v.
Proof.
  intros Hne Hp. unfold observed, useLocalStorage, mount, readFromStorage, getItem. simpl.
  rw lookup_insert_eq (proj2 (truthy_true _) Hne). by rw Hp.
Qed.

Lemma observed_insert_ne m key key' text initialValue :
  key' ≠ key →
  observed JSON_parse (Browser (Items (<[key := text]> m))) true key' initialValue
  = observed JSON_parse (Browser (Items m)) true key' initialValue.
Proof.
  intros Hk. unfold observed, useLocalStorage, mount, readFromStorage, getItem. simpl.
  by rw lookup_insert_ne.
Qed.

Lemma write_active m s v :
  env_after (write JSON_stringify accepts (Browser (Items m)) s (SetActiveTaskId v))
  = Browser (Items (<["switchboard-active" := JSON_stringify (activeJson v)]> m)).
Proof. unfold write, setValue, setItem. by rw accepts_all. Qed.

Lemma write_tasks m s f :
  env_after (write JSON_stringify accepts (Browser (Items m)) s (SetTasks f))
  = Browser (Items (<["switchboard-tasks" := JSON_stringify (tasksJson (f (tasks s)))]> m)).
Proof.
  unfold write, setValue, setItem. rw accepts_all. cbn [storedValue env_after].
  by rw jsonTasks_tasksJson.
Qed.

Lemma write_synced m s u :
  synced JSON_parse s (Browser (Items m)) →
  ∃ m', env_after (write JSON_stringify accepts (Browser (Items m)) s u)
        = Browser (Items m')
        ∧ synced JSON_parse (applyUpdate s u) (Browser (Items m')).
Proof.
  intros [Ht Ha]. destruct u as [v|f]; [rw write_active|rw write_tasks];
    eexists; (split; [reflexivity|]); split; cbn [applyUpdate tasks activeTaskId].
  - by rw observed_insert_ne.
  - by apply observed_insert.
  - by apply observed_insert.
  - by rw observed_insert_ne.
Qed.

Lemma writeAll_synced batch : ∀ m s,
  synced JSON_parse s (Browser (Items m)) →
  ∃ m', writeAll JSON_stringify accepts batch s (Browser (Items m)) = Browser (Items m')
        ∧ synced JSON_parse (foldl applyUpdate s batch) (Browser (Items m')).
Proof.
  induction batch as [|u batch IH]; intros m s Hs; simpl; [by exists m|].
  destruct (write_synced m s u Hs) as (m' & -> & Hs'). by apply IH.
Qed.

Lemma synced_fields s s' env :
  tasks s' = tasks s → activeTaskId s' = activeTaskId s →
  synced JSON_parse s env → synced JSON_parse s' env.
Proof. unfold synced. by intros -> ->. Qed.

Lemma step_fields s ev :
  tasks (step s ev) = tasks (foldl applyUpdate s (batchOf s ev))
  ∧ activeTaskId (step s ev) = activeTaskId (foldl applyUpdate s (batchOf s ev)).
Proof.
  destruct ev as [now c]. unfold step, batchOf. simpl.
  destruct c; try (by rw commit_tasks commit_active).
  unfold tickBatch. destruct (interval s) as [a|] eqn:E.
  - by rw (tick_running now s a).
  - by rw tick_idle.
Qed.

Lemma persistedStep_synced m s ev :
  synced JSON_parse s (Browser (Items m)) →
  ∃ m', persistedStep JSON_stringify accepts (s, Browser (Items m)) ev
        = (step s ev, Browser (Items m'))
        ∧ synced JSON_parse (step s ev) (Browser (Items m')).
Proof.
  intros Hs. unfold persistedStep. cbn [fst snd].
  destruct (writeAll_synced (batchOf s ev) m s Hs) as (m' & -> & Hs').
  exists m'. split; [done|]. destruct (step_fields s ev) as [Ht Ha].
  by apply (synced_fields _ _ _ Ht Ha).
Qed.

Lemma persistedRun_synced evs : ∀ m s,
  synced JSON_parse s (Browser (Items m)) →
  ∃ m', persistedRun JSON_stringify accepts evs (s, Browser (Items m))
        = (run evs s, Browser (Items m'))
        ∧ synced JSON_parse (run evs s) (Browser (Items m')).
Proof.
  induction evs as [|ev evs IH]; intros m s Hs; [by exists m|].
  unfold persistedRun, run. simpl.
  destruct (persistedStep_synced m s ev Hs) as (m' & -> & Hs'). by apply IH.
Qed.

Lemma reload_synced s env now :
  synced JSON_parse s env →
  reload JSON_parse env now = Some (startup now (tasks s) (activeTaskId s)).
Proof.
  intros [Ht Ha]. unfold reload. rw Ht Ha jsonTasks_tasksJson jsonActive_activeJson. done.
Qed.

End Session.

(** X21.  With a store that works, the store always holds what the
    component shows.  Let [JSON.parse] invert [JSON.stringify] on task
    lists and on active ids, the texts be non-empty and the storage take
    every write.  If the store holds the tasks and the active id of the
    state at the start (as on a first visit, with nothing stored), then
    after any sequence of events it holds those of the state reached, and
    a reload at any time renders exactly that collection, times included,
    and that active id. *)
Theorem reload_restores
    (JSON_parse : string → option json) (JSON_stringify : json → string)
    (accepts : gmap string string → string → string → bool)
    (s : EngineState) (m : gmap string string) (evs : list (Z * command)) :
  (∀ ts, JSON_parse (JSON_stringify (tasksJson ts)) = Some (tasksJson ts)) →
  (∀ a, JSON_parse (JSON_stringify (activeJson a)) = Some (activeJson a)) →
  (∀ j, JSON_stringify j ≠ "") →
  (∀ m' key text, accepts m' key text = true) →
  synced JSON_parse s (Browser (Items m)) →
  let se := persistedRun JSON_stringify accepts evs (s, Browser (Items m)) in
  se.1 = run evs s
  ∧ synced JSON_parse se.1 se.2
  ∧ ∀ now, ∃ s',
      reload JSON_parse se.2 now = Some s'
      ∧ s' = startup now (tasks se.1) (activeTaskId se.1)
      ∧ tasks s' = tasks se.1 ∧ activeTaskId s' = activeTaskId se.1.
Proof.
  intros Hpt Hpa Hne Hacc Hs se.
  destruct (persistedRun_synced JSON_parse JSON_stringify accepts Hpt Hpa Hne Hacc evs m s Hs)
    as (m' & Hse & Hs').
  unfold se. rw Hse. simpl. split_and!; [done|done|].
  intros now. eexists. split; [by apply reload_synced|].
  split; [done|]. apply startup_fields.
Qed.

Lemma reload_restores_witness :
  let evs := [(1000, AddTask "Meeting" false "0.k3x9q2"); (2000, StartTask "rsk3x9q");
              (3000, Tick); (4500, Tick)] in
  let se := persistedRun stringify_code (λ _ _ _, true) evs
                         (firstRender, Browser (Items ∅)) in
  ∃ s', reload parse_code se.2 9000 = Some s'
        ∧ tasks s' = tasks (run evs firstRender)
        ∧ activeTaskId s' = Some "rsk3x9q".
Proof.
  destruct code_round_trip as (Hpt & Hpa & Hne).
  destruct (reload_restores parse_code stringify_code (λ _ _ _, true) firstRender ∅
              [(1000, AddTask "Meeting" false "0.k3x9q2"); (2000, StartTask "rsk3x9q");
               (3000, Tick); (4500, Tick)] Hpt Hpa Hne)
    as (Hrun & _ & Hreload).
  - reflexivity.
  - split; reflexivity.
  - destruct (Hreload 9000) as (s' & Hs' & _ & Ht & Ha).
    exists s'. split; [exact Hs'|]. split.
    + rw Ht. by rw Hrun.
    + rw Ha. rw Hrun. reflexivity.
Defined.

Lemma writeAll_unavailable JSON_stringify accepts batch : ∀ s env,
  env = Server ∨ env = Browser Blocked →
  writeAll JSON_stringify accepts batch s env = env.
Proof.
  induction batch as [|u batch IH]; intros s env Henv; [done|]. simpl.
  assert (env_after (write JSON_stringify accepts env s u) = env) as ->.
  { destruct Henv as [-> | ->]; by destruct u. }
  by apply IH.
Qed.

(** X22.  Without a store nothing survives a reload: when there is no
    [window] or the storage raises on every access, no event changes the
    environment, the session itself runs as with a store, and a reload
    renders the first-render state, with no task and no active id. *)
Theorem reload_without_store
    (JSON_parse : string → option json) (JSON_stringify : json → string)
    (accepts : gmap string string → string → string → bool)
    (s : EngineState) (env : environment) (evs : list (Z * command)) (now : Z) :
  env = Server ∨ env = Browser Blocked →
  persistedRun JSON_stringify accepts evs (s, env) = (run evs s, env)
  ∧ reload JSON_parse env now = Some firstRender.
Proof.
  intros Henv. split.
  - revert s. induction evs as [|ev evs IH]; intros s; [done|].
    unfold persistedRun, run. simpl. unfold persistedStep at 2. cbn [fst snd].
    rw writeAll_unavailable //. apply IH.
  - by destruct Henv as [-> | ->].
Qed.

Lemma reload_without_store_witness :
  let evs := [(1000, AddTask "Meeting" false "0.k3x9q2"); (2000, StartTask "rsk3x9q");
              (3000, Tick)] in
  elapsed <$> tasks (persistedRun stringify_code (λ _ _ _, true) evs
                                  (firstRender, Browser Blocked)).1 = [1000]
  ∧ reload parse_code (Browser Blocked) 9000 = Some firstRender.
Proof.
  destruct (reload_without_store parse_code stringify_code (λ _ _ _, true) firstRender
              (Browser Blocked)
              [(1000, AddTask "Meeting" false "0.k3x9q2"); (2000, StartTask "rsk3x9q");
               (3000, Tick)] 9000) as [Hrun Hreload].
  - right. reflexivity.
  - split; [|exact Hreload]. rw Hrun. reflexivity.
Defined.

End PersistedProps.

(** ** The billing block *)

Module BillingProps.
Import Switchboard Scenarios Display Billing DisplayProps.

Lemma sumElapsed_billingRows ts :
  Forall (λ t, 0 ≤ elapsed t) ts → sumElapsed (billingRows ts) = sumElapsed ts.
Proof.
  unfold billingRows. induction 1 as [|t ts Ht _ IH]; [done|].
  rw filter_cons. destruct (decide (0 < elapsed t)); simpl; lia.
Qed.

Lemma wholeSeconds_bounds rows :
  Forall (λ t, 0 ≤ elapsed t) rows →
  1000 * wholeSeconds rows ≤ sumElapsed rows
  ∧ sumElapsed rows ≤ 1000 * wholeSeconds rows + 999 * Z.of_nat (length rows).
Proof.
  induction 1 as [|t rows Ht _ IH]; simpl length; simpl; [lia|].
  pose proof (Z.div_mod (elapsed t) 1000 ltac:(lia)).
  pose proof (Z.mod_pos_bound (elapsed t) 1000 ltac:(lia)). lia.
Qed.

Lemma billingLine_text t :
  0 ≤ elapsed t → elapsed t + 1000 < 2 ^ 53 →
  ∃ time, formatTime (elapsed t) = Some time
          ∧ billingLine t = Some (name t +:+ ": " +:+ time)
          ∧ readClock 0 0 time = elapsed t / 1000.
Proof.
  intros H0 Hhi. unfold billingLine. rw formatTime_exact //. eexists.
  split; [done|]. split; [done|].
  rw readClock_text; Z.div_mod_to_equations; lia.
Qed.

(** X23.  The billing block lists the tasks of the summary bars, in the
    order of the collection instead of by time: its rows are the tasks
    with a positive time, each as it is, in the order they have in the
    collection.  When the times and running sums are integers below 2^53
    ms and no time is negative, the times of the listed tasks add up to
    the total on doubles; each line shows its task's whole seconds, so
    the seconds shown on the lines can add up to less than the seconds
    shown as total, by less than one second per line and never to more. *)
Theorem billing_lines (ts : list Task) :
  billingRows ts `sublist_of` ts
  ∧ (∀ t, t ∈ billingRows ts ↔ t ∈ ts ∧ 0 < elapsed t)
  ∧ billingRows ts ≡ₚ summaryRows ts
  ∧ length (billingLines ts) = length (summaryRows ts)
  ∧ (Doubles.exactSums ts → Forall (λ t, 0 ≤ elapsed t) ts →
     Doubles.totalTimeDouble ts = JS.ofZ (sumElapsed (billingRows ts))
     ∧ sumElapsed (billingRows ts) = totalTime ts
     ∧ wholeSeconds (billingRows ts) ≤ totalTime ts / 1000
     ∧ totalTime ts / 1000 ≤ wholeSeconds (billingRows ts) + Z.of_nat (length (billingRows ts))
     ∧ (billingRows ts ≠ [] →
        totalTime ts / 1000 < wholeSeconds (billingRows ts)
                              + Z.of_nat (length (billingRows ts))))
  ∧ (∀ t, t ∈ billingRows ts → elapsed t + 1000 < 2 ^ 53 →
          ∃ time, billingLine t = Some (name t +:+ ": " +:+ time)
                  ∧ readClock 0 0 time = elapsed t / 1000).
Proof.
  assert (Hperm : billingRows ts ≡ₚ summaryRows ts).
  { unfold summaryRows, billingRows. symmetry. apply SummaryProps.sort_perm. }
  assert (Hsub : billingRows ts `sublist_of` ts) by apply sublist_filter.
  split_and!; [done| |done|by rw /billingLines length_fmap Hperm| |].
  - intros t. unfold billingRows. rw list_elem_of_filter. tauto.
  - intros Hex Hpos.
    assert (Hrows : Forall (λ t, 0 ≤ elapsed t) (billingRows ts)).
    { rw Forall_forall in Hpos. apply Forall_forall. intros t Ht.
      apply list_elem_of_filter in Ht as [_ Ht]. by apply Hpos. }
    destruct (wholeSeconds_bounds _ Hrows) as [Hlo Hhi].
    destruct (DoubleProps.totalTimeDouble_exact ts Hex) as [HD _].
    rw HD SummaryProps.totalTime_sum -(sumElapsed_billingRows ts Hpos).
    set (n := Z.of_nat (length (billingRows ts))) in *.
    assert (Hn : 0 ≤ n) by (unfold n; lia).
    split_and!; [done|done|..].
    + apply Z.div_le_lower_bound; lia.
    + apply Z.lt_succ_r, Z.div_lt_upper_bound; lia.
    + intros Hne. apply Z.div_lt_upper_bound; [lia|].
      assert (0 < n); [|lia]. unfold n. destruct (billingRows ts); [done|simpl; lia].
  - intros t Ht Hhi. apply list_elem_of_filter in Ht as [Hpos _].
    destruct (billingLine_text t ltac:(lia) Hhi) as (time & _ & Hline & Hread).
    by exists time.
Qed.

Lemma billing_lines_witness :
  name <$> billingRows hundreds = ["A"; "B"; "C"]
  ∧ name <$> summaryRows hundreds = ["C"; "B"; "A"]
  ∧ billingRows hundreds `sublist_of` hundreds
  ∧ billingLines halfSeconds
    = [Some "A: 00:00:00"; Some "B: 00:00:00"; Some "C: 00:00:00"]
  ∧ billingTotal halfSeconds = Some "Total: 00:00:01"
  ∧ wholeSeconds (billingRows halfSeconds) ≤ totalTime halfSeconds / 1000
  ∧ totalTime halfSeconds / 1000 < wholeSeconds (billingRows halfSeconds) + 3.
Proof.
  destruct (billing_lines hundreds) as (Hsub & _).
  destruct (billing_lines halfSeconds) as (_ & _ & _ & _ & H & _).
  destruct H as (_ & _ & Hlo & _ & Hhi).
  - apply DoubleProps.exactFrom_nonneg; [done|repeat constructor; simpl; lia|simpl; lia].
  - repeat constructor; simpl; lia.
  - split_and!; [reflexivity|reflexivity|exact Hsub|reflexivity|reflexivity|exact Hlo|].
    apply Hhi. discriminate.
Defined.

End BillingProps.
